(** * A shallow embedding of the reactive core of vue2-code-comment

    The development follows the source files:
    - [src/core/util/next-tick.js]   : module [next_tick]
    - [src/core/observer/scheduler.js] and [watcher.js] : modules [watcher], [scheduler]
    - [src/core/observer/index.js] and [array.js] : module [observer]

    JavaScript objects are shared mutable records; they are modelled by
    explicit stores passed from call to call.  User supplied functions
    (getters, callbacks, hooks) are modelled by functions over an abstract
    [World] that return what they did to the runtime (which dependency
    subjects they touched, which watchers they invalidated, which callbacks
    they registered) together with their completion. *)

From stdpp Require Import gmap strings list fin_maps sorting.

(** ** Completions and reports shared by all modules *)

(** A thrown JavaScript value.  Only its identity matters here. *)
Definition error := string.

(** How a call completes: it returns or it throws. *)
Inductive completion (A : Type) : Type :=
| Normal (a : A)
| Throw (e : error).
Arguments Normal {A} a.
Arguments Throw {A} e.

(** One call [handleError(err, vm, info)] received by the error sink. *)
Record report := Report { rp_error : error; rp_owner : nat; rp_info : string }.

(** ** JavaScript values *)

(** Numbers are modelled by the integers and [NaN]: the only property of
    numbers the code relies on is that [NaN] is not strictly equal to
    itself. *)
Inductive number := NaN | Num (z : Z).

(** Objects and functions are references into a store. *)
Inductive jsvalue :=
| VUndefined
| VNull
| VBool (b : bool)
| VNumber (n : number)
| VString (s : string)
| VObject (a : nat)
| VFunction (f : nat).

Global Instance number_eq_dec : EqDecision number.
Proof. solve_decision. Defined.
Global Instance jsvalue_eq_dec : EqDecision jsvalue.
Proof. solve_decision. Defined.

Definition is_NaN (v : jsvalue) : bool :=
  match v with VNumber NaN => true | _ => false end.

(** [a === b] *)
Definition strict_equal (a b : jsvalue) : bool :=
  if is_NaN a || is_NaN b then false else bool_decide (a = b).

(** [isObject(v)]: [v !== null && typeof v === 'object'] *)
Definition isObject (v : jsvalue) : bool :=
  match v with VObject _ => true | _ => false end.

(** ** User code *)

(** What a call into user code did, as far as the runtime can tell:
    the dependency subjects whose [depend()] fired, the watchers handed to
    [queueWatcher] (through [notify()] and [update()]), the world it left
    and its completion. *)
Record effects (World A : Type) := Effects {
  touched : list nat;
  queued : list nat;
  after : World;
  outcome : completion A
}.
Arguments Effects {World A}.
Arguments touched {World A}.
Arguments queued {World A}.
Arguments after {World A}.
Arguments outcome {World A}.

(** The fields of a component instance ([vm]) the core reads or writes. *)
Record component := Component {
  _watcher : option nat;
  _watchers : list nat;
  _isMounted : bool;
  _isDestroyed : bool;
  _isBeingDestroyed : bool;
  _inactive : bool
}.

Definition dquote : string := String (Ascii.ascii_of_nat 34) EmptyString.

(** * next-tick.js *)
Module next_tick.
Section with_world.
Context {World : Type}.

(** A user callback handed to [nextTick].  Running it against the world
    yields the [nextTick(cb, ctx)] calls it made, the new world and whether
    it threw.  [cb_tag] is a ghost label used to observe execution order. *)
#[local] Unset Elimination Schemes.
Inductive callback : Type :=
| Callback (cb_tag : nat)
    (cb_body : World → list (option callback * nat) * World * option error).

#[local] Set Elimination Schemes.

Definition cb_tag (c : callback) : nat := let 'Callback t _ := c in t.
Definition cb_body (c : callback) := let 'Callback _ b := c in b.

(** The closure pushed by [nextTick]: it captures [cb], [ctx] and, when no
    callback was given and promises exist, the promise's [_resolve]. *)
Record entry := Entry {
  en_cb : option callback;
  en_ctx : nat;
  en_resolve : bool
}.

(** Ghost record of one execution of a pushed closure. *)
Record execution := Execution {
  ex_tag : option nat;
  ex_ctx : nat;
  ex_thrown : option error
}.

Record state := State {
  callbacks : list entry;
  pending : bool;
  (** number of times [timerFunc()] was called, i.e. flushes requested *)
  timer_calls : nat;
  (** is [Promise] defined in this environment *)
  has_promise : bool;
  world : World;
  (** calls received by [handleError] *)
  handled : list report;
  (** promises resolved by a closure pushed without callback *)
  resolved : list nat;
  (** ghost: every closure ever pushed, and every closure execution *)
  registered : list entry;
  executed : list execution
}.

Definition set_world (w : World) (s : state) : state :=
  State (callbacks s) (pending s) (timer_calls s) (has_promise s) w
        (handled s) (resolved s) (registered s) (executed s).

(** Modelled from the spec: [handleError] (src/core/util/error.js) is the
    shared error sink taking (error, contextual-owner, phase-description);
    it records the error and returns. *)
Definition handleError (e : error) (ctx : nat) (info : string) (s : state) : state :=
  State (callbacks s) (pending s) (timer_calls s) (has_promise s) (world s)
        (handled s ++ [Report e ctx info]) (resolved s) (registered s) (executed s).

(** [nextTick(cb, ctx)] *)
Definition nextTick (cb : option callback) (ctx : nat) (s : state) : state :=
  let en := Entry cb ctx (bool_decide (cb = None) && has_promise s) in
  let first := negb (pending s) in
  State (callbacks s ++ [en])
        true
        (if first then S (timer_calls s) else timer_calls s)
        (has_promise s) (world s) (handled s) (resolved s)
        (registered s ++ [en]) (executed s).

Definition nextTick_all (calls : list (option callback * nat)) (s : state) : state :=
  foldl (λ s c, nextTick c.1 c.2 s) s calls.

Definition log_execution (x : execution) (s : state) : state :=
  State (callbacks s) (pending s) (timer_calls s) (has_promise s) (world s)
        (handled s) (resolved s) (registered s) (executed s ++ [x]).

Definition resolve (ctx : nat) (s : state) : state :=
  State (callbacks s) (pending s) (timer_calls s) (has_promise s) (world s)
        (handled s) (resolved s ++ [ctx]) (registered s) (executed s).

(** Body of the closure pushed by [nextTick]. *)
Definition run_entry (en : entry) (s : state) : state :=
  match en_cb en with
  | Some c =>
      let '(calls, w, thrown) := cb_body c (world s) in
      let s1 := nextTick_all calls (set_world w s) in
      let s2 := log_execution (Execution (Some (cb_tag c)) (en_ctx en) thrown) s1 in
      match thrown with
      | Some e => handleError e (en_ctx en) "nextTick" s2
      | None => s2
      end
  | None =>
      let s1 := log_execution (Execution None (en_ctx en) None) s in
      if en_resolve en then resolve (en_ctx en) s1 else s1
  end.

Definition run_copies (copies : list entry) (s : state) : state :=
  foldl (λ s en, run_entry en s) s copies.

(** [flushCallbacks()] *)
Definition flushCallbacks (s : state) : state :=
  let copies := callbacks s in
  let s1 := State [] false (timer_calls s) (has_promise s) (world s)
                  (handled s) (resolved s) (registered s) (executed s) in
  run_copies copies s1.

(** The reports a list of executions must have produced. *)
Definition reports_of (xs : list execution) : list report :=
  omap (λ x, (λ e, Report e (ex_ctx x) "nextTick") <$> ex_thrown x) xs.

(** *** Effect of registrations *)

Definition nonempty {A} (l : list A) : bool :=
  match l with [] => false | _ :: _ => true end.

Lemma nonempty_app {A} (l k : list A) : nonempty (l ++ k) = nonempty l || nonempty k.
Proof. by destruct l, k. Qed.

(** What a sequence of steps that only push closures does to the state. *)
Definition pushes (new : list entry) (s s' : state) : Prop :=
  callbacks s' = callbacks s ++ new ∧
  registered s' = registered s ++ new ∧
  pending s' = pending s || nonempty new ∧
  timer_calls s' =
    (if negb (pending s) && nonempty new then S (timer_calls s)
     else timer_calls s) ∧
  has_promise s' = has_promise s.

Lemma pushes_refl s : pushes [] s s.
Proof.
  unfold pushes. rewrite !app_nil_r, orb_false_r, andb_false_r. done.
Qed.

Lemma pushes_trans new1 new2 s1 s2 s3 :
  pushes new1 s1 s2 → pushes new2 s2 s3 → pushes (new1 ++ new2) s1 s3.
Proof.
  intros (Hc & Hr & Hp & Ht & Hh) (Hc' & Hr' & Hp' & Ht' & Hh').
  unfold pushes. rewrite Hc', Hr', Hp', Ht', Hh', Hc, Hr, Hp, Ht, Hh.
  rewrite <- !app_assoc, nonempty_app.
  repeat split; try done.
  - by rewrite orb_assoc.
  - by destruct (pending s1), (nonempty new1), (nonempty new2).
Qed.

Lemma nextTick_pushes cb ctx s :
  ∃ en, en_cb en = cb ∧ en_ctx en = ctx ∧ pushes [en] s (nextTick cb ctx s).
Proof.
  exists (Entry cb ctx (bool_decide (cb = None) && has_promise s)).
  unfold pushes, nextTick; simpl.
  rewrite orb_true_r, andb_true_r. done.
Qed.

Lemma nextTick_all_spec calls s :
  ∃ new,
    en_cb <$> new = fst <$> calls ∧
    pushes new s (nextTick_all calls s) ∧
    world (nextTick_all calls s) = world s ∧
    handled (nextTick_all calls s) = handled s ∧
    executed (nextTick_all calls s) = executed s.
Proof.
  revert s. induction calls as [|c calls IH]; intros s.
  - exists []. split; [done|]. split; [apply pushes_refl|done].
  - destruct (nextTick_pushes c.1 c.2 s) as (en & Hen & _ & H1).
    destruct (IH (nextTick c.1 c.2 s)) as (new & Hnew & H2 & Hw & Hh & He).
    exists (en :: new). unfold nextTick_all in *.
    split; [by rewrite !fmap_cons, Hen, Hnew|].
    simpl. rewrite Hw, Hh, He. split; [|done].
    apply (pushes_trans [en] new _ _ _ H1 H2).
Qed.

Lemma run_entry_spec en s :
  ∃ x new,
    ex_tag x = cb_tag <$> en_cb en ∧ ex_ctx x = en_ctx en ∧
    executed (run_entry en s) = executed s ++ [x] ∧
    handled (run_entry en s) = handled s ++ reports_of [x] ∧
    pushes new s (run_entry en s).
Proof.
  unfold run_entry. destruct (en_cb en) as [c|] eqn:Hc.
  - destruct (cb_body c (world s)) as [[calls w] thrown] eqn:Hb.
    destruct (nextTick_all_spec calls (set_world w s))
      as (new & _ & Hp & _ & Hh & He).
    exists (Execution (Some (cb_tag c)) (en_ctx en) thrown), new.
    destruct thrown as [e|]; simpl; rewrite ?Hh, ?He, ?app_nil_r;
      split_and!; try done; apply Hp.
  - exists (Execution None (en_ctx en) None), [].
    destruct (en_resolve en); simpl; rewrite ?app_nil_r;
      split_and!; try done; apply (pushes_refl s).
Qed.

Lemma reports_of_app xs ys : reports_of (xs ++ ys) = reports_of xs ++ reports_of ys.
Proof. apply omap_app. Qed.

Lemma run_copies_spec copies s :
  ∃ xs new,
    ex_tag <$> xs = (λ en, cb_tag <$> en_cb en) <$> copies ∧
    ex_ctx <$> xs = en_ctx <$> copies ∧
    executed (run_copies copies s) = executed s ++ xs ∧
    handled (run_copies copies s) = handled s ++ reports_of xs ∧
    pushes new s (run_copies copies s).
Proof.
  revert s. induction copies as [|en copies IH]; intros s.
  - exists [], []. simpl. rewrite !app_nil_r. split_and!; try done.
    apply pushes_refl.
  - destruct (run_entry_spec en s) as (x & new1 & Htag & Hctx & He & Hh & Hp).
    destruct (IH (run_entry en s)) as (xs & new2 & Htags & Hctxs & He' & Hh' & Hp').
    exists (x :: xs), (new1 ++ new2). unfold run_copies in *.
    split; [by rewrite !fmap_cons, Htag, Htags|].
    split; [by rewrite !fmap_cons, Hctx, Hctxs|].
    change (x :: xs) with ([x] ++ xs). rewrite reports_of_app.
    cbn [foldl]. rewrite He', Hh', He, Hh, <- !app_assoc.
    split_and!; try done. apply (pushes_trans _ _ _ _ _ Hp Hp').
Qed.

(** *** The closures of a flush, one after the other *)

(** [ran_in_order copies w xs calls w']: running the closures [copies] in
    order, the first on the world [w] and each next one on the world the
    previous one left, ends with the world [w'].  A closure with a callback
    calls it on the world of that moment: [xs] records, for each closure,
    the callback run, its context and what it threw, and [calls] are the
    [nextTick] calls made by the callbacks, in the order they were made. *)
Inductive ran_in_order :
  list entry → World → list execution → list (option callback * nat) → World → Prop :=
| ran_nil w : ran_in_order [] w [] [] w
| ran_callback en c copies w calls w1 thrown xs calls' w2 :
    en_cb en = Some c →
    cb_body c w = (calls, w1, thrown) →
    ran_in_order copies w1 xs calls' w2 →
    ran_in_order (en :: copies) w
      (Execution (Some (cb_tag c)) (en_ctx en) thrown :: xs) (calls ++ calls') w2
| ran_promise en copies w xs calls' w2 :
    en_cb en = None →
    ran_in_order copies w xs calls' w2 →
    ran_in_order (en :: copies) w (Execution None (en_ctx en) None :: xs) calls' w2.

Lemma nextTick_all_calls calls s :
  ∃ new,
    (λ en, (en_cb en, en_ctx en)) <$> new = calls ∧
    pushes new s (nextTick_all calls s) ∧
    world (nextTick_all calls s) = world s ∧
    handled (nextTick_all calls s) = handled s ∧
    executed (nextTick_all calls s) = executed s.
Proof.
  revert s. induction calls as [|[cb ctx] calls IH]; intros s.
  - exists []. split; [done|]. split; [apply pushes_refl|done].
  - destruct (nextTick_pushes cb ctx s) as (en & Hen & Hctx & H1).
    destruct (IH (nextTick cb ctx s)) as (new & Hnew & H2 & Hw & Hh & He).
    exists (en :: new). unfold nextTick_all in *.
    split; [by rewrite fmap_cons, Hen, Hctx, Hnew|].
    simpl. rewrite Hw, Hh, He. split; [|done].
    apply (pushes_trans [en] new _ _ _ H1 H2).
Qed.

Lemma run_copies_in_order copies s :
  ∃ xs calls new,
    ran_in_order copies (world s) xs calls (world (run_copies copies s)) ∧
    (λ en, (en_cb en, en_ctx en)) <$> new = calls ∧
    executed (run_copies copies s) = executed s ++ xs ∧
    handled (run_copies copies s) = handled s ++ reports_of xs ∧
    pushes new s (run_copies copies s).
Proof.
  revert s. induction copies as [|en copies IH]; intros s.
  { exists [], [], []. simpl. rewrite !app_nil_r. split_and!; try done.
    - constructor.
    - apply pushes_refl. }
  assert (∃ x cs new1,
    (∀ xs calls' w2,
       ran_in_order copies (world (run_entry en s)) xs calls' w2 →
       ran_in_order (en :: copies) (world s) (x :: xs) (cs ++ calls') w2) ∧
    (λ en, (en_cb en, en_ctx en)) <$> new1 = cs ∧
    executed (run_entry en s) = executed s ++ [x] ∧
    handled (run_entry en s) = handled s ++ reports_of [x] ∧
    pushes new1 s (run_entry en s)) as (x & cs & new1 & Hstep & Hcs & He & Hh & Hp).
  { unfold run_entry. destruct (en_cb en) as [c|] eqn:Hc.
    - destruct (cb_body c (world s)) as [[calls w] thrown] eqn:Hb.
      destruct (nextTick_all_calls calls (set_world w s))
        as (new1 & Hnew & Hp & Hw & Hh & He).
      exists (Execution (Some (cb_tag c)) (en_ctx en) thrown), calls, new1.
      assert (world (nextTick_all calls (set_world w s)) = w) as Hw' by by rewrite Hw.
      destruct thrown as [e|]; simpl; rewrite ?Hh, ?He, ?Hw', ?app_nil_r;
        (split; [intros xs calls' w2 Hrest; by eapply ran_callback|]);
        split_and!; try done; apply Hp.
    - exists (Execution None (en_ctx en) None), [], [].
      destruct (en_resolve en); simpl; rewrite ?app_nil_r;
        (split; [intros xs calls' w2 Hrest; by eapply ran_promise|]);
        split_and!; try done; apply (pushes_refl s). }
  destruct (IH (run_entry en s))
    as (xs & calls' & new2 & Hran & Hcalls & He' & Hh' & Hp').
  exists (x :: xs), (cs ++ calls'), (new1 ++ new2). unfold run_copies in *.
  cbn [foldl]. split_and!.
  - by apply Hstep.
  - by rewrite fmap_app, Hcs, Hcalls.
  - by rewrite He', He, <- app_assoc.
  - change (x :: xs) with ([x] ++ xs).
    by rewrite reports_of_app, Hh', Hh, <- app_assoc.
  - apply (pushes_trans _ _ _ _ _ Hp Hp').
Qed.

(** C9.  A flush of the deferred callback list empties the list before it
    runs anything and then runs exactly the closures that were pending, in
    registration order, each callback on the world the previous one left,
    whether or not some of them throw; each error a callback throws reaches
    [handleError] with the context of its closure and the info "nextTick",
    and the closures after it still run.  The [nextTick] calls made by the
    callbacks while the flush runs are what the list holds afterwards, in
    the order they were made: they are not run by this flush, and they
    requested exactly one further flush through [timerFunc]. *)
Theorem flushCallbacks_spec (s : state) :
  let s' := flushCallbacks s in
  ∃ xs calls,
    ran_in_order (callbacks s) (world s) xs calls (world s') ∧
    ex_tag <$> xs = (λ en, cb_tag <$> en_cb en) <$> callbacks s ∧
    ex_ctx <$> xs = en_ctx <$> callbacks s ∧
    executed s' = executed s ++ xs ∧
    handled s' = handled s ++ reports_of xs ∧
    (λ en, (en_cb en, en_ctx en)) <$> callbacks s' = calls ∧
    registered s' = registered s ++ callbacks s' ∧
    pending s' = nonempty (callbacks s') ∧
    timer_calls s' =
      (if pending s' then S (timer_calls s) else timer_calls s).
Proof.
  unfold flushCallbacks.
  set (s1 := State [] false (timer_calls s) (has_promise s) (world s)
                   (handled s) (resolved s) (registered s) (executed s)).
  destruct (run_copies_in_order (callbacks s) s1)
    as (xs & calls & new & Hran & Hcalls & He & Hh & Hcb & Hreg & Hp & Ht & _).
  destruct (run_copies_spec (callbacks s) s1)
    as (xs' & _ & Htags & Hctxs & He' & _).
  assert (xs' = xs) as ->.
  { rewrite He in He'. by apply app_inv_head in He'. }
  exists xs, calls. cbn [callbacks registered pending timer_calls world] in *.
  change (executed s1) with (executed s) in He.
  change (handled s1) with (handled s) in Hh.
  rewrite Hcb, Hp, Ht. simpl. split_and!; try done.
Qed.

(** ** Registration and the life of a closure *)

Lemma nextTick_all_snoc calls c s :
  nextTick_all (calls ++ [c]) s = nextTick c.1 c.2 (nextTick_all calls s).
Proof. unfold nextTick_all. by rewrite foldl_app. Qed.

(** X1.  Registering callbacks runs none of them and appends one closure per
    call, in call order, each with the callback and context it was given;
    [timerFunc] is called once if no flush was pending and at least one
    callback was registered, and not at all otherwise. *)
Theorem nextTick_requests_one_flush (calls : list (option callback * nat)) (s : state) :
  let s' := nextTick_all calls s in
  ∃ new,
    callbacks s' = callbacks s ++ new ∧
    (λ en, (en_cb en, en_ctx en)) <$> new = calls ∧
    pending s' = pending s || nonempty calls ∧
    timer_calls s' =
      (if negb (pending s) && nonempty calls then S (timer_calls s)
       else timer_calls s) ∧
    executed s' = executed s ∧ handled s' = handled s ∧ world s' = world s.
Proof.
  induction calls as [|[cb ctx] calls IH] using rev_ind; simpl.
  - exists []. rewrite app_nil_r, orb_false_r, andb_false_r. done.
  - destruct IH as (new & Hc & Hl & Hp & Ht & He & Hh & Hw).
    rewrite nextTick_all_snoc. simpl.
    exists (new ++ [Entry cb ctx (bool_decide (cb = None) &&
                                  has_promise (nextTick_all calls s))]).
    rewrite Hc, Hp, Ht, He, Hh, Hw, fmap_app, Hl, nonempty_app, app_assoc.
    simpl. rewrite !orb_true_r, andb_true_r. split_and!; try done.
    by destruct (pending s), (nonempty calls).
Qed.

(** The promises a list of pushed closures resolves when run: a closure
    pushed without callback resolves the promise [nextTick] returned, if
    there is one. *)
Definition resolutions (l : list entry) : list nat :=
  omap (λ en, match en_cb en with
              | None => if en_resolve en then Some (en_ctx en) else None
              | Some _ => None
              end) l.

Lemma nextTick_all_resolved calls s :
  resolved (nextTick_all calls s) = resolved s ∧
  has_promise (nextTick_all calls s) = has_promise s.
Proof.
  induction calls as [|c calls IH] using rev_ind; [done|].
  by rewrite nextTick_all_snoc.
Qed.

Lemma run_entry_resolved en s :
  resolved (run_entry en s) = resolved s ++ resolutions [en] ∧
  has_promise (run_entry en s) = has_promise s.
Proof.
  unfold run_entry, resolutions. simpl. destruct (en_cb en) as [c|].
  - destruct (cb_body c (world s)) as [[calls w] thrown].
    destruct (nextTick_all_resolved calls (set_world w s)) as [Hr Hp].
    destruct thrown; simpl; rewrite Hr, Hp, app_nil_r; done.
  - destruct (en_resolve en); simpl; by rewrite ?app_nil_r.
Qed.

(** X2.  [nextTick] called without callback pushes a closure that resolves
    the returned promise with the context, provided promises exist; a flush
    resolves exactly the promises of such closures among those it runs, in
    registration order, and where promises do not exist such a closure does
    nothing. *)
Theorem flush_resolves_promises (s : state) :
  resolved (flushCallbacks s) = resolved s ++ resolutions (callbacks s) ∧
  (∀ cb ctx s0,
     resolutions (drop (length (callbacks s0)) (callbacks (nextTick cb ctx s0))) =
       match cb with
       | None => if has_promise s0 then [ctx] else []
       | Some _ => []
       end).
Proof.
  split.
  - unfold flushCallbacks.
    assert (∀ l s1, resolved (run_copies l s1) = resolved s1 ++ resolutions l) as H.
    { induction l as [|en l IH]; intros s1; [simpl; by rewrite app_nil_r|].
      change (en :: l) with ([en] ++ l) at 2. unfold resolutions at 1.
      rewrite omap_app. fold (resolutions [en]). fold (resolutions l).
      unfold run_copies in *. cbn [foldl]. rewrite IH.
      destruct (run_entry_resolved en s1) as [-> _].
      by rewrite <- app_assoc. }
    by rewrite H.
  - intros cb ctx s0. simpl. rewrite drop_app_length.
    unfold resolutions. simpl. destruct cb; simpl; [done|].
    by destruct (has_promise s0).
Qed.

(** What identifies a pushed closure, and an execution. *)
Definition label (en : entry) : option nat * nat := (cb_tag <$> en_cb en, en_ctx en).
Definition ran_label (x : execution) : option nat * nat := (ex_tag x, ex_ctx x).

(** Every closure ever pushed has either been executed, or is still
    pending; executions happened in registration order, once each. *)
Definition exactly_once (s : state) : Prop :=
  label <$> registered s = (ran_label <$> executed s) ++ (label <$> callbacks s).

Lemma labels_eq (xs : list execution) (l : list entry) :
  ex_tag <$> xs = (λ en, cb_tag <$> en_cb en) <$> l →
  ex_ctx <$> xs = en_ctx <$> l →
  ran_label <$> xs = label <$> l.
Proof.
  revert l. induction xs as [|x xs IH]; intros [|en l]; simpl; try done.
  intros [= Ht Hts] [= Hc Hcs]. unfold ran_label at 1, label at 1.
  rewrite Ht, Hc. f_equal. by apply IH.
Qed.

(** X3.  Whatever callbacks do, registration and flushing keep the
    bookkeeping exact: the closures executed so far followed by the pending
    ones are, in order, the closures ever registered.  No closure is lost,
    none runs twice, and none overtakes an earlier one. *)
Theorem flushing_runs_each_closure_once (s : state) :
  exactly_once s →
  (∀ cb ctx, exactly_once (nextTick cb ctx s)) ∧
  exactly_once (flushCallbacks s).
Proof.
  unfold exactly_once. intros Hs. split.
  - intros cb ctx. simpl. rewrite !fmap_app, Hs, app_assoc. done.
  - unfold flushCallbacks.
    destruct (run_copies_spec (callbacks s)
      (State [] false (timer_calls s) (has_promise s) (world s)
             (handled s) (resolved s) (registered s) (executed s)))
      as (xs & new & Htags & Hctxs & He & _ & Hcb & Hreg & _).
    simpl in *. rewrite He, Hreg, Hcb, !fmap_app, Hs.
    by rewrite (labels_eq _ _ Htags Hctxs).
Qed.

End with_world.
Arguments callback : clear implicits.
Arguments entry : clear implicits.
Arguments state : clear implicits.

(** ** A concrete flush *)
Module examples.

Definition later : callback unit := Callback 4 (λ w, ([], w, None)).

(** The first callback registers [later], the second throws, the third
    returns. *)
Definition first : callback unit :=
  Callback 1 (λ w, ([(Some later, 7)], w, None)).
Definition second : callback unit := Callback 2 (λ w, ([], w, Some "oops")).
Definition third : callback unit := Callback 3 (λ w, ([], w, None)).

Definition three_pending : state unit :=
  nextTick (Some third) 9
    (nextTick (Some second) 8
       (nextTick (Some first) 7 (State [] false 0 true () [] [] [] []))).

(** All three run, in order, although the second throws; its error is
    handed to [handleError]; [later] is left pending for the next flush,
    which it requested. *)
Lemma flush_runs_all_and_defers_new :
  let s' := flushCallbacks three_pending in
  ex_tag <$> executed s' = [Some 1; Some 2; Some 3] ∧
  ex_thrown <$> executed s' = [None; Some "oops"; None] ∧
  handled s' = [Report "oops" 8 "nextTick"] ∧
  (λ en, cb_tag <$> en_cb en) <$> callbacks s' = [Some 4] ∧
  pending s' = true ∧
  timer_calls three_pending = 1 ∧
  timer_calls s' = 2.
Proof. vm_compute. by repeat split. Qed.

(** The bookkeeping is exact before, after one flush and after two. *)
Lemma flushing_runs_each_closure_once_witness :
  exactly_once three_pending ∧
  exactly_once (flushCallbacks three_pending) ∧
  exactly_once (flushCallbacks (flushCallbacks three_pending)).
Proof.
  assert (H : exactly_once three_pending) by (vm_compute; reflexivity).
  split; [exact H|].
  pose proof (proj2 (flushing_runs_each_closure_once _ H)) as H1.
  split; [exact H1|]. exact (proj2 (flushing_runs_each_closure_once _ H1)).
Defined.

End examples.
End next_tick.

(** * watcher.js *)
Module watcher.

(** ** Dependency collection *)

(** The subjects recorded by a run of [addDep] calls: first occurrences, in
    order, after those already recorded. *)
Definition collect (ds acc : list nat) : list nat :=
  foldl (λ acc d, if decide (d ∈ acc) then acc else acc ++ [d]) acc ds.

Lemma collect_snoc ds d acc :
  collect (ds ++ [d]) acc =
    if decide (d ∈ collect ds acc) then collect ds acc else collect ds acc ++ [d].
Proof. unfold collect. by rewrite foldl_app. Qed.


Lemma collect_elem ds acc d : d ∈ collect ds acc ↔ d ∈ acc ∨ d ∈ ds.
Proof.
  induction ds as [|x ds IH] using rev_ind.
  - simpl. set_solver.
  - rewrite collect_snoc. case_decide; set_solver.
Qed.

Lemma collect_NoDup ds acc : NoDup acc → NoDup (collect ds acc).
Proof.
  intros Hacc. induction ds as [|x ds IH] using rev_ind; [done|].
  rewrite collect_snoc. case_decide; [done|].
  apply NoDup_app. split_and!; [done| |apply NoDup_singleton].
  intros y Hy ->%list_elem_of_singleton. done.
Qed.

Lemma collect_extends ds acc : ∃ new, collect ds acc = acc ++ new.
Proof.
  induction ds as [|x ds [new IH]] using rev_ind.
  - exists []. by rewrite app_nil_r.
  - rewrite collect_snoc, IH. case_decide; [by exists new|].
    exists (new ++ [x]). by rewrite app_assoc.
Qed.

Section with_scheduler.
Context {World Sched : Type}.

(** [import { queueWatcher } from './scheduler'] *)
Variable queueWatcher : nat → Sched → Sched.

(** Modelled from the spec: [traverse] (src/core/observer/traverse.js)
    recursively touches every reachable nested field of a container.
    [reachable_subjects w a] lists the subjects of the fields reachable from
    the object at [a], in the order their [depend()] fires. *)
Variable reachable_subjects : World → nat → list nat.

(** Modelled from the spec: [parsePath] (src/core/util/lang.js) resolves a
    dotted path of simple chained lookups against the owner; for any other
    string it returns nothing. *)
Variable parsePath : string → option (World → effects World jsvalue).

(** Ghost record of the calls made on dependency subjects. *)
Inductive sub_call := AddSub (dep sub : nat) | RemoveSub (dep sub : nat).

Record Watcher := mkWatcher {
  vm : nat;
  id : nat;
  deep : bool;
  user : bool;
  lazy : bool;
  sync : bool;
  before : option (World → effects World unit);
  cb : jsvalue → jsvalue → World → effects World unit;
  getter : World → effects World jsvalue;
  active : bool;
  dirty : bool;
  deps : list nat;
  newDeps : list nat;
  depIds : gset nat;
  newDepIds : gset nat;
  value : jsvalue
}.

Record state := State {
  world : World;
  sched : Sched;
  (** [Dep.subs] of every subject, by subject id *)
  subs : gmap nat (list nat);
  (** [targetStack]; [Dep.target] is its last element *)
  targetStack : list nat;
  sub_calls : list sub_call;
  handled : list report;
  warnings : list string;
  uid : nat;
  (** [process.env.NODE_ENV === 'production'] *)
  production : bool;
  vms : gmap nat component
}.

Definition set_world (w : World) (st : state) : state :=
  State w (sched st) (subs st) (targetStack st) (sub_calls st) (handled st)
        (warnings st) (uid st) (production st) (vms st).
Definition set_sched (sc : Sched) (st : state) : state :=
  State (world st) sc (subs st) (targetStack st) (sub_calls st) (handled st)
        (warnings st) (uid st) (production st) (vms st).
Definition set_subs (m : gmap nat (list nat)) (c : sub_call) (st : state) : state :=
  State (world st) (sched st) m (targetStack st) (sub_calls st ++ [c]) (handled st)
        (warnings st) (uid st) (production st) (vms st).
Definition set_targetStack (ts : list nat) (st : state) : state :=
  State (world st) (sched st) (subs st) ts (sub_calls st) (handled st)
        (warnings st) (uid st) (production st) (vms st).
Definition set_uid (n : nat) (st : state) : state :=
  State (world st) (sched st) (subs st) (targetStack st) (sub_calls st) (handled st)
        (warnings st) n (production st) (vms st).
Definition set_vms (m : gmap nat component) (st : state) : state :=
  State (world st) (sched st) (subs st) (targetStack st) (sub_calls st) (handled st)
        (warnings st) (uid st) (production st) m.

(** Modelled from the spec: [handleError] (src/core/util/error.js), the
    error-reporting sink taking (error, contextual-owner,
    phase-description). *)
Definition handleError (e : error) (owner : nat) (info : string) (st : state) : state :=
  State (world st) (sched st) (subs st) (targetStack st) (sub_calls st)
        (handled st ++ [Report e owner info])
        (warnings st) (uid st) (production st) (vms st).

(** Modelled from the spec: [warn] (src/core/util/debug.js) reports a
    development-mode warning. *)
Definition warn (msg : string) (st : state) : state :=
  State (world st) (sched st) (subs st) (targetStack st) (sub_calls st) (handled st)
        (warnings st ++ [msg]) (uid st) (production st) (vms st).

(** ** The dependency subject (dep.js) *)

Definition subs_of (d : nat) (st : state) : list nat := default [] (subs st !! d).

(** Modelled from the spec: [Dep.addSub] (src/core/observer/dep.js) appends
    the subscriber if it is not already present. *)
Definition addSub (d sub : nat) (st : state) : state :=
  let l := subs_of d st in
  set_subs (<[d := if decide (sub ∈ l) then l else l ++ [sub]]> (subs st))
           (AddSub d sub) st.

(** Modelled from the spec: [Dep.removeSub] (src/core/observer/dep.js)
    removes the subscriber if present. *)
Definition removeSub (d sub : nat) (st : state) : state :=
  set_subs (<[d := filter (λ x, x ≠ sub) (subs_of d st)]> (subs st))
           (RemoveSub d sub) st.

(** Modelled from the spec: [pushTarget] and [popTarget]
    (src/core/observer/dep.js) maintain the stack of active subscribers. *)
Definition pushTarget (t : nat) (st : state) : state :=
  set_targetStack (targetStack st ++ [t]) st.
Definition popTarget (st : state) : state :=
  set_targetStack (removelast (targetStack st)) st.
Definition Dep_target (st : state) : option nat := last (targetStack st).

(** ** Watcher methods *)

Definition set_collecting (nd : list nat) (ni : gset nat) (w : Watcher) : Watcher :=
  mkWatcher (vm w) (id w) (deep w) (user w) (lazy w) (sync w) (before w) (cb w)
            (getter w) (active w) (dirty w) (deps w) nd (depIds w) ni (value w).
Definition set_generation (d nd : list nat) (i ni : gset nat) (w : Watcher) : Watcher :=
  mkWatcher (vm w) (id w) (deep w) (user w) (lazy w) (sync w) (before w) (cb w)
            (getter w) (active w) (dirty w) d nd i ni (value w).
Definition set_value (v : jsvalue) (w : Watcher) : Watcher :=
  mkWatcher (vm w) (id w) (deep w) (user w) (lazy w) (sync w) (before w) (cb w)
            (getter w) (active w) (dirty w) (deps w) (newDeps w) (depIds w)
            (newDepIds w) v.
Definition set_dirty (b : bool) (w : Watcher) : Watcher :=
  mkWatcher (vm w) (id w) (deep w) (user w) (lazy w) (sync w) (before w) (cb w)
            (getter w) (active w) b (deps w) (newDeps w) (depIds w)
            (newDepIds w) (value w).
Definition set_active (b : bool) (w : Watcher) : Watcher :=
  mkWatcher (vm w) (id w) (deep w) (user w) (lazy w) (sync w) (before w) (cb w)
            (getter w) b (dirty w) (deps w) (newDeps w) (depIds w)
            (newDepIds w) (value w).

(** [addDep(dep)] *)
Definition addDep (d : nat) (w : Watcher) (st : state) : Watcher * state :=
  if decide (d ∈ newDepIds w) then (w, st)
  else
    (set_collecting (newDeps w ++ [d]) ({[d]} ∪ newDepIds w) w,
     if decide (d ∈ depIds w) then st else addSub d (id w) st).

(** Modelled from the spec: [Dep.depend] (src/core/observer/dep.js) hands
    the subject to the active subscriber.  Seen from watcher [w]: the call
    reaches [w.addDep] when [w] is the active subscriber; a call made while
    another subscriber is active belongs to that one. *)
Definition depend (d : nat) (w : Watcher) (st : state) : Watcher * state :=
  if decide (Dep_target st = Some (id w)) then addDep d w st else (w, st).

Definition depend_all (ds : list nat) (w : Watcher) (st : state) : Watcher * state :=
  foldl (λ p d, depend d p.1 p.2) (w, st) ds.

(** [cleanupDeps()] *)
Definition cleanupDeps (w : Watcher) (st : state) : Watcher * state :=
  let st' :=
    foldl (λ st d, if decide (d ∈ newDepIds w) then st else removeSub d (id w) st)
          st (reverse (deps w)) in
  (set_generation (newDeps w) [] (newDepIds w) ∅ w, st').

(** The runtime side of a call into user code made on behalf of [w]. *)
Definition apply_effects {A} (eff : effects World A) (w : Watcher) (st : state)
  : Watcher * state :=
  let '(w1, st1) := depend_all (touched eff) w (set_world (after eff) st) in
  (w1, set_sched (foldl (λ sc q, queueWatcher q sc) (sched st1) (queued eff)) st1).

Definition traverse (v : jsvalue) (w : Watcher) (st : state) : Watcher * state :=
  match v with
  | VObject a => depend_all (reachable_subjects (world st) a) w st
  | _ => (w, st)
  end.

(** The watcher class never assigns [this.expression]. *)
Definition getter_info : string :=
  "getter for watcher " +:+ dquote +:+ "undefined" +:+ dquote.
Definition callback_info : string :=
  "callback for watcher " +:+ dquote +:+ "undefined" +:+ dquote.

(** The [finally] block of [get()]; [v] is the local [value]. *)
Definition get_finally (v : jsvalue) (w : Watcher) (st : state) : Watcher * state :=
  let '(w1, st1) := if deep w then traverse v w st else (w, st) in
  cleanupDeps w1 (popTarget st1).

(** [get()] *)
Definition get (w : Watcher) (st : state) : completion jsvalue * Watcher * state :=
  let st0 := pushTarget (id w) st in
  let eff := getter w (world st0) in
  let '(w1, st1) := apply_effects eff w st0 in
  match outcome eff with
  | Normal v =>
      let '(w2, st2) := get_finally v w1 st1 in (Normal v, w2, st2)
  | Throw e =>
      if user w1 then
        let '(w2, st2) :=
          get_finally VUndefined w1 (handleError e (vm w1) getter_info st1) in
        (Normal VUndefined, w2, st2)
      else
        let '(w2, st2) := get_finally VUndefined w1 st1 in (Throw e, w2, st2)
  end.

(** Modelled from the spec: [invokeWithErrorHandling]
    (src/core/util/error.js) calls the handler and funnels what it throws
    to the error sink. *)
Definition invokeWithErrorHandling {A} (eff : effects World A) (w : Watcher)
    (info : string) (st : state) : Watcher * state :=
  let '(w1, st1) := apply_effects eff w st in
  match outcome eff with
  | Normal _ => (w1, st1)
  | Throw e => (w1, handleError e (vm w1) info st1)
  end.

(** [run()] *)
Definition run (w : Watcher) (st : state) : completion unit * Watcher * state :=
  if active w then
    let '(r, w1, st1) := get w st in
    match r with
    | Throw e => (Throw e, w1, st1)
    | Normal v =>
        if negb (strict_equal v (value w1)) || isObject v || deep w1 then
          let oldValue := value w1 in
          let w2 := set_value v w1 in
          let eff := cb w2 v oldValue (world st1) in
          if user w2 then
            let '(w3, st3) := invokeWithErrorHandling eff w2 callback_info st1 in
            (Normal (), w3, st3)
          else
            let '(w3, st3) := apply_effects eff w2 st1 in
            match outcome eff with
            | Normal _ => (Normal (), w3, st3)
            | Throw e => (Throw e, w3, st3)
            end
        else (Normal (), w1, st1)
    end
  else (Normal (), w, st).

(** [evaluate()] *)
Definition evaluate (w : Watcher) (st : state) : completion unit * Watcher * state :=
  let '(r, w1, st1) := get w st in
  match r with
  | Throw e => (Throw e, w1, st1)
  | Normal v => (Normal (), set_dirty false (set_value v w1), st1)
  end.

(** [update()]; the synchronous case runs the watcher at once. *)
Definition update (w : Watcher) (st : state) : completion unit * Watcher * state :=
  if lazy w then (Normal (), set_dirty true w, st)
  else if sync w then run w st
  else (Normal (), w, set_sched (queueWatcher (id w) (sched st)) st).

(** Modelled from the spec: [remove(arr, item)] (src/shared/util.js, not
    among the sources) takes the item out of the array: its first
    occurrence is spliced out. *)
Fixpoint remove (x : nat) (l : list nat) : list nat :=
  match l with
  | [] => []
  | y :: l => if decide (y = x) then l else y :: remove x l
  end.

(** [depend()] of the watcher [w], seen from the watcher [t] that may be the
    active subscriber: every subject of [w], from the last to the first,
    has its [depend()] called. *)
Definition Watcher_depend (w t : Watcher) (st : state) : Watcher * state :=
  depend_all (reverse (deps w)) t st.

(** [teardown()] *)
Definition teardown (w : Watcher) (st : state) : Watcher * state :=
  if active w then
    let st1 :=
      match vms st !! vm w with
      | Some c =>
          if _isBeingDestroyed c then st
          else set_vms (<[vm w :=
                 Component (_watcher c) (remove (id w) (_watchers c))
                   (_isMounted c) (_isDestroyed c) (_isBeingDestroyed c)
                   (_inactive c)]> (vms st)) st
      | None => st
      end in
    let st2 := foldl (λ st d, removeSub d (id w) st) st1 (reverse (deps w)) in
    (set_active false w, st2)
  else (w, st).

(** ** The constructor *)

Inductive expOrFn := Fn (f : World → effects World jsvalue) | Path (path : string).

Record options := Options {
  o_deep : bool; o_user : bool; o_lazy : bool; o_sync : bool;
  o_before : option (World → effects World unit)
}.

(** [noop] (shared/util.js) *)
Definition noop (w : World) : effects World jsvalue :=
  Effects [] [] w (Normal VUndefined).

Definition path_warning (path : string) : string :=
  "Failed watching path: " +:+ dquote +:+ path +:+ dquote +:+
  " Watcher only accepts simple dot-delimited paths. " +:+
  "For full control, use a function instead.".

(** [new Watcher(vm, expOrFn, cb, options, isRenderWatcher)] *)
Definition constructor (vm : nat) (e : expOrFn)
    (cb : jsvalue → jsvalue → World → effects World unit)
    (opts : option options) (isRenderWatcher : bool) (st : state)
  : completion unit * Watcher * state :=
  let this_id := S (uid st) in
  let st1 :=
    set_vms (alter (λ c,
      Component (if isRenderWatcher then Some this_id else _watcher c)
                (_watchers c ++ [this_id]) (_isMounted c) (_isDestroyed c)
                (_isBeingDestroyed c) (_inactive c)) vm (vms st)) st in
  let o := default (Options false false false false None) opts in
  let st2 := set_uid this_id st1 in
  let '(g, st3) :=
    match e with
    | Fn f => (f, st2)
    | Path p =>
        match parsePath p with
        | Some f => (f, st2)
        | None => (noop, if production st2 then st2 else warn (path_warning p) st2)
        end
    end in
  let w := mkWatcher vm this_id (o_deep o) (o_user o) (o_lazy o) (o_sync o)
             (o_before o) cb g true (o_lazy o) [] [] ∅ ∅ VUndefined in
  if lazy w then (Normal (), w, st3)
  else
    let '(r, w1, st4) := get w st3 in
    match r with
    | Normal v => (Normal (), set_value v w1, st4)
    | Throw e => (Throw e, w1, st4)
    end.

(** The state with other subscriber lists and call log. *)
Definition with_subs (m : gmap nat (list nat)) (cs : list sub_call) (st : state) : state :=
  State (world st) (sched st) m (targetStack st) cs (handled st)
        (warnings st) (uid st) (production st) (vms st).

Lemma with_subs_id st : with_subs (subs st) (sub_calls st) st = st.
Proof. by destruct st. Qed.

Lemma addSub_elem d sub st d' :
  sub ∈ subs_of d' (addSub d sub st) ↔ d' = d ∨ sub ∈ subs_of d' st.
Proof.
  unfold addSub, subs_of at 1. simpl.
  destruct (decide (d = d')) as [->|Hne].
  - rewrite lookup_insert_eq. simpl. case_decide; set_solver.
  - rewrite lookup_insert_ne by done. fold (subs_of d' st). naive_solver.
Qed.

Lemma removeSub_elem d sub st d' :
  sub ∈ subs_of d' (removeSub d sub st) ↔ d' ≠ d ∧ sub ∈ subs_of d' st.
Proof.
  unfold removeSub, subs_of at 1. simpl.
  destruct (decide (d = d')) as [->|Hne].
  - rewrite lookup_insert_eq. simpl. rewrite list_elem_of_filter. naive_solver.
  - rewrite lookup_insert_ne by done. fold (subs_of d' st). naive_solver.
Qed.

Lemma set_collecting_id w :
  newDepIds w = list_to_set (newDeps w) →
  set_collecting (newDeps w) (list_to_set (newDeps w)) w = w.
Proof. destruct w; simpl; intros ->; done. Qed.

Lemma depend_all_snoc ds d w st :
  depend_all (ds ++ [d]) w st =
    depend d (depend_all ds w st).1 (depend_all ds w st).2.
Proof. unfold depend_all. by rewrite foldl_app. Qed.

(** The [AddSub] calls made while recording [c] after [nd]. *)
Definition add_calls (w : Watcher) (nd c : list nat) : list sub_call :=
  (λ d, AddSub d (id w)) <$> filter (λ d, d ∉ depIds w) (drop (length nd) c).

Lemma depend_all_spec ds w st :
  Dep_target st = Some (id w) →
  newDepIds w = list_to_set (newDeps w) →
  ∃ m, depend_all ds w st =
         (set_collecting (collect ds (newDeps w))
                         (list_to_set (collect ds (newDeps w))) w,
          with_subs m (sub_calls st ++ add_calls w (newDeps w) (collect ds (newDeps w))) st)
       ∧ ∀ d, id w ∈ default [] (m !! d) ↔
              id w ∈ subs_of d st ∨
              (d ∈ collect ds (newDeps w) ∧ (d ∉ newDeps w) ∧ d ∉ depIds w).
Proof.
  intros Ht Hids. induction ds as [|d ds IH] using rev_ind.
  - exists (subs st). unfold add_calls. simpl.
    rewrite drop_all, app_nil_r, with_subs_id, set_collecting_id by done.
    split; [done|]. intros d. unfold subs_of. naive_solver.
  - destruct IH as (m & Heq & Hm).
    rewrite depend_all_snoc, Heq, collect_snoc. simpl.
    set (c := collect ds (newDeps w)) in *.
    destruct (collect_extends ds (newDeps w)) as [new Hnew]. fold c in Hnew.
    unfold depend. simpl. fold (Dep_target st).
    rewrite decide_True by done.
    unfold addDep. simpl.
    destruct (decide (d ∈ c)) as [Hin|Hnin].
    + rewrite decide_True by (by apply elem_of_list_to_set).
      exists m. done.
    + rewrite decide_False by (by rewrite elem_of_list_to_set).
      assert (list_to_set (c ++ [d]) =@{gset nat} {[d]} ∪ list_to_set c) as ->.
      { rewrite list_to_set_app_L. simpl. set_solver. }
      assert (add_calls w (newDeps w) (c ++ [d]) =
              add_calls w (newDeps w) c ++
              (if decide (d ∈ depIds w) then [] else [AddSub d (id w)])) as Hcalls.
      { unfold add_calls. rewrite Hnew, <- app_assoc, !drop_app_length.
        rewrite filter_app, fmap_app. f_equal.
        rewrite filter_cons, filter_nil. by repeat case_decide. }
      destruct (decide (d ∈ depIds w)) as [Hold|Hold].
      * exists m. rewrite Hcalls, app_nil_r. split; [done|].
        intros d'. rewrite Hm. set_solver.
      * eexists. split.
        { unfold addSub, set_subs, with_subs. simpl.
          rewrite Hcalls, <- app_assoc. reflexivity. }
        intros d'. unfold subs_of. simpl.
        destruct (decide (d = d')) as [->|Hne].
        -- rewrite lookup_insert_eq. simpl.
           assert (d' ∉ newDeps w) by (rewrite Hnew in Hnin; set_solver).
           case_decide; set_solver.
        -- rewrite lookup_insert_ne by done. rewrite Hm. set_solver.
Qed.

(** The [RemoveSub] calls made by [cleanupDeps]. *)
Definition remove_calls (w : Watcher) : list sub_call :=
  (λ d, RemoveSub d (id w)) <$> filter (λ d, d ∉ newDepIds w) (reverse (deps w)).

Lemma cleanupDeps_spec w st :
  ∃ m, cleanupDeps w st =
         (set_generation (newDeps w) [] (newDepIds w) ∅ w,
          with_subs m (sub_calls st ++ remove_calls w) st)
       ∧ ∀ d, id w ∈ default [] (m !! d) ↔
              id w ∈ subs_of d st ∧ ¬ (d ∈ deps w ∧ d ∉ newDepIds w).
Proof.
  unfold cleanupDeps, remove_calls.
  assert (∀ l, ∃ m,
    foldl (λ st d, if decide (d ∈ newDepIds w) then st else removeSub d (id w) st) st l =
      with_subs m (sub_calls st ++
        ((λ d, RemoveSub d (id w)) <$> filter (λ d, d ∉ newDepIds w) l)) st
    ∧ ∀ d, id w ∈ default [] (m !! d) ↔
           id w ∈ subs_of d st ∧ ¬ (d ∈ l ∧ d ∉ newDepIds w)) as Hfold.
  { induction l as [|x l IH] using rev_ind.
    - exists (subs st). simpl. rewrite app_nil_r, with_subs_id.
      split; [done|]. intros d. unfold subs_of. set_solver.
    - destruct IH as (m & Heq & Hm). rewrite foldl_app, Heq. simpl.
      rewrite filter_app, fmap_app, filter_cons, filter_nil.
      destruct (decide (x ∈ newDepIds w)) as [Hin|Hnin].
      + rewrite decide_False by (intros ?; done). simpl. rewrite app_nil_r.
        exists m. split; [done|]. intros d. rewrite Hm. set_solver.
      + rewrite decide_True by done. eexists. split.
        { unfold removeSub, set_subs, with_subs. simpl.
          rewrite <- app_assoc. reflexivity. }
        intros d. unfold subs_of. simpl.
        destruct (decide (x = d)) as [->|Hne].
        * rewrite lookup_insert_eq. simpl. rewrite list_elem_of_filter. set_solver.
        * rewrite lookup_insert_ne by done. rewrite Hm. set_solver. }
  destruct (Hfold (reverse (deps w))) as (m & -> & Hm).
  exists m. split; [done|]. intros d. rewrite Hm, elem_of_reverse. done.
Qed.

(** The subjects touched by [traverse] in the [finally] block of [get]. *)
Definition deep_subjects (w : Watcher) (v : jsvalue) (wd : World) : list nat :=
  if deep w then
    match v with VObject a => reachable_subjects wd a | _ => [] end
  else [].

Lemma traverse_depend_all w v st :
  (if deep w then traverse v w st else (w, st)) =
    depend_all (deep_subjects w v (world st)) w st.
Proof. unfold deep_subjects, traverse. destruct (deep w), v; done. Qed.





(** ** What an evaluation leaves alone *)

(** The watcher without its dependency lists and value: what no method
    modelled here changes except [teardown] and the dirty flag. *)
Definition config (w : Watcher) : Watcher :=
  set_generation [] [] ∅ ∅ (set_value VUndefined w).

Lemma config_user w w' : config w' = config w → user w' = user w.
Proof. intros H. apply (f_equal user) in H. done. Qed.
Lemma config_id w w' : config w' = config w → id w' = id w.
Proof. intros H. apply (f_equal id) in H. done. Qed.
Lemma config_before w w' : config w' = config w → before w' = before w.
Proof. intros H. apply (f_equal before) in H. done. Qed.
Lemma config_getter w w' : config w' = config w → getter w' = getter w.
Proof. intros H. apply (f_equal getter) in H. done. Qed.
Lemma config_cb w w' : config w' = config w → cb w' = cb w.
Proof. intros H. apply (f_equal cb) in H. done. Qed.

(** [st'] differs from [st] at most in the subscriber lists and their
    call log. *)
Definition only_subs (st st' : state) : Prop :=
  ∃ m cs, st' = with_subs m cs st.

Lemma only_subs_refl st : only_subs st st.
Proof. exists (subs st), (sub_calls st). by rewrite with_subs_id. Qed.

Lemma only_subs_trans st1 st2 st3 :
  only_subs st1 st2 → only_subs st2 st3 → only_subs st1 st3.
Proof. intros (m & cs & ->) (m' & cs' & ->). by exists m', cs'. Qed.

Lemma addDep_frame d w st :
  config (addDep d w st).1 = config w ∧ only_subs st (addDep d w st).2.
Proof.
  unfold addDep. case_decide; simpl; [split; [done|apply only_subs_refl]|].
  split; [done|]. case_decide; [apply only_subs_refl|].
  by eexists _, _.
Qed.

Lemma depend_all_frame ds w st :
  config (depend_all ds w st).1 = config w ∧ only_subs st (depend_all ds w st).2.
Proof.
  induction ds as [|d ds [IHw IHs]] using rev_ind.
  - split; [done|apply only_subs_refl].
  - rewrite depend_all_snoc. unfold depend. case_decide; [|done].
    destruct (addDep_frame d (depend_all ds w st).1 (depend_all ds w st).2)
      as [Hw Hs].
    split; [congruence|by eapply only_subs_trans].
Qed.

Lemma get_finally_frame v w st :
  config (get_finally v w st).1 = config w ∧
  only_subs (popTarget st) (get_finally v w st).2.
Proof.
  unfold get_finally. rewrite traverse_depend_all.
  destruct (depend_all_frame (deep_subjects w v (world st)) w st) as [Hw Hs].
  destruct (depend_all _ w st) as [w1 st1]. cbn [fst snd] in *.
  destruct (cleanupDeps_spec w1 (popTarget st1)) as (m & -> & _). simpl.
  split; [done|]. destruct Hs as (m' & cs' & ->). by eexists _, _.
Qed.

(** The scheduler after a call into user code: the watchers it invalidated
    were handed to [queueWatcher] in order. *)
Definition enqueue_all (qs : list nat) (sc : Sched) : Sched :=
  foldl (λ sc q, queueWatcher q sc) sc qs.

Lemma apply_effects_frame {A} (eff : effects World A) w st :
  config (apply_effects eff w st).1 = config w ∧
  only_subs (set_sched (enqueue_all (queued eff) (sched st))
               (set_world (after eff) st))
            (apply_effects eff w st).2.
Proof.
  unfold apply_effects.
  destruct (depend_all_frame (touched eff) w (set_world (after eff) st)) as [Hw Hs].
  destruct (depend_all _ w _) as [w1 st1]. simpl in *.
  split; [done|]. destruct Hs as (m & cs & ->). by eexists _, _.
Qed.

Lemma get_frame w st :
  config (get w st).1.2 = config w ∧
  sched (get w st).2 = enqueue_all (queued (getter w (world st))) (sched st) ∧
  warnings (get w st).2 = warnings st.
Proof.
  unfold get. simpl.
  destruct (apply_effects_frame (getter w (world st)) w (pushTarget (id w) st))
    as [Hw Hs].
  destruct (apply_effects _ w _) as [w1 st1]. simpl in *.
  destruct Hs as (m & cs & ->).
  destruct (outcome _) as [v|e]; [|destruct (user w1)].
  all: match goal with
       | |- context [get_finally ?v' ?w' ?s'] =>
           destruct (get_finally_frame v' w' s') as [Hw' Hs'];
           destruct (get_finally v' w' s') as [w2 st2]
       end; simpl in *.
  all: destruct Hs' as (m' & cs' & ->); simpl.
  all: split; [congruence|done].
Qed.

Lemma apply_effects_warnings {A} (eff : effects World A) w st :
  warnings (apply_effects eff w st).2 = warnings st.
Proof. by destruct (apply_effects_frame eff w st) as [_ (m & cs & ->)]. Qed.

(** A user watcher's evaluation never throws. *)
Lemma get_user w st :
  user w = true → ∃ v, (get w st).1.1 = Normal v.
Proof.
  intros Hu. unfold get. simpl.
  destruct (apply_effects_frame (getter w (world st)) w (pushTarget (id w) st))
    as [Hw _].
  destruct (apply_effects _ w _) as [w1 st1]. simpl in *.
  rewrite (config_user _ _ Hw), Hu.
  destruct (outcome _) as [v|e]; destruct (get_finally _ _ _); by eexists.
Qed.

(** [run()] leaves the configuration alone and hands to the scheduler the
    watchers invalidated by the getter, then those invalidated by the
    callback. *)
Lemma run_frame w st :
  config (run w st).1.2 = config w ∧
  (∃ qs, sched (run w st).2 = enqueue_all qs (sched st)) ∧
  warnings (run w st).2 = warnings st.
Proof.
  unfold run. destruct (active w); [|split_and!; [done|by exists []|done]].
  destruct (get_frame w st) as (Hw & Hs & Hwarn).
  destruct (get w st) as [[r w1] st1]. cbn [fst snd] in *.
  destruct r as [v|e]; [|split_and!; [done|by eexists|done]].
  destruct (_ || _); [|split_and!; [done|by eexists|done]].
  cbv zeta. unfold invokeWithErrorHandling.
  generalize (cb (set_value v w1) v (value w1) (world st1)). intros eff.
  destruct (apply_effects_frame eff (set_value v w1) st1) as [Hw' Hs'].
  destruct (apply_effects eff _ st1) as [w3 st3]. cbn [fst snd] in *.
  destruct Hs' as (m & cs & ->).
  assert (config w3 = config w) as Hc by (rewrite Hw'; exact Hw).
  assert (∀ sc qs1 qs2, enqueue_all qs2 (enqueue_all qs1 sc) =
                        enqueue_all (qs1 ++ qs2) sc) as Happ.
  { intros. unfold enqueue_all. by rewrite foldl_app. }
  destruct (user (set_value v w1)); destruct (outcome eff); cbn [fst snd].
  all: split_and!; [done| |done].
  all: simpl; rewrite Hs, Happ; by eexists.
Qed.

(** A user watcher's [run()] never throws: what its getter or its callback
    throws is handed to [handleError]. *)
Lemma run_user w st :
  user w = true → (run w st).1.1 = Normal ().
Proof.
  intros Hu. unfold run. destruct (active w); [|done].
  destruct (get_user w st Hu) as [v Hv].
  destruct (get_frame w st) as (Hw & _ & _).
  destruct (get w st) as [[r w1] st1]. cbn [fst snd] in *. subst r.
  destruct (_ || _); [|done].
  assert (user (set_value v w1) = true) as ->.
  { change (user w1 = true). rewrite (config_user _ _ Hw). done. }
  cbv zeta. destruct (invokeWithErrorHandling _ _ _ _). done.
Qed.

(** ** Watching a string that is not a path *)

Lemma get_noop (w : Watcher) (st : state) :
  getter w = noop → (get w st).1.1 = Normal VUndefined.
Proof.
  intros Hg. unfold get. rewrite Hg. simpl.
  destruct (get_finally _ _ _). done.
Qed.

(** C10.  Constructing a watcher from a string for which [parsePath]
    returns nothing completes normally: its getter is [noop], a warning is
    issued exactly outside production, its value is [undefined], and every
    later [get()] of a watcher with that getter returns [undefined]. *)
Theorem constructor_bad_path (path : string) (vm : nat)
    (cb : jsvalue → jsvalue → World → effects World unit)
    (opts : option options) (isRenderWatcher : bool) (st : state) :
  parsePath path = None →
  ∃ w st',
    constructor vm (Path path) cb opts isRenderWatcher st = (Normal (), w, st') ∧
    getter w = noop ∧
    value w = VUndefined ∧
    warnings st' =
      (if production st then warnings st else warnings st ++ [path_warning path]) ∧
    ∀ w2 st2, getter w2 = getter w → (get w2 st2).1.1 = Normal VUndefined.
Proof.
  intros Hparse. unfold constructor. rewrite Hparse. simpl.
  destruct (default _ opts) as [odeep ouser olazy osync obefore]. simpl.
  destruct olazy; simpl.
  - eexists _, _. split; [reflexivity|]. simpl. split_and!; try done.
    + by destruct (production st).
    + intros w2 st2 Hg. by apply get_noop.
  - unfold get, get_finally. simpl.
    destruct odeep; simpl; (eexists _, _; split; [reflexivity|]); simpl;
      (split_and!; try done;
       [by destruct (production st)|intros w2 st2 Hg; by apply get_noop]).
Qed.

(** ** What an evaluation does to the runtime *)

(** The runtime after [get()], subscriber lists apart: the world and the
    scheduler are as the getter left them, and the error of a user watcher
    has been handed to [handleError]. *)
Definition after_get (w : Watcher) (st : state) : state :=
  let eff := getter w (world st) in
  let st1 := set_sched (enqueue_all (queued eff) (sched st))
                       (set_world (after eff) st) in
  match outcome eff with
  | Throw e => if user w then handleError e (vm w) getter_info st1 else st1
  | Normal _ => st1
  end.

Lemma pop_frame m cs sc wd t st :
  only_subs (set_sched sc (set_world wd st))
            (popTarget (with_subs m cs (set_sched sc (set_world wd (pushTarget t st))))).
Proof.
  exists m, cs. destruct st.
  unfold popTarget, pushTarget, with_subs, set_sched, set_world, set_targetStack.
  cbn. by rewrite removelast_last.
Qed.

Lemma pop_frame_handled e o info m cs sc wd t st :
  only_subs (handleError e o info (set_sched sc (set_world wd st)))
            (popTarget (handleError e o info
               (with_subs m cs (set_sched sc (set_world wd (pushTarget t st)))))).
Proof.
  exists m, cs. destruct st.
  unfold popTarget, pushTarget, handleError, with_subs, set_sched, set_world,
    set_targetStack.
  cbn. by rewrite removelast_last.
Qed.

Lemma get_state w st : only_subs (after_get w st) (get w st).2.
Proof.
  unfold get, after_get.
  change (world (pushTarget (id w) st)) with (world st).
  generalize (getter w (world st)). intros eff.
  destruct (apply_effects_frame eff w (pushTarget (id w) st))
    as [Hw (m & cs & Hs)].
  destruct (apply_effects eff w (pushTarget (id w) st)) as [w1 st1].
  cbn [fst snd] in Hw, Hs. subst st1.
  change (sched (pushTarget (id w) st)) with (sched st).
  rewrite <- (config_user _ _ Hw).
  assert (vm w1 = vm w) as Hvm by exact (f_equal vm Hw).
  destruct (outcome eff) as [v|e]; [|destruct (user w1)].
  - match goal with
    | |- context [get_finally ?v' ?w' ?s'] =>
        pose proof (proj2 (get_finally_frame v' w' s')) as Hf;
        destruct (get_finally v' w' s') as [w2 st2]
    end.
    cbn [fst snd] in *. eapply only_subs_trans; [apply pop_frame|exact Hf].
  - match goal with
    | |- context [get_finally ?v' ?w' ?s'] =>
        pose proof (proj2 (get_finally_frame v' w' s')) as Hf;
        destruct (get_finally v' w' s') as [w2 st2]
    end.
    cbn [fst snd] in *. rewrite Hvm in Hf.
    eapply only_subs_trans; [apply pop_frame_handled|exact Hf].
  - match goal with
    | |- context [get_finally ?v' ?w' ?s'] =>
        pose proof (proj2 (get_finally_frame v' w' s')) as Hf;
        destruct (get_finally v' w' s') as [w2 st2]
    end.
    cbn [fst snd] in *. eapply only_subs_trans; [apply pop_frame|exact Hf].
Qed.

Lemma get_outcome w st :
  (get w st).1.1 =
    match outcome (getter w (world st)) with
    | Normal v => Normal v
    | Throw e => if user w then Normal VUndefined else Throw e
    end.
Proof.
  unfold get. simpl.
  destruct (apply_effects_frame (getter w (world st)) w (pushTarget (id w) st))
    as [Hw _].
  destruct (apply_effects _ w _) as [w1 st1]. simpl in *.
  rewrite <- (config_user _ _ Hw).
  destruct (outcome _) as [v|e]; [|destruct (user w1)];
    by destruct (get_finally _ _ _).
Qed.

(** X4.  [get()] leaves the stack of active subscribers as it found it,
    whether the getter returns or throws: the watcher pushed at the start
    is popped in the [finally] block, so the subscriber that was active
    before the evaluation is active again after it. *)
Theorem get_restores_target (w : Watcher) (st : state) :
  targetStack (get w st).2 = targetStack st ∧
  Dep_target (get w st).2 = Dep_target st.
Proof.
  destruct (get_state w st) as (m & cs & Heq). unfold Dep_target.
  rewrite Heq. unfold after_get.
  destruct (outcome _); [done|]. by destruct (user w).
Qed.

(** X5.  An error thrown by the getter of a user watcher does not leave
    [get()]: it is handed to [handleError] once, with the watcher's [vm] and
    an info string built from [this.expression], and [get()] returns
    [undefined].  The error of any other watcher is thrown on and reaches no
    handler.  A getter that returns reports nothing. *)
Theorem get_routes_errors (w : Watcher) (st : state) :
  match outcome (getter w (world st)) with
  | Normal v =>
      (get w st).1.1 = Normal v ∧ handled (get w st).2 = handled st
  | Throw e =>
      if user w then
        (get w st).1.1 = Normal VUndefined ∧
        handled (get w st).2 = handled st ++ [Report e (vm w) getter_info]
      else
        (get w st).1.1 = Throw e ∧ handled (get w st).2 = handled st
  end.
Proof.
  destruct (get_state w st) as (m & cs & Heq).
  rewrite get_outcome, Heq. unfold after_get.
  destruct (outcome _); [done|]. by destruct (user w).
Qed.

(** ** The cached value *)

Lemma addDep_value d w st : value (addDep d w st).1 = value w.
Proof. unfold addDep. by case_decide. Qed.

Lemma depend_all_value ds w st : value (depend_all ds w st).1 = value w.
Proof.
  induction ds as [|d ds IH] using rev_ind; [done|].
  rewrite depend_all_snoc. unfold depend. case_decide; [|done].
  by rewrite addDep_value.
Qed.

Lemma get_finally_value v w st : value (get_finally v w st).1 = value w.
Proof.
  unfold get_finally. rewrite traverse_depend_all.
  pose proof (depend_all_value (deep_subjects w v (world st)) w st) as H.
  destruct (depend_all _ w st) as [w1 st1]. unfold cleanupDeps. simpl in *.
  exact H.
Qed.

Lemma get_value w st : value (get w st).1.2 = value w.
Proof.
  unfold get. simpl. unfold apply_effects.
  pose proof (depend_all_value (touched (getter w (world st))) w
                (set_world (after (getter w (world st))) (pushTarget (id w) st))) as H.
  destruct (depend_all _ w _) as [w1 st1]. simpl in *.
  destruct (outcome _) as [v|e]; [|destruct (user w1)].
  all: match goal with
       | |- context [get_finally ?v' ?w' ?s'] =>
           pose proof (get_finally_value v' w' s') as H';
           destruct (get_finally v' w' s') as [w2 st2]
       end; simpl in *; congruence.
Qed.

Lemma apply_effects_value {A} (eff : effects World A) w st :
  value (apply_effects eff w st).1 = value w.
Proof.
  unfold apply_effects.
  pose proof (depend_all_value (touched eff) w (set_world (after eff) st)) as H.
  by destruct (depend_all _ w _).
Qed.

(** The test of [run()]: the callback is called. *)
Definition fires (w : Watcher) (v : jsvalue) : bool :=
  negb (strict_equal v (value w)) || isObject v || deep w.

(** X6.  [run()] of an active watcher whose getter returns [v]: when [v] is
    strictly equal to the cached value, is no object and the watcher is not
    deep, [run()] does what [get()] does and no more, the callback is not
    called; otherwise the value is replaced and the callback is called once
    with the new and the old value, on the world the getter left.  A getter
    that returns [NaN] makes the callback run every time, and so does one
    that returns an object. *)
Theorem run_calls_back (w : Watcher) (st : state) (v : jsvalue) :
  active w = true →
  outcome (getter w (world st)) = Normal v →
  (fires w v = false → run w st = (Normal (), (get w st).1.2, (get w st).2)) ∧
  (fires w v = true →
     value (run w st).1.2 = v ∧
     world (run w st).2 =
       after (cb w v (value w) (after (getter w (world st))))) ∧
  (is_NaN v = true ∨ isObject v = true → fires w v = true).
Proof.
  intros Ha Hv. unfold fires.
  pose proof (get_outcome w st) as Hout. rewrite Hv in Hout.
  pose proof (get_value w st) as Hval.
  destruct (get_frame w st) as (Hw & _ & _).
  destruct (get_state w st) as (m & cs & Hst).
  unfold after_get in Hst. rewrite Hv in Hst.
  unfold run. rewrite Ha.
  destruct (get w st) as [[r w1] st1]. simpl in *. subst r st1.
  rewrite Hval, (f_equal deep Hw : deep w1 = deep w).
  split_and!.
  - by intros ->.
  - intros ->. cbv zeta.
    rewrite (config_cb _ _ Hw).
    cbn [world with_subs set_sched set_world].
    set (eff := cb w v (value w) _).
    unfold invokeWithErrorHandling.
    match goal with
    | |- context [apply_effects eff ?w' ?s'] =>
        pose proof (apply_effects_frame eff w' s') as [_ (m' & cs' & Hs')];
        pose proof (apply_effects_value eff w' s') as Hv';
        destruct (apply_effects eff w' s') as [w3 st3]
    end.
    simpl in Hs', Hv'. subst st3.
    destruct (user w1), (outcome eff); simpl; done.
  - intros [Hn|Ho]; [|by rewrite Ho, orb_true_r].
    unfold strict_equal. by rewrite Hn.
Qed.

(** ** Tearing a watcher down *)

Lemma removeSub_other d sub st d' x :
  x ≠ sub → x ∈ subs_of d' (removeSub d sub st) ↔ x ∈ subs_of d' st.
Proof.
  intros Hx. unfold removeSub, subs_of at 1. simpl.
  destruct (decide (d = d')) as [->|Hne].
  - rewrite lookup_insert_eq. simpl. rewrite list_elem_of_filter. naive_solver.
  - rewrite lookup_insert_ne by done. done.
Qed.

Lemma removeSub_all l sub st :
  let st' := foldl (λ st d, removeSub d sub st) st l in
  only_subs st st' ∧
  (∀ d, sub ∈ subs_of d st' ↔ (d ∉ l) ∧ sub ∈ subs_of d st) ∧
  (∀ d x, x ≠ sub → x ∈ subs_of d st' ↔ x ∈ subs_of d st).
Proof.
  induction l as [|d0 l IH] using rev_ind; simpl.
  - split; [apply only_subs_refl|]. split; [|done].
    intros d. rewrite elem_of_nil. naive_solver.
  - rewrite foldl_app. simpl. destruct IH as (Hs & Hin & Hother). split_and!.
    + eapply only_subs_trans; [exact Hs|]. by eexists _, _.
    + intros d. rewrite removeSub_elem, Hin, elem_of_app, list_elem_of_singleton.
      naive_solver.
    + intros d x Hx. by rewrite removeSub_other, Hother.
Qed.

(** X7.  [teardown()] of an active watcher marks it inactive and takes it
    out of the subscriber list of every subject in [deps], touching no other
    subscriber and no other subject; the watcher is spliced out of
    [vm._watchers] unless the component is being destroyed.  [deps] itself is
    not cleared.  From then on [teardown()] and [run()] do nothing at all,
    yet [update()] still hands the watcher to the scheduler unless it is
    lazy or synchronous. *)
Theorem teardown_unsubscribes (w : Watcher) (st : state) :
  active w = true →
  let w' := (teardown w st).1 in
  let st' := (teardown w st).2 in
  active w' = false ∧ deps w' = deps w ∧
  (∀ d, id w ∈ subs_of d st' ↔ (d ∉ deps w) ∧ id w ∈ subs_of d st) ∧
  (∀ d x, x ≠ id w → x ∈ subs_of d st' ↔ x ∈ subs_of d st) ∧
  (∀ c, vms st !! vm w = Some c →
     _watchers <$> vms st' !! vm w =
       Some (if _isBeingDestroyed c then _watchers c
             else remove (id w) (_watchers c))) ∧
  teardown w' st' = (w', st') ∧
  run w' st' = (Normal (), w', st') ∧
  (lazy w = false → sync w = false →
     update w' st' = (Normal (), w', set_sched (queueWatcher (id w) (sched st')) st')).
Proof.
  intros Ha. unfold teardown. rewrite Ha. cbn [fst snd].
  set (st1 := match vms st !! vm w with
              | Some c => if _isBeingDestroyed c then st else _
              | None => st
              end).
  destruct (removeSub_all (reverse (deps w)) (id w) st1) as (Hs & Hin & Hother).
  assert (subs st1 = subs st) as Hsubs.
  { unfold st1. destruct (vms st !! vm w) as [c|]; [|done].
    by destruct (_isBeingDestroyed c). }
  split_and!; try done.
  - intros d. rewrite Hin, elem_of_reverse. unfold subs_of. by rewrite Hsubs.
  - intros d x Hx. rewrite Hother by done. unfold subs_of. by rewrite Hsubs.
  - intros c Hc. destruct Hs as (m & cs & ->). simpl.
    unfold st1. rewrite Hc. destruct (_isBeingDestroyed c); simpl.
    + by rewrite Hc.
    + by rewrite lookup_insert_eq.
  - intros Hl Hsy. unfold update. simpl. by rewrite Hl, Hsy.
Qed.

(** ** Lazy watchers *)

(** X8.  A watcher constructed with [lazy] does not call its getter: it is
    created dirty, without value and without subjects, and the runtime is
    untouched apart from the registration with its component; [update()]
    only marks it dirty again.  [evaluate()] of any watcher caches what
    [get()] returns and clears the dirty flag; when [get()] throws (the
    watcher is not a user watcher and its getter throws), the flag and the
    cached value stay as they were. *)
Theorem lazy_watcher_defers_evaluation (vm : nat) (f : World → effects World jsvalue)
    (cb : jsvalue → jsvalue → World → effects World unit) (o : options)
    (isRenderWatcher : bool) (st : state) :
  o_lazy o = true →
  (∃ w st',
     constructor vm (Fn f) cb (Some o) isRenderWatcher st = (Normal (), w, st') ∧
     getter w = f ∧ lazy w = true ∧ dirty w = true ∧ value w = VUndefined ∧
     deps w = [] ∧ depIds w = ∅ ∧
     world st' = world st ∧ sched st' = sched st ∧ subs st' = subs st ∧
     sub_calls st' = sub_calls st ∧ handled st' = handled st ∧
     targetStack st' = targetStack st ∧
     ∀ s, update w s = (Normal (), w, s)) ∧
  (∀ w s,
     lazy w = true → update w s = (Normal (), set_dirty true w, s)) ∧
  (∀ w s,
     match outcome (getter w (world s)) with
     | Normal v =>
         (evaluate w s).1.1 = Normal () ∧
         value (evaluate w s).1.2 = v ∧ dirty (evaluate w s).1.2 = false
     | Throw e =>
         if user w then
           (evaluate w s).1.1 = Normal () ∧
           value (evaluate w s).1.2 = VUndefined ∧
           dirty (evaluate w s).1.2 = false
         else
           (evaluate w s).1.1 = Throw e ∧
           value (evaluate w s).1.2 = value w ∧
           dirty (evaluate w s).1.2 = dirty w
     end).
Proof.
  intros Hl. split_and!.
  - unfold constructor. simpl. rewrite Hl. simpl.
    eexists _, _. split; [reflexivity|]. simpl. by split_and!.
  - intros w s Hlw. unfold update. by rewrite Hlw.
  - intros w s. unfold evaluate.
    pose proof (get_outcome w s) as Hout.
    pose proof (get_value w s) as Hval.
    destruct (get_frame w s) as (Hw & _ & _).
    assert (dirty (get w s).1.2 = dirty w) as Hd by exact (f_equal dirty Hw).
    destruct (get w s) as [[r w1] s1]. simpl in *. subst r.
    destruct (outcome _) as [v|e]; [done|]. by destruct (user w).
Qed.

(** ** Construction *)

(** X9.  The constructor gives the watcher the next identifier ([++uid]),
    appends it to [vm._watchers], and makes it [vm._watcher] when it is the
    render watcher; a watcher that is not lazy is evaluated at once.  If
    that evaluation throws (the watcher is not a user watcher and its
    getter throws) the constructor throws too, after the identifier was
    consumed and the watcher registered with the component. *)
Theorem constructor_registers (vm : nat) (e : expOrFn)
    (cb : jsvalue → jsvalue → World → effects World unit)
    (opts : option options) (isRenderWatcher : bool) (st : state) (c : component) :
  vms st !! vm = Some c →
  let r := (constructor vm e cb opts isRenderWatcher st).1.1 in
  let w := (constructor vm e cb opts isRenderWatcher st).1.2 in
  let st' := (constructor vm e cb opts isRenderWatcher st).2 in
  id w = S (uid st) ∧ uid st' = S (uid st) ∧ active w = true ∧
  vms st' !! vm =
    Some (Component (if isRenderWatcher then Some (S (uid st)) else _watcher c)
                    (_watchers c ++ [S (uid st)]) (_isMounted c) (_isDestroyed c)
                    (_isBeingDestroyed c) (_inactive c)) ∧
  r = (if lazy w then Normal ()
       else match outcome (getter w (world st)) with
            | Normal _ => Normal ()
            | Throw e' => if user w then Normal () else Throw e'
            end) ∧
  (lazy w = false → ∀ v, outcome (getter w (world st)) = Normal v → value w = v).
Proof.
  intros Hc. unfold constructor. cbv zeta.
  set (o := default _ opts).
  set (st2 := set_uid _ _).
  assert (vms st2 !! vm =
    Some (Component (if isRenderWatcher then Some (S (uid st)) else _watcher c)
                    (_watchers c ++ [S (uid st)]) (_isMounted c) (_isDestroyed c)
                    (_isBeingDestroyed c) (_inactive c))) as Hvm.
  { unfold st2. simpl. by rewrite lookup_alter_eq, Hc. }
  assert (∃ g st3,
    match e with
    | Fn f => (f, st2)
    | Path p =>
        match parsePath p with
        | Some f => (f, st2)
        | None => (noop, if production st2 then st2 else warn (path_warning p) st2)
        end
    end = (g, st3) ∧ vms st3 = vms st2 ∧ uid st3 = S (uid st) ∧
    world st3 = world st) as (g & st3 & -> & Hv3 & Hu3 & Hw3).
  { destruct e as [f|p]; [by eexists _, _|].
    destruct (parsePath p); [by eexists _, _|].
    eexists _, _. split; [reflexivity|]. by destruct (production st2). }
  set (w0 := mkWatcher _ _ _ _ _ _ _ _ _ _ _ _ _ _ _ _).
  destruct (lazy w0) eqn:Hl.
  { cbn [fst snd]. rewrite Hl, Hv3. done. }
  pose proof (get_outcome w0 st3) as Hout.
  destruct (get_frame w0 st3) as (Hw & _ & _).
  destruct (get_state w0 st3) as (m & cs & Hst).
  destruct (get w0 st3) as [[r1 w1] st4]. cbn [fst snd] in Hout, Hw, Hst.
  subst r1 st4.
  rewrite Hw3 in *.
  assert (∀ s, uid (after_get w0 s) = uid s ∧ vms (after_get w0 s) = vms s) as Hag.
  { intros s. unfold after_get. destruct (outcome _); [done|]. by destruct (user w0). }
  destruct (Hag st3) as [Hu4 Hv4].
  assert (getter w0 = g) as Hg by done. rewrite Hg in *.
  destruct (outcome (g (world st))) as [v|e'] eqn:Ho.
  - cbn [fst snd uid vms with_subs]. rewrite Hu4, Hv4, Hv3, Hu3.
    change (lazy (set_value v w1)) with (lazy w1).
    change (user (set_value v w1)) with (user w1).
    change (getter (set_value v w1)) with (getter w1).
    change (id (set_value v w1)) with (id w1).
    change (active (set_value v w1)) with (active w1).
    rewrite (f_equal lazy Hw : lazy w1 = lazy w0), Hl.
    split_and!; try done; try exact (f_equal id Hw); try exact (f_equal active Hw).
    + by rewrite (f_equal getter Hw : getter w1 = getter w0), Hg, Ho.
    + intros _ v' Hv'. rewrite (f_equal getter Hw : getter w1 = getter w0), Hg, Ho in Hv'.
      by injection Hv' as <-.
  - destruct (user w0) eqn:Hu; cbn [fst snd uid vms with_subs];
      rewrite Hu4, Hv4, Hv3, Hu3.
    + change (lazy (set_value VUndefined w1)) with (lazy w1).
      change (user (set_value VUndefined w1)) with (user w1).
      change (getter (set_value VUndefined w1)) with (getter w1).
      change (id (set_value VUndefined w1)) with (id w1).
      change (active (set_value VUndefined w1)) with (active w1).
      rewrite (f_equal lazy Hw : lazy w1 = lazy w0), Hl,
        (f_equal user Hw : user w1 = user w0), Hu.
      split_and!; try done;
        try exact (f_equal id Hw); try exact (f_equal active Hw).
      * by rewrite (f_equal getter Hw : getter w1 = getter w0), Hg, Ho.
      * intros _ v'. by rewrite (f_equal getter Hw : getter w1 = getter w0), Hg, Ho.
    + rewrite (f_equal lazy Hw : lazy w1 = lazy w0), Hl,
        (f_equal user Hw : user w1 = user w0), Hu,
        (f_equal getter Hw : getter w1 = getter w0), Hg, Ho.
      split_and!; try done;
        try exact (f_equal id Hw); try exact (f_equal active Hw).
Qed.

End with_scheduler.
Arguments Watcher : clear implicits.
Arguments state : clear implicits.
Arguments options : clear implicits.
Arguments expOrFn : clear implicits.

(** ** A watcher's subjects handed to another *)

Lemma depend_all_inactive {World Sched : Type} ds (t : Watcher World)
    (st : state World Sched) :
  Dep_target st ≠ Some (id t) → depend_all ds t st = (t, st).
Proof.
  intros Ht. induction ds as [|d ds IH] using rev_ind; [done|].
  rewrite depend_all_snoc, IH. unfold depend. simpl. by rewrite decide_False.
Qed.

(** X10.  [depend()] of a watcher [w], called while watcher [t] is the
    active subscriber and is collecting, makes every subject of [w] a
    subject of [t]: those [t] had not collected yet are recorded, without
    repetition, and [addSub] is called for the ones [t] was not subscribed
    to in its previous generation.  Called while [t] is not the active
    subscriber it changes nothing for [t]. *)
Theorem Watcher_depend_shares_subjects {World Sched : Type}
    (w t : Watcher World) (st : state World Sched) :
  newDepIds t = list_to_set (newDeps t) →
  NoDup (newDeps t) →
  (Dep_target st = Some (id t) →
     let t' := (Watcher_depend w t st).1 in
     let st' := (Watcher_depend w t st).2 in
     (∀ d, d ∈ newDeps t' ↔ d ∈ newDeps t ∨ d ∈ deps w) ∧
     NoDup (newDeps t') ∧
     newDepIds t' = list_to_set (newDeps t') ∧
     deps t' = deps t ∧ depIds t' = depIds t ∧
     ∃ new, newDeps t' = newDeps t ++ new ∧
       sub_calls st' =
         sub_calls st ++
         ((λ d, AddSub d (id t)) <$> filter (λ d, d ∉ depIds t) new) ∧
       ∀ d, id t ∈ subs_of d st' ↔
            id t ∈ subs_of d st ∨ (d ∈ new ∧ d ∉ depIds t)) ∧
  (Dep_target st ≠ Some (id t) → Watcher_depend w t st = (t, st)).
Proof.
  intros Hids Hnd. unfold Watcher_depend. split; [|apply depend_all_inactive].
  intros Ht.
  destruct (depend_all_spec (λ _ s, s) (reverse (deps w)) t st Ht Hids)
    as (m & -> & Hm).
  destruct (collect_extends (reverse (deps w)) (newDeps t)) as [new Hnew].
  pose proof (collect_NoDup (reverse (deps w)) (newDeps t) Hnd) as Hnd'.
  simpl. split_and!; try done.
  - intros d. by rewrite collect_elem, elem_of_reverse.
  - exists new. split; [done|]. unfold add_calls. rewrite Hnew, drop_app_length.
    split; [done|]. intros d. unfold subs_of at 1. simpl. rewrite Hm, Hnew.
    rewrite Hnew in Hnd'. apply NoDup_app in Hnd' as (_ & Hdisj & _).
    rewrite elem_of_app. naive_solver.
Qed.


Module examples.

Definition keep_sched (_ : nat) (s : unit) : unit := s.

Definition flat (_ : unit) (_ : nat) : list nat := [].

Definition silent_cb (_ _ : jsvalue) (w : unit) : effects unit unit :=
  Effects [] [] w (Normal ()).

(** Watcher 7 was subscribed to subjects 1 and 2; its getter now touches
    2, 3 and 2 again, and then throws. *)
Definition retargeted : Watcher unit :=
  mkWatcher 0 7 false false false false None silent_cb
    (λ w, Effects [2; 3; 2] [] w (Throw "boom")) true false
    [1; 2] [] (list_to_set [1; 2]) ∅ VUndefined.

Definition subscribed : state unit unit :=
  State () () {[1 := [7]; 2 := [7]]} [] [] [] [] 7 false ∅.


(** The same evaluation, run: subject 3 gains the watcher, subject 1 loses
    it, subject 2 is left alone, although the getter threw. *)
Lemma retargeted_calls :
  let '(r, w', st') := get keep_sched flat retargeted subscribed in
  r = Throw "boom" ∧
  deps w' = [2; 3] ∧
  sub_calls st' = [AddSub 3 7; RemoveSub 1 7] ∧
  subs_of 1 st' = [] ∧ subs_of 2 st' = [7] ∧ subs_of 3 st' = [7] ∧
  targetStack st' = [].
Proof. vm_compute. repeat split. Qed.

(** A [parsePath] that accepts the path [a.b] only. *)
Definition parse_a_b (p : string) : option (unit → effects unit jsvalue) :=
  if decide (p = "a.b")
  then Some (λ w, Effects [1; 2] [] w (Normal (VNumber (Num 5))))
  else None.

Definition blank (prod : bool) : state unit unit :=
  State () () ∅ [] [] [] [] 0 prod ∅.

Lemma constructor_bad_path_witness :
  parse_a_b "a+b" = None ∧
  ∃ w st',
    constructor keep_sched flat parse_a_b 0 (Path "a+b") silent_cb None false
      (blank false) = (Normal (), w, st') ∧
    getter w = noop ∧
    value w = VUndefined ∧
    warnings st' = [path_warning "a+b"].
Proof.
  split; [reflexivity|].
  destruct (constructor_bad_path keep_sched flat parse_a_b "a+b" 0 silent_cb
              None false (blank false) eq_refl)
    as (w & st' & Hc & Hg & Hv & Hw & _).
  exists w, st'. split; [exact Hc|]. split; [exact Hg|].
  split; [exact Hv|exact Hw].
Defined.

(** In production the same construction warns nothing, and a well-formed
    path gets the parsed getter. *)
Lemma constructor_paths :
  warnings (constructor keep_sched flat parse_a_b 0 (Path "a+b") silent_cb
              None false (blank true)).2 = [] ∧
  value (constructor keep_sched flat parse_a_b 0 (Path "a.b") silent_cb
           None false (blank false)).1.2 = VNumber (Num 5).
Proof. vm_compute. split; reflexivity. Qed.

(** A watcher whose getter returns [NaN] and whose cached value is [NaN]:
    the callback runs all the same. *)
Definition nan_watcher : Watcher unit :=
  mkWatcher 0 7 false false false false None silent_cb
    (λ w, Effects [] [] w (Normal (VNumber NaN))) true false [] [] ∅ ∅
    (VNumber NaN).

Lemma run_calls_back_witness :
  active nan_watcher = true ∧
  outcome (getter nan_watcher (world subscribed)) = Normal (VNumber NaN) ∧
  fires nan_watcher (VNumber NaN) = true ∧
  value (run keep_sched flat nan_watcher subscribed).1.2 = VNumber NaN.
Proof.
  split; [reflexivity|]. split; [reflexivity|].
  destruct (run_calls_back keep_sched flat nan_watcher subscribed (VNumber NaN)
              eq_refl eq_refl) as (_ & Hf & Hn).
  pose proof (Hn (or_introl eq_refl)) as H.
  split; [exact H|]. exact (proj1 (Hf H)).
Defined.

(** Watcher 7, torn down, is no longer listed by subjects 1 and 2. *)
Lemma teardown_unsubscribes_witness :
  active retargeted = true ∧
  active (teardown retargeted subscribed).1 = false ∧
  ∀ d, id retargeted ∈ subs_of d (teardown retargeted subscribed).2 ↔
       (d ∉ deps retargeted) ∧ id retargeted ∈ subs_of d subscribed.
Proof.
  split; [reflexivity|].
  destruct (teardown_unsubscribes keep_sched flat retargeted subscribed eq_refl)
    as (Ha & _ & Hs & _).
  split; [exact Ha|exact Hs].
Defined.

Definition counting (w : unit) : effects unit jsvalue :=
  Effects [1] [] w (Normal (VNumber (Num 3))).

Definition with_component : state unit unit :=
  State () () ∅ [] [] [] [] 4 false {[0 := Component None [2] true false false false]}.

Definition lazy_options : options unit := Options false false true false None.

(** A lazy watcher is created without evaluating [counting]. *)
Lemma lazy_watcher_defers_evaluation_witness :
  o_lazy lazy_options = true ∧
  ∃ w st',
    constructor keep_sched flat parse_a_b 0 (Fn counting) silent_cb
      (Some lazy_options) false with_component
      = (Normal (), w, st') ∧
    dirty w = true ∧ value w = VUndefined ∧ deps w = [].
Proof.
  split; [reflexivity|].
  destruct (lazy_watcher_defers_evaluation keep_sched flat parse_a_b 0 counting
              silent_cb lazy_options false with_component
              eq_refl) as ((w & st' & Hc & _ & _ & Hd & Hv & Hdeps & _) & _).
  exists w, st'. split; [exact Hc|]. split; [exact Hd|]. split; [exact Hv|exact Hdeps].
Defined.

(** The next watcher of component 0 gets identifier 5 and is appended to
    its list. *)
Lemma constructor_registers_witness :
  vms with_component !! 0 = Some (Component None [2] true false false false) ∧
  id (constructor keep_sched flat parse_a_b 0 (Fn counting) silent_cb None true
        with_component).1.2 = 5 ∧
  vms (constructor keep_sched flat parse_a_b 0 (Fn counting) silent_cb None true
         with_component).2 !! 0 =
    Some (Component (Some 5) [2; 5] true false false false).
Proof.
  assert (H : vms with_component !! 0 =
              Some (Component None [2] true false false false)) by reflexivity.
  split; [exact H|].
  destruct (constructor_registers keep_sched flat parse_a_b 0 (Fn counting)
              silent_cb None true with_component _ H) as (Hid & _ & _ & Hvm & _).
  split; [exact Hid|exact Hvm].
Defined.

(** Watcher 7 is being evaluated; the subjects 1 and 2 of [retargeted]
    become its own. *)
Definition collecting : Watcher unit :=
  mkWatcher 0 8 false false false false None silent_cb counting true false
    [2] [] (list_to_set [2]) ∅ VUndefined.

Definition evaluating : state unit unit :=
  State () () {[1 := [7]; 2 := [7; 8]]} [8] [] [] [] 8 false ∅.

Lemma Watcher_depend_shares_subjects_witness :
  newDepIds collecting = list_to_set (newDeps collecting) ∧
  NoDup (newDeps collecting) ∧
  Dep_target evaluating = Some (id collecting) ∧
  ∀ d, d ∈ newDeps (Watcher_depend retargeted collecting evaluating).1 ↔
       d ∈ newDeps collecting ∨ d ∈ deps retargeted.
Proof.
  assert (H1 : newDepIds collecting = list_to_set (newDeps collecting))
    by reflexivity.
  assert (H2 : NoDup (newDeps collecting)) by apply NoDup_nil_2.
  split; [exact H1|]. split; [exact H2|]. split; [reflexivity|].
  destruct (Watcher_depend_shares_subjects retargeted collecting evaluating H1 H2)
    as [H _].
  exact (proj1 (H eq_refl)).
Defined.

(** The same call, run: subject 1 gains watcher 8, subject 2 had it. *)
Lemma Watcher_depend_run :
  newDeps (Watcher_depend retargeted collecting evaluating).1 = [2; 1] ∧
  sub_calls (Watcher_depend retargeted collecting evaluating).2 = [AddSub 1 8] ∧
  subs_of 1 (Watcher_depend retargeted collecting evaluating).2 = [7; 8].
Proof. vm_compute. by repeat split. Qed.

End examples.
End watcher.

(** * scheduler.js *)
Module scheduler.
Import watcher.

Definition MAX_UPDATE_COUNT : nat := 100.

(** A value of the map [has]: [true] or [null]. *)
Inductive presence := IsTrue | IsNull.
Global Instance presence_eq_dec : EqDecision presence.
Proof. solve_decision. Defined.

(** The module variables of scheduler.js.  The queue holds watcher
    references; a watcher is referred to by its [id], which [++uid] makes
    unique, so [queue[i].id] is the entry itself. *)
Record queue_state := QueueState {
  queue : list nat;
  activatedChildren : list nat;
  has : gmap nat presence;
  circular : gmap nat nat;
  waiting : bool;
  flushing : bool;
  index : nat;
  (** number of [nextTick(flushSchedulerQueue)] calls made so far *)
  flush_requests : nat
}.

(** [has[id] == null] holds for [null] and for a missing key. *)
Definition has_null (s : queue_state) (wid : nat) : bool :=
  bool_decide (has s !! wid ≠ Some IsTrue).

(** The value of [i + 1] when the loop
    [while (i > index && queue[i].id > watcher.id) i--] stops, started
    with [i + 1 = p]. *)
Fixpoint insert_position (q : list nat) (idx wid : nat) (p : nat) : nat :=
  match p with
  | 0 => 0
  | S i =>
      if bool_decide (idx < i) &&
         match q !! i with Some x => bool_decide (wid < x) | None => false end
      then insert_position q idx wid i
      else S i
  end.

(** [queue.splice(p, 0, wid)] *)
Definition splice_in (p wid : nat) (q : list nat) : list nat :=
  take p q ++ wid :: drop p q.

(** [queueWatcher(watcher)] *)
Definition queueWatcher (wid : nat) (s : queue_state) : queue_state :=
  if has_null s wid then
    let has' := <[wid := IsTrue]> (has s) in
    let queue' :=
      if negb (flushing s) then queue s ++ [wid]
      else splice_in (insert_position (queue s) (index s) wid (length (queue s)))
                     wid (queue s) in
    QueueState queue' (activatedChildren s) has' (circular s) true (flushing s)
               (index s)
               (if negb (waiting s) then S (flush_requests s) else flush_requests s)
  else s.

(** [resetSchedulerState()] *)
Definition resetSchedulerState (production : bool) (s : queue_state) : queue_state :=
  QueueState [] [] ∅ (if production then circular s else ∅) false false 0
             (flush_requests s).

(** ** The insertion made by [queueWatcher] *)

Lemma insert_position_le q idx wid p : insert_position q idx wid p ≤ p.
Proof. induction p; simpl; [lia|]. destruct (_ && _); lia. Qed.

Lemma insert_position_gt q idx wid p :
  idx < p → idx < insert_position q idx wid p.
Proof.
  induction p as [|i IH]; simpl; [lia|]. intros H.
  destruct (bool_decide (idx < i)) eqn:Hlt; simpl; [|lia].
  apply bool_decide_eq_true in Hlt.
  destruct (q !! i) as [x|]; [|lia].
  destruct (bool_decide (wid < x)); [auto|lia].
Qed.

Lemma insert_position_skipped q idx wid p j :
  insert_position q idx wid p ≤ j → j < p → ∃ x, q !! j = Some x ∧ wid < x.
Proof.
  induction p as [|i IH]; simpl; [lia|].
  destruct (bool_decide (idx < i)) eqn:Hlt; simpl; [|lia].
  destruct (q !! i) as [x|] eqn:Hq; [|lia].
  destruct (bool_decide (wid < x)) eqn:Hwx; [|lia].
  apply bool_decide_eq_true in Hwx.
  intros Hle Hj. destruct (decide (j = i)) as [->|]; [eauto|]. apply IH; lia.
Qed.

Lemma insert_position_stop q idx wid p i :
  insert_position q idx wid p = S i → idx < i → i < length q →
  ∃ x, q !! i = Some x ∧ x ≤ wid.
Proof.
  induction p as [|i' IH]; simpl; [done|].
  destruct (bool_decide (idx < i')) eqn:Hlt; simpl.
  - destruct (q !! i') as [x|] eqn:Hq.
    + destruct (bool_decide (wid < x)) eqn:Hwx; [apply IH|].
      apply bool_decide_eq_false in Hwx.
      intros [= ->] _ _. exists x. split; [done|lia].
    + intros [= ->] _ Hlen. apply lookup_lt_is_Some in Hlen as [? ?]. congruence.
  - intros [= ->] Hidx. apply bool_decide_eq_false in Hlt. lia.
Qed.

(** Where [queueWatcher] puts a watcher that is not pending. *)
Definition enqueue_position (s : queue_state) (wid : nat) : nat :=
  if negb (flushing s) then length (queue s)
  else insert_position (queue s) (index s) wid (length (queue s)).

Lemma splice_in_end wid (q : list nat) : splice_in (length q) wid q = q ++ [wid].
Proof. unfold splice_in. by rewrite take_ge, drop_ge by lia. Qed.

Lemma queueWatcher_queue s wid :
  has_null s wid = true →
  queue (queueWatcher wid s) = splice_in (enqueue_position s wid) wid (queue s).
Proof.
  intros Hn. unfold queueWatcher, enqueue_position. rewrite Hn. simpl.
  destruct (flushing s); simpl; [done|]. by rewrite splice_in_end.
Qed.

Lemma enqueue_position_le s wid : enqueue_position s wid ≤ length (queue s).
Proof.
  unfold enqueue_position. destruct (flushing s); simpl; [|lia].
  apply insert_position_le.
Qed.

Lemma enqueue_position_gt s wid :
  index s < length (queue s) → index s < enqueue_position s wid.
Proof.
  unfold enqueue_position. destruct (flushing s); simpl; [|lia].
  apply insert_position_gt.
Qed.

Lemma splice_in_drop p wid q k :
  k ≤ p → p ≤ length q →
  drop k (splice_in p wid q) = drop k (take p q) ++ wid :: drop p q.
Proof.
  intros Hk Hp. unfold splice_in. rewrite drop_app_le; [done|].
  rewrite length_take. lia.
Qed.

Lemma drop_split p (q : list nat) k :
  k ≤ p → drop k q = drop k (take p q) ++ drop p q.
Proof.
  intros Hk. rewrite <- (take_drop p q) at 1.
  destruct (decide (p ≤ length q)).
  - rewrite drop_app_le; [done|]. rewrite length_take. lia.
  - rewrite (take_ge q p), (drop_ge q p), !app_nil_r by lia. done.
Qed.

Lemma splice_in_drop_Permutation p wid q k :
  k ≤ p → p ≤ length q → drop k (splice_in p wid q) ≡ₚ wid :: drop k q.
Proof.
  intros Hk Hp. rewrite splice_in_drop, (drop_split p q k) by done.
  by rewrite <- Permutation_middle.
Qed.

Lemma splice_in_drop_elem p wid q k x :
  p ≤ length q → x ∈ drop k q → x ∈ drop k (splice_in p wid q).
Proof.
  intros Hp Hx. destruct (decide (k ≤ p)) as [Hk|Hk].
  - rewrite splice_in_drop_Permutation by done. set_solver.
  - unfold splice_in. rewrite drop_app_ge by (rewrite length_take; lia).
    rewrite length_take, Nat.min_l by lia.
    destruct (k - p) as [|n] eqn:Hn; [lia|]. simpl.
    rewrite drop_drop. replace (p + n) with (k - 1) by lia.
    apply list_elem_of_lookup in Hx as [i Hi]. rewrite lookup_drop in Hi.
    apply list_elem_of_lookup. exists (S i). rewrite lookup_drop.
    rewrite <- Hi. f_equal. lia.
Qed.

(** ** Invariants of the queue *)

(** From position [k] on the queue lists distinct watchers, all of them
    marked in [has]. *)
Definition pending_ok (k : nat) (s : queue_state) : Prop :=
  NoDup (drop k (queue s)) ∧
  ∀ x, x ∈ drop k (queue s) → has s !! x = Some IsTrue.

Lemma has_null_true s wid : has_null s wid = true ↔ has s !! wid ≠ Some IsTrue.
Proof. unfold has_null. by rewrite bool_decide_eq_true. Qed.

Lemma queueWatcher_pending s wid :
  has s !! wid = Some IsTrue → queueWatcher wid s = s.
Proof.
  intros H. unfold queueWatcher, has_null.
  by rewrite bool_decide_false by (intros ?; done).
Qed.

Lemma queueWatcher_has s wid :
  has_null s wid = true → has (queueWatcher wid s) = <[wid := IsTrue]> (has s).
Proof. intros H. unfold queueWatcher. by rewrite H. Qed.

Lemma queueWatcher_pending_ok k wid s :
  k ≤ enqueue_position s wid →
  pending_ok k s → pending_ok k (queueWatcher wid s).
Proof.
  intros Hk [Hnd Hhas]. destruct (has_null s wid) eqn:Hn.
  - pose proof (enqueue_position_le s wid) as Hp.
    unfold pending_ok.
    rewrite queueWatcher_queue, queueWatcher_has by done.
    rewrite splice_in_drop_Permutation by done.
    apply has_null_true in Hn. split.
    + apply NoDup_cons. split; [|done]. intros Hin. by apply Hn, Hhas.
    + intros x Hx. rewrite splice_in_drop_Permutation in Hx by done.
      destruct (decide (x = wid)) as [->|Hne].
      * by rewrite lookup_insert_eq.
      * rewrite lookup_insert_ne by done. apply Hhas.
        by apply elem_of_cons in Hx as [?|?].
  - unfold queueWatcher. by rewrite Hn.
Qed.

(** [s'] is [s] after some enqueues: the cursor and the flags other than
    [waiting] are the same, and what was in the queue from some position on
    is still there from that position on. *)
Definition extends (s s' : queue_state) : Prop :=
  index s' = index s ∧ flushing s' = flushing s ∧ circular s' = circular s ∧
  activatedChildren s' = activatedChildren s ∧
  ∀ k x, x ∈ drop k (queue s) → x ∈ drop k (queue s').

Lemma extends_refl s : extends s s.
Proof. by unfold extends. Qed.

Lemma extends_trans s1 s2 s3 : extends s1 s2 → extends s2 s3 → extends s1 s3.
Proof.
  intros (Hi & Hf & Hc & Ha & Hq) (Hi' & Hf' & Hc' & Ha' & Hq').
  unfold extends. rewrite Hi', Hf', Hc', Ha'. split_and!; try done.
  intros k x Hx. by apply Hq', Hq.
Qed.

Lemma queueWatcher_extends wid s : extends s (queueWatcher wid s).
Proof.
  destruct (has_null s wid) eqn:Hn.
  - unfold extends. rewrite queueWatcher_queue by done.
    unfold queueWatcher. rewrite Hn. simpl. split_and!; try done.
    intros k x. apply splice_in_drop_elem, enqueue_position_le.
  - unfold queueWatcher. rewrite Hn. apply extends_refl.
Qed.

Definition enqueue_all (qs : list nat) (s : queue_state) : queue_state :=
  foldl (λ sc q, queueWatcher q sc) s qs.

Lemma enqueue_all_extends qs s : extends s (enqueue_all qs s).
Proof.
  revert s. induction qs as [|q qs IH]; intros s; [apply extends_refl|].
  simpl. eapply extends_trans; [apply queueWatcher_extends|apply IH].
Qed.

Lemma extends_length s s' :
  extends s s' → index s < length (queue s) → index s' < length (queue s').
Proof.
  intros (Hi & _ & _ & _ & Hq) Hlt. rewrite Hi.
  apply lookup_lt_is_Some in Hlt as [x Hx].
  assert (x ∈ drop (index s) (queue s')) as Hin.
  { apply Hq, list_elem_of_lookup. exists 0. rewrite lookup_drop.
    by rewrite Nat.add_0_r. }
  apply list_elem_of_lookup in Hin as [i Hi']. rewrite lookup_drop in Hi'.
  apply lookup_lt_Some in Hi'. lia.
Qed.

(** The part of the queue past the cursor stays sorted when a watcher is
    enqueued during a flush. *)
Lemma queueWatcher_sorted wid s :
  flushing s = true →
  index s < length (queue s) →
  StronglySorted (≤) (drop (S (index s)) (queue s)) →
  StronglySorted (≤) (drop (S (index s)) (queue (queueWatcher wid s))).
Proof.
  intros Hf Hidx Hs. destruct (has_null s wid) eqn:Hn;
    [|unfold queueWatcher; by rewrite Hn].
  rewrite queueWatcher_queue by done.
  pose proof (enqueue_position_le s wid) as Hle.
  pose proof (enqueue_position_gt s wid Hidx) as Hgt.
  unfold enqueue_position in *. rewrite Hf in *. simpl in *.
  set (q := queue s) in *. set (idx := index s) in *.
  set (p := insert_position q idx wid (length q)) in *.
  rewrite splice_in_drop by lia.
  rewrite (drop_split p q (S idx)) in Hs by lia.
  apply StronglySorted_app in Hs as (Hab & Ha & Hb).
  assert (∀ x, x ∈ drop p q → wid < x) as Hgreater.
  { intros x [j Hj]%list_elem_of_lookup. rewrite lookup_drop in Hj.
    destruct (insert_position_skipped q idx wid (length q) (p + j))
      as (y & Hy & Hlt); [unfold p; lia|by eapply lookup_lt_Some|].
    congruence. }
  apply StronglySorted_app. split_and!; [|done|].
  - intros x1 x2 Hx1 [->|Hx2]%elem_of_cons; [|by apply Hab].
    destruct p as [|i] eqn:Hp; [lia|].
    destruct (decide (idx < i)) as [Hlt|Hge];
      [|rewrite drop_ge in Hx1 by (rewrite length_take; lia); set_solver].
    destruct (insert_position_stop q idx wid (length q) i)
      as (y & Hy & Hyw); [done|done|lia|].
    rewrite (take_S_r _ _ _ Hy) in Hx1, Ha.
    rewrite drop_app_le in Hx1, Ha by (rewrite length_take; lia).
    apply elem_of_app in Hx1 as [Hx1|Hx1].
    + pose proof (StronglySorted_app_1_elem_of _ _ _ x1 y Ha Hx1) as Hxy.
      etrans; [apply Hxy; set_solver|done].
    + apply list_elem_of_singleton in Hx1 as ->. done.
  - apply StronglySorted_cons. split; [|done].
    apply Forall_forall. intros x Hx. apply Hgreater in Hx. lia.
Qed.

(** ** Enqueueing before a flush *)

Lemma enqueue_all_snoc qs q s :
  enqueue_all (qs ++ [q]) s = queueWatcher q (enqueue_all qs s).
Proof. unfold enqueue_all. by rewrite foldl_app. Qed.

(** The watchers marked in [has] are those of the queue. *)
Definition has_matches_queue (s : queue_state) : Prop :=
  ∀ x, has s !! x = Some IsTrue ↔ x ∈ queue s.

(** X11.  Outside a flush, with [has] marking the watchers of the queue:
    after any run of [queueWatcher] calls the queue is the old one followed
    by the newly enqueued watchers, each once, in the order of their first
    enqueue, and [has] marks the watchers of the new queue.  A flush is
    requested (through [nextTick]) exactly once if none was awaited and some
    watcher was added, and not otherwise. *)
Theorem enqueue_keeps_first_occurrences (qs : list nat) (s : queue_state) :
  flushing s = false →
  has_matches_queue s →
  let s' := enqueue_all qs s in
  queue s' = collect qs (queue s) ∧
  has_matches_queue s' ∧
  flushing s' = false ∧ index s' = index s ∧
  waiting s' = waiting s || bool_decide (queue s' ≠ queue s) ∧
  flush_requests s' =
    (if negb (waiting s) && bool_decide (queue s' ≠ queue s)
     then S (flush_requests s) else flush_requests s).
Proof.
  intros Hf Hm. unfold has_matches_queue in *.
  induction qs as [|q qs IH] using rev_ind.
  - simpl. rewrite bool_decide_false by (intros H; by apply H).
    rewrite orb_false_r, andb_false_r. done.
  - rewrite enqueue_all_snoc, collect_snoc. simpl in IH.
    destruct IH as (Hq & Hm' & Hf' & Hi & Hw & Hr).
    set (s1 := enqueue_all qs s) in *. rewrite <- Hq.
    destruct (decide (q ∈ queue s1)) as [Hin|Hnin].
    + rewrite queueWatcher_pending by (by apply Hm'). done.
    + assert (has_null s1 q = true) as Hn.
      { apply has_null_true. intros H. by apply Hnin, Hm'. }
      unfold queueWatcher. rewrite Hn. simpl. rewrite Hf'. simpl.
      destruct (collect_extends qs (queue s)) as [new Hnew].
      rewrite <- Hq in Hnew.
      assert (queue s1 ++ [q] ≠ queue s) as Hne.
      { rewrite Hnew, <- app_assoc. intros H.
        apply (f_equal length) in H. rewrite !length_app in H. simpl in H. lia. }
      rewrite (bool_decide_true _ Hne), orb_true_r, andb_true_r.
      split_and!; try done.
      * intros x. destruct (decide (x = q)) as [->|Hx].
        -- rewrite lookup_insert_eq, elem_of_app, list_elem_of_singleton.
           naive_solver.
        -- rewrite lookup_insert_ne by done.
           rewrite Hm', elem_of_app, list_elem_of_singleton. naive_solver.
      * rewrite Hr, Hw. destruct (waiting s); simpl; [done|].
        by destruct (bool_decide (queue s1 ≠ queue s)).
Qed.

(** ** Enqueueing while a flush is awaited *)

Lemma queueWatcher_waiting wid s :
  waiting s = true →
  waiting (queueWatcher wid s) = true ∧
  flush_requests (queueWatcher wid s) = flush_requests s ∧
  flushing (queueWatcher wid s) = flushing s ∧
  index (queueWatcher wid s) = index s.
Proof.
  intros Hw. unfold queueWatcher. destruct (has_null s wid); [|done].
  simpl. by rewrite Hw.
Qed.

Lemma enqueue_all_waiting qs s :
  waiting s = true →
  waiting (enqueue_all qs s) = true ∧
  flush_requests (enqueue_all qs s) = flush_requests s ∧
  flushing (enqueue_all qs s) = flushing s ∧
  index (enqueue_all qs s) = index s.
Proof.
  intros Hw. induction qs as [|q qs IH] using rev_ind; [done|].
  rewrite enqueue_all_snoc. destruct IH as (Hw' & Hr & Hf & Hi).
  destruct (queueWatcher_waiting q _ Hw') as (-> & -> & -> & ->). done.
Qed.

(** ** The part of the queue up to the cursor *)

Lemma take_take_le {A} (l : list A) n m : n ≤ m → take n (take m l) = take n l.
Proof. intros H. rewrite take_take. f_equal. lia. Qed.

(** An enqueue never touches the queue up to and including the cursor. *)
Lemma queueWatcher_prefix wid s :
  index s < length (queue s) →
  take (S (index s)) (queue (queueWatcher wid s)) = take (S (index s)) (queue s) ∧
  index (queueWatcher wid s) = index s ∧
  index s < length (queue (queueWatcher wid s)).
Proof.
  intros Hlt. destruct (has_null s wid) eqn:Hn.
  - pose proof (enqueue_position_gt s wid Hlt) as Hgt.
    pose proof (enqueue_position_le s wid) as Hle.
    rewrite queueWatcher_queue by done. unfold splice_in.
    split_and!.
    + rewrite take_app_le by (rewrite length_take; lia).
      rewrite take_take. f_equal. lia.
    + unfold queueWatcher. by rewrite Hn.
    + rewrite length_app, length_take. simpl. rewrite length_drop. lia.
  - unfold queueWatcher. by rewrite Hn.
Qed.

Lemma enqueue_all_prefix qs s :
  index s < length (queue s) →
  take (S (index s)) (queue (enqueue_all qs s)) = take (S (index s)) (queue s) ∧
  index (enqueue_all qs s) = index s ∧
  index s < length (queue (enqueue_all qs s)).
Proof.
  intros Hlt. induction qs as [|q qs IH] using rev_ind; [done|].
  rewrite enqueue_all_snoc. destruct IH as (Ht & Hi & Hl).
  destruct (queueWatcher_prefix q (enqueue_all qs s)) as (Ht' & Hi' & Hl');
    [by rewrite Hi|].
  rewrite Hi in *. by rewrite Ht', Hi', Ht.
Qed.

Lemma enqueue_all_pending_ok k qs s :
  index s < length (queue s) → k ≤ S (index s) →
  pending_ok k s → pending_ok k (enqueue_all qs s).
Proof.
  intros Hlt Hk Hp. induction qs as [|q qs IH] using rev_ind; [done|].
  rewrite enqueue_all_snoc.
  destruct (enqueue_all_prefix qs s Hlt) as (_ & Hi & Hl).
  apply queueWatcher_pending_ok; [|done].
  pose proof (enqueue_position_gt (enqueue_all qs s) q) as Hgt.
  rewrite Hi in Hgt. specialize (Hgt Hl). lia.
Qed.

Section with_world.
Context {World : Type}.
Variable reachable_subjects : World → nat → list nat.

(** Ghost record of a lifecycle hook invoked after a flush. *)
Inductive hook_call := Updated (vm : nat) | Activated (vm : nat).

(** The runtime: the state shared with watcher.js, the watcher objects by
    reference, and ghost logs of the [run()] calls made by the scheduler and
    of the lifecycle hooks it invoked. *)
Record runtime := Runtime {
  rt : state World queue_state;
  watchers : gmap nat (Watcher World);
  ran : list nat;
  hooks : list hook_call
}.

Definition sch (r : runtime) : queue_state := sched (rt r).

Definition set_sch (s : queue_state) (r : runtime) : runtime :=
  Runtime (set_sched s (rt r)) (watchers r) (ran r) (hooks r).

Definition type_error : error := "TypeError".

(** [watcher.before()] for the watcher referred to by [wid] *)
Definition call_before (wid : nat) (r : runtime) : completion unit * runtime :=
  match watchers r !! wid with
  | None => (Throw type_error, r)
  | Some w =>
      match before w with
      | None => (Normal (), r)
      | Some hook =>
          let eff := hook (world (rt r)) in
          let '(w1, st1) := apply_effects queueWatcher eff w (rt r) in
          (outcome eff, Runtime st1 (<[wid := w1]> (watchers r)) (ran r) (hooks r))
      end
  end.

(** [watcher.run()] for the watcher referred to by [wid] *)
Definition call_run (wid : nat) (r : runtime) : completion unit * runtime :=
  match watchers r !! wid with
  | None => (Throw type_error, r)
  | Some w =>
      let '(c, w1, st1) := run queueWatcher reachable_subjects w (rt r) in
      (c, Runtime st1 (<[wid := w1]> (watchers r)) (ran r ++ [wid]) (hooks r))
  end.

(** [queueActivatedComponent(vm)] *)
Definition queueActivatedComponent (v : nat) (r : runtime) : runtime :=
  let st := rt r in
  let s := sch r in
  let vms' := alter (λ c, Component (_watcher c) (_watchers c) (_isMounted c)
                            (_isDestroyed c) (_isBeingDestroyed c) false)
                    v (vms st) in
  Runtime (set_sched (QueueState (queue s) (activatedChildren s ++ [v]) (has s)
                        (circular s) (waiting s) (flushing s) (index s)
                        (flush_requests s))
             (set_vms vms' st))
          (watchers r) (ran r) (hooks r).

(** [has[id] = null] *)
Definition clear_has (wid : nat) (r : runtime) : runtime :=
  let s := sch r in
  set_sch (QueueState (queue s) (activatedChildren s) (<[wid := IsNull]> (has s))
             (circular s) (waiting s) (flushing s) (index s) (flush_requests s)) r.

(** [index++] *)
Definition next_index (r : runtime) : runtime :=
  let s := sch r in
  set_sch (QueueState (queue s) (activatedChildren s) (has s) (circular s)
             (waiting s) (flushing s) (S (index s)) (flush_requests s)) r.

(** How the [for] loop of [flushSchedulerQueue] ends. *)
Inductive loop_result :=
| Finished (r : runtime)
| Aborted (e : error) (r : runtime)
| OutOfFuel (r : runtime).

(** One iteration of the loop body. *)
Definition loop_body (wid : nat) (r : runtime) : completion unit * runtime :=
  let '(c1, r1) := call_before wid r in
  match c1 with
  | Throw e => (Throw e, r1)
  | Normal _ => call_run wid (clear_has wid r1)
  end.

(** [for (index = ...; index < queue.length; index++) { ... }], from the
    test on; [fuel] bounds the number of iterations. *)
Fixpoint flush_loop (fuel : nat) (r : runtime) : loop_result :=
  match queue (sch r) !! index (sch r) with
  | None => Finished r
  | Some wid =>
      match fuel with
      | 0 => OutOfFuel r
      | S n =>
          let '(c, r1) := loop_body wid r in
          match c with
          | Throw e => Aborted e r1
          | Normal _ => flush_loop n (next_index r1)
          end
      end
  end.

(** [flushing = true], [queue.sort((a, b) => a.id - b.id)] and the
    initialisation [index = 0] of the loop. *)
Definition flush_start (r : runtime) : runtime :=
  let s := sch r in
  set_sch (QueueState (merge_sort (≤) (queue s)) (activatedChildren s) (has s)
             (circular s) (waiting s) true 0 (flush_requests s)) r.

(** Modelled from the spec: [callHook(vm, 'updated')]
    (src/core/instance/lifecycle.js) is a post-flush notification of an
    external collaborator; the call is recorded. *)
Definition callUpdatedHooks (q : list nat) (r : runtime) : runtime :=
  foldl (λ r wid,
    match watchers r !! wid with
    | Some w =>
        match vms (rt r) !! vm w with
        | Some c =>
            if bool_decide (_watcher c = Some wid) && _isMounted c
               && negb (_isDestroyed c)
            then Runtime (rt r) (watchers r) (ran r) (hooks r ++ [Updated (vm w)])
            else r
        | None => r
        end
    | None => r
    end) r (reverse q).

(** Modelled from the spec: [activateChildComponent]
    (src/core/instance/lifecycle.js) is a post-flush notification of an
    external collaborator; the call is recorded. *)
Definition callActivatedHooks (q : list nat) (r : runtime) : runtime :=
  foldl (λ r v,
    let st := rt r in
    let vms' := alter (λ c, Component (_watcher c) (_watchers c) (_isMounted c)
                              (_isDestroyed c) (_isBeingDestroyed c) true)
                      v (vms st) in
    Runtime (set_vms vms' st) (watchers r) (ran r) (hooks r ++ [Activated v]))
    r q.

(** What follows the loop in [flushSchedulerQueue]. *)
Definition flush_finish (r : runtime) : runtime :=
  let activatedQueue := activatedChildren (sch r) in
  let updatedQueue := queue (sch r) in
  let r1 := set_sch (resetSchedulerState (production (rt r)) (sch r)) r in
  callUpdatedHooks updatedQueue (callActivatedHooks activatedQueue r1).

(** [flushSchedulerQueue()] *)
Definition flushSchedulerQueue (fuel : nat) (r : runtime) : loop_result :=
  match flush_loop fuel (flush_start r) with
  | Finished r1 => Finished (flush_finish r1)
  | Aborted e r1 => Aborted e r1
  | OutOfFuel r1 => OutOfFuel r1
  end.

(** ** What one iteration of the flush does to the queue *)

Lemma apply_effects_sch {A} (eff : effects World A) w st :
  sched (apply_effects queueWatcher eff w st).2 =
    enqueue_all (queued eff) (sched st).
Proof.
  destruct (apply_effects_frame queueWatcher eff w st) as [_ (m & cs & ->)].
  done.
Qed.

Lemma call_before_spec wid r :
  extends (sch r) (sch (call_before wid r).2) ∧
  ran (call_before wid r).2 = ran r.
Proof.
  unfold call_before. destruct (watchers r !! wid) as [w|];
    [|split; [apply extends_refl|done]].
  destruct (before w) as [hook|]; [|split; [apply extends_refl|done]].
  pose proof (apply_effects_sch (hook (world (rt r))) w (rt r)) as Hs.
  destruct (apply_effects _ _ _ _) as [w1 st1]. simpl in *.
  unfold sch. simpl. rewrite Hs. split; [apply enqueue_all_extends|done].
Qed.

Lemma call_run_spec wid r :
  extends (sch r) (sch (call_run wid r).2) ∧
  ((call_run wid r).1 = Normal () → ran (call_run wid r).2 = ran r ++ [wid]) ∧
  ∃ l, ran (call_run wid r).2 = ran r ++ l.
Proof.
  unfold call_run. destruct (watchers r !! wid) as [w|];
    [|split_and!; [apply extends_refl|done|exists []; by rewrite app_nil_r]].
  destruct (run_frame queueWatcher reachable_subjects w (rt r)) as (_ & [qs Hs] & _).
  destruct (run _ _ _ _) as [[c w1] st1]. simpl in *.
  unfold sch. simpl. rewrite Hs.
  split_and!; [apply enqueue_all_extends|done|by eexists].
Qed.

Lemma clear_has_extends wid r : extends (sch r) (sch (clear_has wid r)).
Proof. by unfold extends. Qed.

Lemma loop_body_spec wid r :
  extends (sch r) (sch (loop_body wid r).2) ∧
  ((loop_body wid r).1 = Normal () → ran (loop_body wid r).2 = ran r ++ [wid]) ∧
  ∃ l, ran (loop_body wid r).2 = ran r ++ l.
Proof.
  unfold loop_body.
  destruct (call_before_spec wid r) as [He Hr].
  destruct (call_before wid r) as [c1 r1]. simpl in *.
  destruct c1 as [[]|e].
  2: { split_and!; [done|done|]. exists []. by rewrite app_nil_r. }
  destruct (call_run_spec wid (clear_has wid r1)) as (He' & Hr' & Hl).
  change (ran (clear_has wid r1)) with (ran r1) in *.
  rewrite Hr in *. split_and!; try done.
  eapply extends_trans; [done|]. eapply extends_trans; [|done].
  apply clear_has_extends.
Qed.

(** Every watcher at or past the cursor when the loop test is evaluated is
    run before the loop finishes. *)
Lemma flush_loop_runs_pending fuel r r' :
  flush_loop fuel r = Finished r' →
  ∃ l, ran r' = ran r ++ l ∧
       ∀ x, x ∈ drop (index (sch r)) (queue (sch r)) → x ∈ l.
Proof.
  revert r. induction fuel as [|n IH]; intros r; simpl.
  all: destruct (queue (sch r) !! index (sch r)) as [wid|] eqn:Hq.
  all: try done.
  - intros [= ->]. exists []. rewrite app_nil_r. split; [done|].
    intros x. by rewrite drop_ge by (by apply lookup_ge_None).
  - destruct (loop_body_spec wid r) as ((Hi & _ & _ & _ & Hext) & Hran & _).
    destruct (loop_body wid r) as [c r1]. simpl in *.
    destruct c as [[]|e]; [|done]. intros Hloop.
    destruct (IH _ Hloop) as (l & Hl & Hin). simpl in *.
    exists (wid :: l). rewrite Hl, Hran by done. rewrite <- app_assoc.
    split; [done|]. intros x Hx.
    rewrite (drop_S _ _ _ Hq) in Hx. apply elem_of_cons in Hx as [->|Hx].
    + set_solver.
    + apply elem_of_cons. right. apply Hin. unfold sch in *. simpl.
      rewrite Hi. by apply Hext.
  - intros [= ->]. exists []. rewrite app_nil_r. split; [done|].
    intros x. by rewrite drop_ge by (by apply lookup_ge_None).
Qed.

(** While the loop runs, [flushing] stays set. *)
Lemma flush_loop_aborted fuel r e r' :
  flush_loop fuel r = Aborted e r' →
  flushing (sch r') = flushing (sch r) ∧
  index (sch r') < length (queue (sch r')).
Proof.
  revert r. induction fuel as [|n IH]; intros r; simpl.
  all: destruct (queue (sch r) !! index (sch r)) as [wid|] eqn:Hq.
  all: try done.
  destruct (loop_body_spec wid r) as (Hext & _ & _).
  destruct (loop_body wid r) as [c r1]. simpl in *.
  destruct c as [[]|e'].
  - intros Hloop. destruct (IH _ Hloop) as [Hf Hlt]. split; [|done].
    rewrite Hf. unfold sch. simpl. by destruct Hext as (_ & -> & _).
  - intros [= -> ->]. split; [by destruct Hext as (_ & -> & _)|].
    eapply extends_length; [done|]. by eapply lookup_lt_Some.
Qed.

Lemma callActivatedHooks_frame q r :
  sch (callActivatedHooks q r) = sch r ∧
  ran (callActivatedHooks q r) = ran r ∧
  production (rt (callActivatedHooks q r)) = production (rt r).
Proof.
  revert r. induction q as [|v q IH]; intros r; [done|].
  simpl. destruct (IH (Runtime
    (set_vms (alter (λ c, Component (_watcher c) (_watchers c) (_isMounted c)
                (_isDestroyed c) (_isBeingDestroyed c) true) v (vms (rt r))) (rt r))
    (watchers r) (ran r) (hooks r ++ [Activated v]))) as (-> & -> & ->).
  done.
Qed.

Lemma callUpdatedHooks_frame q r :
  sch (callUpdatedHooks q r) = sch r ∧
  ran (callUpdatedHooks q r) = ran r ∧
  production (rt (callUpdatedHooks q r)) = production (rt r).
Proof.
  unfold callUpdatedHooks. generalize (reverse q). clear q. intros q.
  revert r. induction q as [|v q IH]; intros r; [done|].
  simpl. match goal with |- context [foldl _ ?r0 q] =>
    destruct (IH r0) as (-> & -> & ->) end.
  destruct (watchers r !! v) as [w|]; [|done].
  destruct (vms (rt r) !! vm w) as [c|]; [|done].
  by destruct (_ && _).
Qed.

(** The scheduler state left by [resetSchedulerState()]. *)
Definition is_reset (production : bool) (s : queue_state) : Prop :=
  queue s = [] ∧ activatedChildren s = [] ∧ has s = ∅ ∧
  (production = false → circular s = ∅) ∧
  waiting s = false ∧ flushing s = false ∧ index s = 0.

Lemma flush_finish_spec r :
  is_reset (production (rt (flush_finish r))) (sch (flush_finish r)) ∧
  ran (flush_finish r) = ran r.
Proof.
  unfold flush_finish.
  destruct (callUpdatedHooks_frame (queue (sch r))
    (callActivatedHooks (activatedChildren (sch r))
       (set_sch (resetSchedulerState (production (rt r)) (sch r)) r)))
    as (-> & -> & ->).
  destruct (callActivatedHooks_frame (activatedChildren (sch r))
       (set_sch (resetSchedulerState (production (rt r)) (sch r)) r))
    as (-> & -> & ->).
  unfold is_reset, sch. simpl. split_and!; try done.
  by intros ->.
Qed.

Lemma flush_start_spec r :
  StronglySorted (≤) (queue (sch (flush_start r))) ∧
  queue (sch (flush_start r)) ≡ₚ queue (sch r) ∧
  has (sch (flush_start r)) = has (sch r) ∧
  flushing (sch (flush_start r)) = true ∧
  index (sch (flush_start r)) = 0 ∧
  ran (flush_start r) = ran r.
Proof.
  unfold flush_start, sch. simpl. split_and!; try done.
  - apply StronglySorted_merge_sort; apply _.
  - apply merge_sort_Permutation.
Qed.

(** ** The scheduler never reports a cycle *)

Definition loop_state (res : loop_result) : runtime :=
  match res with Finished r | Aborted _ r | OutOfFuel r => r end.

Lemma loop_body_warnings wid r :
  warnings (rt (loop_body wid r).2) = warnings (rt r).
Proof.
  unfold loop_body, call_before, call_run.
  destruct (watchers r !! wid) as [w|] eqn:Hw; [|done].
  destruct (before w) as [hook|].
  - pose proof (apply_effects_warnings queueWatcher (hook (world (rt r))) w (rt r)) as H1.
    destruct (apply_effects _ _ _ _) as [w1 st1]. cbn [fst snd] in *.
    destruct (outcome _) as [[]|e]; [|done].
    cbn [watchers clear_has set_sch]. rewrite lookup_insert_eq.
    match goal with |- context [run _ _ ?w' ?s'] =>
      destruct (run_frame queueWatcher reachable_subjects w' s') as (_ & _ & H2);
      destruct (run queueWatcher reachable_subjects w' s') as [[c w2] st2]
    end.
    cbn [fst snd rt] in *. by rewrite H2.
  - cbn [watchers clear_has set_sch]. rewrite Hw.
    match goal with |- context [run _ _ ?w' ?s'] =>
      destruct (run_frame queueWatcher reachable_subjects w' s') as (_ & _ & H2);
      destruct (run queueWatcher reachable_subjects w' s') as [[c w2] st2]
    end.
    cbn [fst snd rt] in *. by rewrite H2.
Qed.

Lemma flush_loop_silent fuel r :
  circular (sch (loop_state (flush_loop fuel r))) = circular (sch r) ∧
  warnings (rt (loop_state (flush_loop fuel r))) = warnings (rt r).
Proof.
  revert r. induction fuel as [|n IH]; intros r; simpl.
  all: destruct (queue (sch r) !! index (sch r)) as [wid|] eqn:Hq.
  all: try done.
  destruct (loop_body_spec wid r) as ((_ & _ & Hc & _) & _ & _).
  pose proof (loop_body_warnings wid r) as Hw.
  destruct (loop_body wid r) as [c r1]. cbn [fst snd] in *.
  destruct c as [[]|e]; [|done].
  destruct (IH (next_index r1)) as [-> ->]. done.
Qed.

Lemma callActivatedHooks_warnings q r :
  warnings (rt (callActivatedHooks q r)) = warnings (rt r).
Proof.
  revert r. induction q as [|v q IH]; intros r; [done|].
  simpl. by rewrite IH.
Qed.

Lemma callUpdatedHooks_warnings q r :
  warnings (rt (callUpdatedHooks q r)) = warnings (rt r).
Proof.
  unfold callUpdatedHooks. generalize (reverse q). clear q. intros q.
  revert r. induction q as [|v q IH]; intros r; [done|].
  simpl. rewrite IH.
  destruct (watchers r !! v) as [w|]; [|done].
  destruct (vms (rt r) !! vm w) as [c|]; [|done].
  by destruct (_ && _).
Qed.

(** C4.  Neither [flushSchedulerQueue] nor [queueWatcher] ever writes a
    re-entry counter in [circular] or issues a warning: however long a
    flush goes on, and however often a watcher comes back in it, no warning
    is added, no counter is created or changed (the map is at most emptied
    by the final reset), and every iteration of the loop leaves [circular]
    and the warnings as they were. *)
Theorem flush_never_reports_a_cycle (fuel : nat) (r : runtime) :
  warnings (rt (loop_state (flushSchedulerQueue fuel r))) = warnings (rt r) ∧
  (∀ x n, circular (sch (loop_state (flushSchedulerQueue fuel r))) !! x = Some n →
          circular (sch r) !! x = Some n) ∧
  circular (sch (loop_state (flush_loop fuel r))) = circular (sch r) ∧
  warnings (rt (loop_state (flush_loop fuel r))) = warnings (rt r) ∧
  ∀ s wid, circular (queueWatcher wid s) = circular s.
Proof.
  destruct (flush_loop_silent fuel r) as [H1 H2].
  destruct (flush_loop_silent fuel (flush_start r)) as [H3 H4].
  assert (∀ res,
    loop_state (match res with
                | Finished r1 => Finished (flush_finish r1)
                | Aborted e r1 => Aborted e r1
                | OutOfFuel r1 => OutOfFuel r1
                end) = loop_state res ∨
    ∃ r1, res = Finished r1 ∧
          loop_state (match res with
                      | Finished r1 => Finished (flush_finish r1)
                      | Aborted e r1 => Aborted e r1
                      | OutOfFuel r1 => OutOfFuel r1
                      end) = flush_finish r1) as Hcases.
  { intros [r1|e r1|r1]; [right; by exists r1|by left..]. }
  unfold flushSchedulerQueue.
  split_and!; try done.
  - destruct (Hcases (flush_loop fuel (flush_start r))) as [->|(r1 & Hr1 & ->)].
    + by rewrite H4.
    + rewrite Hr1 in H4. simpl in H4. unfold flush_finish.
      by rewrite callUpdatedHooks_warnings, callActivatedHooks_warnings.
  - intros x n.
    destruct (Hcases (flush_loop fuel (flush_start r))) as [->|(r1 & Hr1 & ->)].
    + by rewrite H3.
    + rewrite Hr1 in H3. simpl in H3.
      destruct (callUpdatedHooks_frame (queue (sch r1))
        (callActivatedHooks (activatedChildren (sch r1))
           (set_sch (resetSchedulerState (production (rt r1)) (sch r1)) r1)))
        as (Hs & _ & _).
      destruct (callActivatedHooks_frame (activatedChildren (sch r1))
           (set_sch (resetSchedulerState (production (rt r1)) (sch r1)) r1))
        as (Hs' & _ & _).
      unfold flush_finish. rewrite Hs, Hs'. unfold sch at 1. simpl.
      destruct (production (rt r1)); [|done]. fold (sch r1). by rewrite H3.
  - intros s wid. by destruct (queueWatcher_extends wid s) as (_ & _ & -> & _).
Qed.

(** ** The scheduler after an aborted flush *)

Lemma call_before_sch wid r :
  (∃ qs, sch (call_before wid r).2 = enqueue_all qs (sch r)) ∧
  hooks (call_before wid r).2 = hooks r.
Proof.
  unfold call_before. destruct (watchers r !! wid) as [w|]; [|by split; [exists []|]].
  destruct (before w) as [hook|]; [|by split; [exists []|]].
  pose proof (apply_effects_sch (hook (world (rt r))) w (rt r)) as Hs.
  destruct (apply_effects _ _ _ _) as [w1 st1]. simpl in *.
  split; [|done]. by eexists.
Qed.

Lemma call_run_sch wid r :
  (∃ qs, sch (call_run wid r).2 = enqueue_all qs (sch r)) ∧
  hooks (call_run wid r).2 = hooks r.
Proof.
  unfold call_run. destruct (watchers r !! wid) as [w|]; [|by split; [exists []|]].
  destruct (run_frame queueWatcher reachable_subjects w (rt r)) as (_ & [qs Hs] & _).
  destruct (run _ _ _ _) as [[c w1] st1]. simpl in *.
  split; [|done]. by exists qs.
Qed.

Lemma loop_body_waiting wid r :
  waiting (sch r) = true →
  waiting (sch (loop_body wid r).2) = true ∧
  flush_requests (sch (loop_body wid r).2) = flush_requests (sch r) ∧
  hooks (loop_body wid r).2 = hooks r.
Proof.
  intros Hw. unfold loop_body.
  destruct (call_before_sch wid r) as [[qs Hs] Hh].
  destruct (call_before wid r) as [c1 r1]. simpl in *.
  destruct (enqueue_all_waiting qs _ Hw) as (Hw1 & Hr1 & _).
  rewrite <- Hs in Hw1, Hr1.
  destruct c1 as [[]|e]; [|done].
  destruct (call_run_sch wid (clear_has wid r1)) as [[qs' Hs'] Hh'].
  rewrite Hs', Hh'.
  destruct (enqueue_all_waiting qs' (sch (clear_has wid r1))) as (-> & -> & _);
    [exact Hw1|]. done.
Qed.

Lemma loop_body_hooks wid r : hooks (loop_body wid r).2 = hooks r.
Proof.
  unfold loop_body. destruct (call_before_sch wid r) as [_ Hh].
  destruct (call_before wid r) as [c1 r1]. simpl in *.
  destruct c1 as [[]|e]; [|done].
  by destruct (call_run_sch wid (clear_has wid r1)) as [_ ->].
Qed.

Lemma flush_loop_waiting fuel r :
  waiting (sch r) = true →
  waiting (sch (loop_state (flush_loop fuel r))) = true ∧
  flush_requests (sch (loop_state (flush_loop fuel r))) = flush_requests (sch r) ∧
  hooks (loop_state (flush_loop fuel r)) = hooks r.
Proof.
  revert r. induction fuel as [|n IH]; intros r Hw; simpl.
  all: destruct (queue (sch r) !! index (sch r)) as [wid|]; try done.
  destruct (loop_body_waiting wid r Hw) as (Hw1 & Hr1 & Hh1).
  destruct (loop_body wid r) as [c r1]. simpl in *.
  destruct c as [[]|e]; [|done].
  destruct (IH (next_index r1)) as (-> & -> & ->); done.
Qed.

(** X12.  A flush that was requested through [queueWatcher] and is aborted
    by an exception leaves the scheduler stuck: [flushing] and [waiting]
    both stay set and no lifecycle hook was called, so whatever is enqueued
    afterwards is spliced into the abandoned queue as if the flush were
    still running, and [queueWatcher] never asks [nextTick] for another
    flush. *)
Theorem aborted_flush_blocks_scheduler (fuel : nat) (r r' : runtime) (e : error) :
  flushSchedulerQueue fuel r = Aborted e r' →
  waiting (sch r) = true →
  flushing (sch r') = true ∧ waiting (sch r') = true ∧
  flush_requests (sch r') = flush_requests (sch r) ∧
  hooks r' = hooks r ∧
  ∀ qs,
    flushing (enqueue_all qs (sch r')) = true ∧
    waiting (enqueue_all qs (sch r')) = true ∧
    flush_requests (enqueue_all qs (sch r')) = flush_requests (sch r).
Proof.
  unfold flushSchedulerQueue. intros Hflush Hw.
  destruct (flush_loop fuel (flush_start r)) as [r1|e1 r1|r1] eqn:Hloop;
    try done.
  injection Hflush as -> ->.
  destruct (flush_loop_aborted _ _ _ _ Hloop) as [Hf _].
  destruct (flush_loop_waiting fuel (flush_start r)) as (Hw' & Hr' & Hh'); [done|].
  rewrite Hloop in Hw', Hr', Hh'. simpl in *.
  split_and!; try done.
  intros qs. destruct (enqueue_all_waiting qs _ Hw') as (-> & -> & -> & _).
  by rewrite Hr'.
Qed.

(** ** A flush in which nothing is invalidated *)

(** A watcher that invalidates no watcher when it runs, and whose [run()]
    and [before()] complete normally. *)
Definition quiet (w : Watcher World) : Prop :=
  (∀ wd, queued (getter w wd) = []) ∧
  (∀ v o wd, queued (cb w v o wd) = []) ∧
  (∀ h wd, before w = Some h → queued (h wd) = [] ∧ outcome (h wd) = Normal ()) ∧
  (user w = true ∨
   ((∀ wd, ∃ v, outcome (getter w wd) = Normal v) ∧
    ∀ v o wd, outcome (cb w v o wd) = Normal ())).

Lemma quiet_config w w' : config w' = config w → quiet w → quiet w'.
Proof.
  intros Hc. unfold quiet.
  by rewrite (config_getter _ _ Hc), (config_cb _ _ Hc), (config_before _ _ Hc),
    (config_user _ _ Hc).
Qed.

Lemma run_quiet w st :
  quiet w →
  (run queueWatcher reachable_subjects w st).1.1 = Normal () ∧
  sched (run queueWatcher reachable_subjects w st).2 = sched st ∧
  config (run queueWatcher reachable_subjects w st).1.2 = config w.
Proof.
  intros (Hq1 & Hq2 & _ & Hn).
  destruct (run_frame queueWatcher reachable_subjects w st) as (Hc & _ & _).
  split_and!; [|  |done].
  - destruct Hn as [Hu|[Hg Hcb]]; [by apply run_user|].
    unfold run. destruct (active w); [|done].
    pose proof (get_outcome queueWatcher reachable_subjects w st) as Hout.
    destruct (get_frame queueWatcher reachable_subjects w st) as (Hw & _ & _).
    destruct (Hg (world st)) as [v Hv]. rewrite Hv in Hout.
    destruct (get _ _ w st) as [[r w1] st1]. simpl in *. subst r.
    destruct (_ || _); [|done]. cbv zeta.
    change (cb (set_value v w1)) with (cb w1). rewrite (config_cb _ _ Hw).
    unfold invokeWithErrorHandling. rewrite Hcb.
    by destruct (user w1), (apply_effects _ _ _ _).
  - unfold run. destruct (active w); [|done].
    destruct (get_frame queueWatcher reachable_subjects w st) as (Hw & Hs & _).
    rewrite Hq1 in Hs. simpl in Hs.
    destruct (get _ _ w st) as [[r w1] st1]. simpl in *.
    destruct r as [v|e]; [|done].
    destruct (_ || _); [|done]. cbv zeta.
    change (cb (set_value v w1)) with (cb w1). rewrite (config_cb _ _ Hw).
    unfold invokeWithErrorHandling.
    match goal with
    | |- context [apply_effects queueWatcher ?eff ?w' ?s'] =>
        pose proof (apply_effects_sch eff w' s') as Hs';
        destruct (apply_effects queueWatcher eff w' s') as [w3 st3]
    end.
    rewrite Hq2 in Hs'. simpl in Hs'.
    destruct (user w1), (outcome (cb _ _ _ _)); simpl; congruence.
Qed.

(** The watchers of the queue are there and quiet. *)
Definition all_quiet (r : runtime) : Prop :=
  ∀ x, x ∈ queue (sch r) → ∃ w, watchers r !! x = Some w ∧ quiet w.

Lemma loop_body_quiet wid r :
  all_quiet r → wid ∈ queue (sch r) →
  ∃ r1, loop_body wid r = (Normal (), r1) ∧
        ran r1 = ran r ++ [wid] ∧
        queue (sch r1) = queue (sch r) ∧ index (sch r1) = index (sch r) ∧
        all_quiet r1.
Proof.
  intros Hall Hin. destruct (Hall wid Hin) as (w & Hw & Hq).
  pose proof Hq as (_ & _ & Hb & _).
  assert (∃ w1 st1,
    call_before wid r = (Normal (), Runtime st1 (<[wid := w1]> (watchers r))
                                      (ran r) (hooks r)) ∧
    sched st1 = sch r ∧ quiet w1) as (w1 & st1 & Hcb & Hs1 & Hq1).
  { unfold call_before. rewrite Hw. destruct (before w) as [hook|] eqn:Hbw.
    - destruct (Hb hook (world (rt r)) eq_refl) as [Hqh Hoh].
      pose proof (apply_effects_sch (hook (world (rt r))) w (rt r)) as Hs.
      destruct (apply_effects_frame queueWatcher (hook (world (rt r))) w (rt r))
        as [Hc _].
      destruct (apply_effects _ _ _ _) as [w1 st1]. simpl in *.
      exists w1, st1. rewrite Hoh, Hs, Hqh. split_and!; try done.
      by apply (quiet_config w).
    - exists w, (rt r). rewrite insert_id by done. by destruct r. }
  unfold loop_body. rewrite Hcb.
  set (rc := clear_has wid _).
  assert (queue (sch rc) = queue (sch r) ∧ index (sch rc) = index (sch r) ∧
          ran rc = ran r ∧ watchers rc = <[wid := w1]> (watchers r))
    as (Hqc & Hic & Hrc & Hwc).
  { unfold rc, clear_has, sch. simpl. by rewrite Hs1. }
  clearbody rc. unfold call_run. rewrite Hwc, lookup_insert_eq.
  destruct (run_quiet w1 (rt rc) Hq1) as (Hr & Hs & Hc).
  destruct (run queueWatcher reachable_subjects w1 (rt rc)) as [[c w2] st2].
  simpl in Hr, Hs, Hc. subst c. eexists. split; [reflexivity|].
  assert (∀ ws rn hk, sch (Runtime st2 ws rn hk) = sch rc) as Hsch.
  { intros. unfold sch. simpl. exact Hs. }
  unfold all_quiet. simpl ran. rewrite Hsch, Hrc, Hqc, Hic.
  split_and!; try done.
  intros x Hx. simpl. destruct (decide (x = wid)) as [->|Hne].
  - exists w2. rewrite lookup_insert_eq. split; [done|]. by apply (quiet_config w1).
  - rewrite !lookup_insert_ne by done. by apply Hall.
Qed.

Lemma flush_loop_quiet fuel r :
  all_quiet r →
  length (queue (sch r)) - index (sch r) ≤ fuel →
  ∃ r', flush_loop fuel r = Finished r' ∧
        ran r' = ran r ++ drop (index (sch r)) (queue (sch r)) ∧
        hooks r' = hooks r.
Proof.
  revert r. induction fuel as [|n IH]; intros r Hall Hlen; simpl.
  all: destruct (queue (sch r) !! index (sch r)) as [wid|] eqn:Hq.
  - apply lookup_lt_Some in Hq. lia.
  - exists r. rewrite drop_ge by (by apply lookup_ge_None). by rewrite app_nil_r.
  - destruct (loop_body_quiet wid r Hall) as (r1 & Hb & Hran & Hqu & Hi & Hall1).
    { by eapply list_elem_of_lookup_2. }
    pose proof (loop_body_hooks wid r) as Hh.
    rewrite Hb in Hh |- *. simpl in Hh.
    assert (queue (sch (next_index r1)) = queue (sch r1) ∧
            index (sch (next_index r1)) = S (index (sch r1)) ∧
            ran (next_index r1) = ran r1 ∧ hooks (next_index r1) = hooks r1 ∧
            watchers (next_index r1) = watchers r1)
      as (Hnq & Hni & Hnr & Hnh & Hnw) by done.
    destruct (IH (next_index r1)) as (r' & Hloop & Hran' & Hh').
    { intros x Hx. rewrite Hnw. apply Hall1. by rewrite <- Hnq. }
    { rewrite Hnq, Hni, Hqu, Hi. apply lookup_lt_Some in Hq. lia. }
    exists r'. split; [done|].
    rewrite Hran', Hh', Hnq, Hni, Hnr, Hnh, Hran, Hqu, Hi, Hh, <- app_assoc.
    split; [|done]. f_equal. by rewrite (drop_S _ _ _ Hq).
  - exists r. rewrite drop_ge by (by apply lookup_ge_None). by rewrite app_nil_r.
Qed.

(** X13.  When the watchers of the queue invalidate nothing and their
    [run()] and [before()] complete normally, a flush runs each of them
    exactly once, in ascending order of identifier, as many iterations as
    the queue is long, and then resets the scheduler. *)
Theorem quiet_flush_runs_in_order (fuel : nat) (r : runtime) :
  all_quiet r →
  length (queue (sch r)) ≤ fuel →
  ∃ r', flushSchedulerQueue fuel r = Finished r' ∧
        ran r' = ran r ++ merge_sort (≤) (queue (sch r)) ∧
        is_reset (production (rt r')) (sch r').
Proof.
  intros Hall Hlen. unfold flushSchedulerQueue.
  destruct (flush_start_spec r) as (_ & Hperm & _ & _ & Hi & Hran).
  destruct (flush_loop_quiet fuel (flush_start r)) as (r1 & -> & Hran1 & _).
  { intros x Hx. rewrite Hperm in Hx. destruct (Hall x Hx) as (w & Hw & Hq).
    by exists w. }
  { rewrite Hperm. lia. }
  exists (flush_finish r1). destruct (flush_finish_spec r1) as [Hreset ->].
  split_and!; [done| |done].
  by rewrite Hran1, Hi, Hran.
Qed.

(** ** What the loop has run *)

(** An iteration for a watcher without [before] hook is its [run()], on
    the runtime in which [has[id]] was reset: it completes as [run()] does. *)
Lemma loop_body_run wid r w :
  watchers r !! wid = Some w → before w = None →
  loop_body wid r =
    let res := run queueWatcher reachable_subjects w (rt (clear_has wid r)) in
    (res.1.1,
     Runtime res.2 (<[wid := res.1.2]> (watchers r)) (ran r ++ [wid]) (hooks r)).
Proof.
  intros Hw Hb. unfold loop_body, call_before. rewrite Hw, Hb.
  unfold call_run. cbn [watchers clear_has set_sch]. rewrite Hw.
  by destruct (run queueWatcher reachable_subjects w _) as [[c w1] st1].
Qed.



Lemma call_run_ran wid r :
  ran (call_run wid r).2 = ran r ∨ ran (call_run wid r).2 = ran r ++ [wid].
Proof.
  unfold call_run. destruct (watchers r !! wid) as [w|]; [|by left].
  destruct (run _ _ _ _) as [[c w1] st1]. by right.
Qed.

Lemma pending_ok_clear k wid (s : queue_state) :
  queue s !! k = Some wid → pending_ok k s →
  pending_ok (S k)
    (QueueState (queue s) (activatedChildren s) (<[wid := IsNull]> (has s))
       (circular s) (waiting s) (flushing s) (index s) (flush_requests s)).
Proof.
  intros Hq [Hnd Hhas]. rewrite (drop_S _ _ _ Hq) in Hnd, Hhas.
  apply NoDup_cons in Hnd as [Hnin Hnd]. split; simpl; [done|].
  intros x Hx. rewrite lookup_insert_ne by (intros <-; done).
  apply Hhas. by right.
Qed.

Lemma pending_ok_S k wid (s : queue_state) :
  queue s !! k = Some wid → pending_ok k s → pending_ok (S k) s.
Proof.
  intros Hq [Hnd Hhas]. rewrite (drop_S _ _ _ Hq) in Hnd, Hhas.
  apply NoDup_cons in Hnd as [Hnin Hnd]. split; [done|].
  intros x Hx. apply Hhas. by right.
Qed.

(** One iteration leaves the queue up to the cursor and the cursor as they
    are, runs at most the watcher under the cursor, and leaves those past
    the cursor pending. *)
Lemma loop_body_step wid r :
  queue (sch r) !! index (sch r) = Some wid →
  take (S (index (sch r))) (queue (sch (loop_body wid r).2)) =
    take (S (index (sch r))) (queue (sch r)) ∧
  index (sch (loop_body wid r).2) = index (sch r) ∧
  index (sch r) < length (queue (sch (loop_body wid r).2)) ∧
  (ran (loop_body wid r).2 = ran r ∨ ran (loop_body wid r).2 = ran r ++ [wid]) ∧
  (pending_ok (index (sch r)) (sch r) →
   pending_ok (S (index (sch r))) (sch (loop_body wid r).2)).
Proof.
  intros Hq. pose proof (lookup_lt_Some _ _ _ Hq) as Hlt.
  unfold loop_body.
  destruct (call_before_sch wid r) as [[qs Hs] _].
  destruct (call_before_spec wid r) as [_ Hran].
  destruct (call_before wid r) as [c1 r1]. cbn [fst snd] in *.
  destruct (enqueue_all_prefix qs (sch r) Hlt) as (Ht & Hi & Hl).
  rewrite <- Hs in Ht, Hi, Hl.
  assert (queue (sch r1) !! index (sch r) = Some wid) as Hq1.
  { rewrite <- (lookup_take_lt _ (S (index (sch r)))) by lia.
    rewrite Ht, lookup_take_lt by lia. done. }
  assert (pending_ok (index (sch r)) (sch r) →
          pending_ok (index (sch r)) (sch r1)) as Hp1.
  { intros Hp. rewrite Hs. apply enqueue_all_pending_ok; [done|lia|done]. }
  destruct c1 as [[]|e]; cbn [fst snd].
  2: { split_and!; try done; [by left|].
       intros Hp. apply (pending_ok_S _ wid); [done|by apply Hp1]. }
  set (r2 := clear_has wid r1).
  assert (queue (sch r2) = queue (sch r1) ∧ index (sch r2) = index (sch r1) ∧
          ran r2 = ran r1) as (Hq2 & Hi2 & Hr2) by done.
  destruct (call_run_sch wid r2) as [[qs' Hs'] _].
  destruct (enqueue_all_prefix qs' (sch r2)) as (Ht' & Hi' & Hl').
  { by rewrite Hq2, Hi2, Hi. }
  rewrite <- Hs' in Ht', Hi', Hl'. rewrite Hi2, Hi in Ht', Hi', Hl'.
  rewrite Hq2 in Ht'.
  split_and!.
  - by rewrite Ht', Ht.
  - done.
  - done.
  - destruct (call_run_ran wid r2) as [H|H]; rewrite H, Hr2, Hran; auto.
  - intros Hp. rewrite Hs'. apply enqueue_all_pending_ok.
    + by rewrite Hq2, Hi2, Hi.
    + rewrite Hi2, Hi. lia.
    + apply (pending_ok_clear _ wid (sch r1)); [done|by apply Hp1].
Qed.

(** The watchers of [q] from position [i] to position [j], [j] excluded. *)
Definition segment (i j : nat) (q : list nat) : list nat := take (j - i) (drop i q).

Lemma segment_cons i j q wid :
  q !! i = Some wid → i < j → segment i j q = wid :: segment (S i) j q.
Proof.
  intros Hq Hlt. unfold segment. rewrite (drop_S _ _ _ Hq).
  replace (j - i) with (S (j - S i)) by lia. done.
Qed.

(** The loop runs the watchers of the queue one by one from the cursor on,
    the queue being the one it ends with: [r0] is the runtime when the loop
    test failed, when the iterations were used up, or when the iteration
    that threw began.  Every iteration before that ran its watcher and moved
    the cursor by one; the watchers past the cursor at the start are still
    in the queue, and what was pending stays pending. *)
Lemma flush_loop_segment fuel r :
  ∃ r0,
    index (sch r) ≤ index (sch r0) ∧ index (sch r0) ≤ index (sch r) + fuel ∧
    take (index (sch r)) (queue (sch r0)) = take (index (sch r)) (queue (sch r)) ∧
    ran r0 = ran r ++ segment (index (sch r)) (index (sch r0)) (queue (sch r0)) ∧
    (∀ x, x ∈ drop (index (sch r)) (queue (sch r)) →
          x ∈ drop (index (sch r)) (queue (sch r0))) ∧
    (pending_ok (index (sch r)) (sch r) → pending_ok (index (sch r0)) (sch r0)) ∧
    match flush_loop fuel r with
    | Finished r' => r' = r0 ∧ queue (sch r0) !! index (sch r0) = None
    | OutOfFuel r' =>
        r' = r0 ∧ index (sch r0) = index (sch r) + fuel ∧
        is_Some (queue (sch r0) !! index (sch r0))
    | Aborted e r' =>
        ∃ wid, queue (sch r0) !! index (sch r0) = Some wid ∧
               loop_body wid r0 = (Throw e, r')
    end.
Proof.
  assert (∀ r1 : runtime, segment (index (sch r1)) (index (sch r1)) (queue (sch r1)) = [])
    as Hnil by (intros r1; unfold segment; by rewrite Nat.sub_diag).
  revert r. induction fuel as [|n IH]; intros r; simpl.
  all: destruct (queue (sch r) !! index (sch r)) as [wid|] eqn:Hq.
  1-2,4: exists r; rewrite Hnil, app_nil_r; split_and!; try done; try lia;
    by rewrite ?Nat.add_0_r.
  destruct (loop_body_step wid r Hq) as (Ht & Hi & Hl & _ & Hp).
  destruct (loop_body_spec wid r) as ((_ & _ & _ & _ & Hext) & Hran & _).
  destruct (loop_body wid r) as [c r1] eqn:Hb. cbn [fst snd] in *.
  destruct c as [[]|e].
  2: { exists r. rewrite Hnil, app_nil_r. split_and!; try done; try lia.
       by exists wid. }
  set (r2 := next_index r1).
  assert (queue (sch r2) = queue (sch r1) ∧ index (sch r2) = S (index (sch r)) ∧
          ran r2 = ran r ++ [wid] ∧ sch r2 = sch (next_index r1))
    as (Hq2 & Hi2 & Hr2 & _).
  { split_and!; try done; [by simpl; rewrite <- Hi|by rewrite <- Hran]. }
  destruct (IH r2) as (r0 & Hle & Hle' & Ht0 & Hran0 & Hin0 & Hp0 & Hres).
  rewrite Hi2, Hq2 in *.
  assert (queue (sch r0) !! index (sch r) = Some wid) as Hq0.
  { rewrite <- (lookup_take_lt _ (S (index (sch r)))) by lia.
    rewrite Ht0, Ht, lookup_take_lt by lia. done. }
  exists r0. split_and!; try lia.
  - rewrite <- (take_take_le (queue (sch r0)) (index (sch r)) (S (index (sch r))))
      by lia.
    rewrite Ht0, Ht, take_take_le by lia. done.
  - rewrite Hran0, Hr2, <- app_assoc. f_equal.
    by rewrite (segment_cons (index (sch r)) (index (sch r0)) (queue (sch r0)) wid)
      by (done || lia).
  - intros x Hx. rewrite (drop_S _ _ _ Hq) in Hx.
    rewrite (drop_S _ _ _ Hq0). apply elem_of_cons in Hx as [->|Hx]; [by left|].
    right. apply Hin0. by apply Hext.
  - intros Hpr. apply Hp0.
    destruct (Hp Hpr) as [Hnd Hhas]. split; [done|]. done.
  - fold r2. destruct (flush_loop n r2) as [r'|e r'|r']; [done|done|].
    destruct Hres as (-> & -> & Hs). split_and!; [done|lia|done].
Qed.

(** ** The flush as a whole *)


(** C3.  (1) Enqueueing a watcher whose id is marked in [has] changes
    nothing, and enqueueing keeps the pending part of the queue (the whole
    queue before a flush, the part past the cursor during one) free of
    repetitions and marked in [has].  (2) A flush starts by sorting the queue
    by ascending id.  (3) During a flush a watcher that is not pending is
    inserted past the cursor, before the entries of greater id that follow
    and after an entry of lower or equal id (or right after the cursor), so
    that the part past the cursor stays sorted; it is then past the cursor,
    and later enqueues leave it there.  (4) The loop of the flush runs the
    watchers of the queue one by one from the cursor on, each iteration
    being the [run()] of the watcher under the cursor, and an iteration
    that completes being followed by the test of the next position, in the
    queue as the iteration left it: when it ends because
    the cursor left the queue it has run every watcher from the cursor on,
    those enqueued on the way included; when it is stopped after [fuel]
    iterations it has run exactly the [fuel] watchers from the cursor on;
    when an iteration throws it has run the watchers before that one.  What
    was in the queue past the cursor stays there.  A loop whose watchers
    invalidate nothing and do not throw ends, after as many iterations as
    there are watchers from the cursor on. *)
Theorem queue_discipline :
  (∀ s wid, has s !! wid = Some IsTrue → queueWatcher wid s = s) ∧
  (∀ s wid, flushing s = false →
     pending_ok 0 s → pending_ok 0 (queueWatcher wid s)) ∧
  (∀ s wid, flushing s = true → index s < length (queue s) →
     pending_ok (S (index s)) s →
     pending_ok (S (index s)) (queueWatcher wid s)) ∧
  (∀ r, StronglySorted (≤) (queue (sch (flush_start r))) ∧
        queue (sch (flush_start r)) ≡ₚ queue (sch r) ∧
        ∀ fuel, flushSchedulerQueue fuel r =
                  match flush_loop fuel (flush_start r) with
                  | Finished r1 => Finished (flush_finish r1)
                  | res => res
                  end) ∧
  (∀ s wid, flushing s = true → index s < length (queue s) →
     has s !! wid ≠ Some IsTrue →
     ∃ p, index s < p ∧ p ≤ length (queue s) ∧
          queue (queueWatcher wid s) = take p (queue s) ++ wid :: drop p (queue s) ∧
          Forall (λ x, wid < x) (drop p (queue s)) ∧
          (S (index s) < p → ∃ x, queue s !! (p - 1) = Some x ∧ x ≤ wid) ∧
          (StronglySorted (≤) (drop (S (index s)) (queue s)) →
           StronglySorted (≤) (drop (S (index s)) (queue (queueWatcher wid s)))) ∧
          wid ∈ drop (S (index s)) (queue (queueWatcher wid s))) ∧
  (∀ s wid, index (queueWatcher wid s) = index s ∧
     ∀ k x, x ∈ drop k (queue s) → x ∈ drop k (queue (queueWatcher wid s))) ∧
  (∀ fuel r r', flush_loop fuel r = Finished r' →
     ∃ l, ran r' = ran r ++ l ∧
          ∀ x, x ∈ drop (index (sch r)) (queue (sch r)) → x ∈ l) ∧
  (∀ wid r w, watchers r !! wid = Some w → before w = None →
     loop_body wid r =
       let res := run queueWatcher reachable_subjects w (rt (clear_has wid r)) in
       (res.1.1,
        Runtime res.2 (<[wid := res.1.2]> (watchers r)) (ran r ++ [wid])
                (hooks r))) ∧
  (∀ n r wid r1, queue (sch r) !! index (sch r) = Some wid →
     loop_body wid r = (Normal (), r1) →
     flush_loop (S n) r = flush_loop n (next_index r1)) ∧
  (∀ fuel r,
     let i := index (sch r) in
     ∃ r0,
       i ≤ index (sch r0) ∧
       take i (queue (sch r0)) = take i (queue (sch r)) ∧
       ran r0 = ran r ++ take (index (sch r0) - i) (drop i (queue (sch r0))) ∧
       (∀ x, x ∈ drop i (queue (sch r)) → x ∈ drop i (queue (sch r0))) ∧
       match flush_loop fuel r with
       | Finished r' =>
           r' = r0 ∧ length (queue (sch r0)) ≤ index (sch r0) ∧
           (i ≤ length (queue (sch r)) → ran r' = ran r ++ drop i (queue (sch r')))
       | OutOfFuel r' =>
           r' = r0 ∧ index (sch r0) = i + fuel ∧
           index (sch r0) < length (queue (sch r0)) ∧
           ran r' = ran r ++ take fuel (drop i (queue (sch r')))
       | Aborted e r' =>
           ∃ wid, queue (sch r0) !! index (sch r0) = Some wid ∧
                  loop_body wid r0 = (Throw e, r')
       end) ∧
  (∀ fuel r,
     all_quiet r → length (queue (sch r)) - index (sch r) ≤ fuel →
     ∃ r', flush_loop fuel r = Finished r' ∧
           ran r' = ran r ++ drop (index (sch r)) (queue (sch r))).
Proof.
  split_and!.
  - apply queueWatcher_pending.
  - intros s wid Hf. apply queueWatcher_pending_ok. lia.
  - intros s wid Hf Hlt. apply queueWatcher_pending_ok.
    by apply enqueue_position_gt.
  - intros r. destruct (flush_start_spec r) as (H1 & H2 & _).
    split_and!; try done.
  - intros s wid Hf Hlt Hn. apply has_null_true in Hn.
    pose proof (enqueue_position_le s wid) as Hle.
    pose proof (enqueue_position_gt s wid Hlt) as Hgt.
    exists (enqueue_position s wid).
    rewrite queueWatcher_queue by done. split_and!; try done.
    + unfold enqueue_position in *. rewrite Hf in *. simpl in *.
      apply Forall_forall. intros x [j Hj]%list_elem_of_lookup.
      rewrite lookup_drop in Hj.
      destruct (insert_position_skipped (queue s) (index s) wid
                  (length (queue s)) (insert_position (queue s) (index s) wid
                  (length (queue s)) + j))
        as (y & Hy & Hwy); [lia|by eapply lookup_lt_Some|].
      congruence.
    + unfold enqueue_position in *. rewrite Hf in *. simpl in *. intros Hp.
      destruct (insert_position (queue s) (index s) wid (length (queue s)))
        as [|i] eqn:Hpos; [lia|].
      simpl. rewrite Nat.sub_0_r.
      apply (insert_position_stop _ _ _ _ _ Hpos); lia.
    + intros Hs. pose proof (queueWatcher_sorted wid s Hf Hlt Hs) as H.
      by rewrite queueWatcher_queue in H.
    + rewrite splice_in_drop_Permutation by lia. set_solver.
  - intros s wid.
    destruct (queueWatcher_extends wid s) as (Hi & _ & _ & _ & Hq). done.
  - apply flush_loop_runs_pending.
  - apply loop_body_run.
  - intros n r wid r1 Hq Hb. simpl. by rewrite Hq, Hb.
  - intros fuel r i.
    destruct (flush_loop_segment fuel r)
      as (r0 & Hle & _ & Ht & Hran & Hin & _ & Hres).
    exists r0. fold i in Hle, Ht, Hran, Hin, Hres. unfold segment in Hran.
    split_and!; try done.
    destruct (flush_loop fuel r) as [r'|e r'|r']; [| done |].
    + destruct Hres as [-> Hnone]. apply lookup_ge_None in Hnone.
      split_and!; try done. intros Hi. rewrite Hran. f_equal.
      apply take_ge. rewrite length_drop. lia.
    + destruct Hres as (-> & Hidx & Hsome). apply lookup_lt_is_Some in Hsome.
      split_and!; try done. rewrite Hran. do 2 f_equal. lia.
  - intros fuel r Hall Hlen.
    destruct (flush_loop_quiet fuel r Hall Hlen) as (r' & H1 & H2 & _).
    by exists r'.
Qed.

(** ** The lifecycle hooks of a flush *)

(** The [updated] hook a watcher of the queue gives rise to: the one of
    its component, if the watcher is the component's render watcher and the
    component is mounted and not destroyed. *)
Definition updated_hook (r : runtime) (wid : nat) : option hook_call :=
  match watchers r !! wid with
  | Some w =>
      match vms (rt r) !! vm w with
      | Some c =>
          if bool_decide (_watcher c = Some wid) && _isMounted c
             && negb (_isDestroyed c)
          then Some (Updated (vm w)) else None
      | None => None
      end
  | None => None
  end.

Lemma callUpdatedHooks_hooks q r :
  hooks (callUpdatedHooks q r) = hooks r ++ omap (updated_hook r) (reverse q) ∧
  rt (callUpdatedHooks q r) = rt r ∧
  watchers (callUpdatedHooks q r) = watchers r.
Proof.
  unfold callUpdatedHooks. generalize (reverse q). clear q. intros q.
  induction q as [|x q IH] using rev_ind.
  - simpl. by rewrite app_nil_r.
  - rewrite foldl_app, omap_app. simpl. destruct IH as (Hh & Hrt & Hw).
    unfold updated_hook. rewrite Hw, Hrt.
    destruct (watchers r !! x) as [w|]; [|by rewrite !app_nil_r].
    destruct (vms (rt r) !! vm w) as [c|]; [|by rewrite !app_nil_r].
    destruct (_ && _); simpl; [|by rewrite !app_nil_r].
    by rewrite Hh, app_assoc.
Qed.

(** [vm._inactive = true] *)
Definition deactivated (c : component) : component :=
  Component (_watcher c) (_watchers c) (_isMounted c) (_isDestroyed c)
            (_isBeingDestroyed c) true.

Lemma callActivatedHooks_hooks q r :
  hooks (callActivatedHooks q r) = hooks r ++ (Activated <$> q) ∧
  watchers (callActivatedHooks q r) = watchers r ∧
  ∀ v, vms (rt (callActivatedHooks q r)) !! v =
       (λ c, if decide (v ∈ q) then deactivated c else c) <$> vms (rt r) !! v.
Proof.
  unfold callActivatedHooks. induction q as [|x q IH] using rev_ind.
  - simpl. rewrite app_nil_r. split_and!; try done.
    intros v. by destruct (vms (rt r) !! v) as [c|].
  - rewrite foldl_app, fmap_app. simpl. destruct IH as (Hh & Hw & Hv).
    rewrite Hh, Hw, app_assoc. split_and!; try done.
    intros v. destruct (decide (x = v)) as [->|Hne].
    + rewrite lookup_alter_eq, Hv.
      destruct (vms (rt r) !! v) as [c|]; simpl; [|done].
      rewrite (decide_True (P := v ∈ q ++ [v])) by set_solver.
      by destruct (decide (v ∈ q)).
    + rewrite lookup_alter_ne, Hv by done.
      destruct (vms (rt r) !! v) as [c|]; simpl; [|done].
      destruct (decide (v ∈ q)) as [Hin|Hnin].
      * by rewrite decide_True by set_solver.
      * by rewrite decide_False by set_solver.
Qed.

(** X14.  The loop of a flush calls no lifecycle hook.  What follows it
    calls, after the scheduler state was reset, the activation hook of every
    component queued by [queueActivatedComponent], in queueing order and
    with its [_inactive] flag set, and then the [updated] hooks of the
    watchers of the queue in reverse order, last watcher first, for the
    render watchers of mounted and not destroyed components only. *)
Theorem flush_calls_hooks_after_reset (fuel : nat) (r : runtime) :
  hooks (loop_state (flush_loop fuel r)) = hooks r ∧
  hooks (flush_finish r) =
    hooks r ++ (Activated <$> activatedChildren (sch r)) ++
    omap (updated_hook r) (reverse (queue (sch r))) ∧
  (∀ v, vms (rt (flush_finish r)) !! v =
        (λ c, if decide (v ∈ activatedChildren (sch r)) then deactivated c else c)
          <$> vms (rt r) !! v) ∧
  (∀ v, let r1 := queueActivatedComponent v r in
        activatedChildren (sch r1) = activatedChildren (sch r) ++ [v] ∧
        (∀ c, vms (rt r) !! v = Some c →
              _inactive <$> vms (rt r1) !! v = Some false)).
Proof.
  split_and!.
  - revert r. induction fuel as [|n IH]; intros r; simpl.
    all: destruct (queue (sch r) !! index (sch r)) as [wid|]; try done.
    pose proof (loop_body_hooks wid r) as Hh.
    destruct (loop_body wid r) as [c r1]. simpl in *.
    destruct c as [[]|e]; [|done]. by rewrite IH.
  - unfold flush_finish.
    set (r1 := set_sch _ r).
    destruct (callActivatedHooks_hooks (activatedChildren (sch r)) r1)
      as (Hh & Hw & Hv).
    destruct (callUpdatedHooks_hooks (queue (sch r))
                (callActivatedHooks (activatedChildren (sch r)) r1))
      as (-> & _ & _).
    rewrite Hh, <- app_assoc. f_equal. f_equal.
    apply list_omap_ext, Forall2_same_length_lookup_2; [done|].
    intros i wid y Hx Hy. assert (wid = y) as <- by congruence. clear Hx Hy.
    unfold updated_hook. rewrite Hw. simpl.
    destruct (watchers r !! wid) as [w|]; [|done].
    rewrite Hv. simpl. destruct (vms (rt r) !! vm w) as [c|]; simpl; [|done].
    by destruct (decide _).
  - intros v. unfold flush_finish.
    set (r1 := set_sch _ r).
    destruct (callActivatedHooks_hooks (activatedChildren (sch r)) r1)
      as (_ & _ & Hv).
    destruct (callUpdatedHooks_hooks (queue (sch r))
                (callActivatedHooks (activatedChildren (sch r)) r1))
      as (_ & -> & _).
    by rewrite Hv.
  - intros v. unfold queueActivatedComponent, sch. simpl. split; [done|].
    intros c Hc. by rewrite lookup_alter_eq, Hc.
Qed.

End with_world.
Arguments runtime : clear implicits.
Arguments loop_result : clear implicits.

(** ** Concrete flushes *)
Module examples.

Definition no_subjects (_ : unit) (_ : nat) : list nat := [].

Definition quiet_cb (_ _ : jsvalue) (w : unit) : effects unit unit :=
  Effects [] [] w (Normal ()).

(** A render-like (non-user) watcher whose getter throws. *)
Definition thrower (i : nat) (u : bool) : Watcher unit :=
  mkWatcher 0 i false u false false None quiet_cb
    (λ w, Effects [] [] w (Throw "boom")) true false [] [] ∅ ∅ VUndefined.

(** A watcher whose getter returns a number. *)
Definition constant (i : nat) (z : Z) : Watcher unit :=
  mkWatcher 0 i false false false false None quiet_cb
    (λ w, Effects [] [] w (Normal (VNumber (Num z)))) true false [] [] ∅ ∅
    VUndefined.

(** Watchers 1 and 2 are pending and a flush has been requested. *)
Definition two_pending (w1 w2 : Watcher unit) : runtime unit :=
  Runtime
    (State () (QueueState [1; 2] [] {[1 := IsTrue; 2 := IsTrue]} ∅ true false 0 1)
           ∅ [] [] [] [] 2 false ∅)
    {[1 := w1; 2 := w2]} [] [].


(** The same flush when watcher 1 is a user watcher: the error is reported
    and watcher 2 runs. *)
Lemma flush_survives_user_watcher :
  ∃ r', flushSchedulerQueue no_subjects 5 (two_pending (thrower 1 true) (constant 2 7))
          = Finished r' ∧
        ran r' = [1; 2] ∧
        handled (rt r') = [Report "boom" 0 getter_info] ∧
        queue (sch r') = [] ∧ flushing (sch r') = false ∧ waiting (sch r') = false.
Proof. eexists. split; [vm_compute; reflexivity|]. by vm_compute. Qed.

(** The scheduler while the watcher at position [i] of [q] runs: those
    after it are pending. *)
Definition flushing_at (q : list nat) (i : nat) : queue_state :=
  QueueState q [] (list_to_map ((λ x, (x, IsTrue)) <$> drop (S i) q)) ∅
             true true i 1.

(** While watcher 1 of the queue [1; 3; 5] runs: watcher 4 goes between 3
    and 5, watcher 0 and watcher 1 itself go right after the cursor, and
    watcher 3, which is pending, is not added again. *)
Lemma enqueue_during_flush :
  queue (queueWatcher 4 (flushing_at [1; 3; 5] 0)) = [1; 3; 4; 5] ∧
  queue (queueWatcher 0 (flushing_at [1; 3; 5] 0)) = [1; 0; 3; 5] ∧
  queue (queueWatcher 1 (flushing_at [1; 3; 5] 0)) = [1; 1; 3; 5] ∧
  queue (queueWatcher 3 (flushing_at [1; 3; 5] 0)) = [1; 3; 5] ∧
  queue (queueWatcher 6 (flushing_at [1; 3; 5] 2)) = [1; 3; 5; 6] ∧
  queue (queueWatcher 2 (flushing_at [1; 3; 5] 2)) = [1; 3; 5; 2].
Proof. vm_compute. by repeat split. Qed.

(** Watcher 1 invalidates watcher 2 while it runs in a flush of the queue
    [1; 3]: watcher 2 runs in the same flush, before watcher 3. *)
Definition invalidating (i : nat) (qs : list nat) : Watcher unit :=
  mkWatcher 0 i false false false false None quiet_cb
    (λ w, Effects [] qs w (Normal VUndefined)) true false [] [] ∅ ∅ VUndefined.

Lemma enqueued_watcher_runs_in_same_flush :
  ∃ r',
    flushSchedulerQueue no_subjects 5
      (Runtime
         (State () (QueueState [3; 1] [] {[1 := IsTrue; 3 := IsTrue]} ∅ true false 0 1)
                ∅ [] [] [] [] 3 false ∅)
         {[1 := invalidating 1 [2]; 2 := constant 2 0; 3 := constant 3 0]} [] [])
      = Finished r' ∧
    ran r' = [1; 2; 3] ∧ queue (sch r') = [] ∧ has (sch r') = ∅.
Proof. eexists. split; [vm_compute; reflexivity|]. by vm_compute. Qed.

(** A watcher whose getter invalidates the watcher itself. *)
Definition self_invalidating : Watcher unit :=
  mkWatcher 0 1 false false false false None quiet_cb
    (λ w, Effects [] [1] w (Normal VUndefined)) true false [] [] ∅ ∅ VUndefined.

(** The watcher is pending, development mode. *)
Definition runaway : runtime unit :=
  Runtime
    (State () (QueueState [1] [] {[1 := IsTrue]} ∅ true false 0 1)
           ∅ [] [] [] [] 1 false ∅)
    {[1 := self_invalidating]} [] [].

(** In development mode, after [MAX_UPDATE_COUNT + 1] iterations of one
    flush the watcher has run that many times, is pending again, and nothing
    was counted or reported. *)
Lemma runaway_update_is_not_reported :
  ∃ r', flushSchedulerQueue no_subjects (S MAX_UPDATE_COUNT) runaway = OutOfFuel r' ∧
        production (rt r') = false ∧
        ran r' = replicate (S MAX_UPDATE_COUNT) 1 ∧
        has (sch r') !! 1 = Some IsTrue ∧
        circular (sch r') = ∅ ∧
        warnings (rt r') = [] ∧
        handled (rt r') = [].
Proof. eexists. split; [vm_compute; reflexivity|]. by vm_compute. Qed.

(** Nothing is pending and no flush is awaited. *)
Definition idle : queue_state := QueueState [] [] ∅ ∅ false false 0 0.

(** Watchers 3, 1 and 2 are enqueued once each, in the order of their first
    enqueue, and one flush is requested. *)
Lemma enqueue_keeps_first_occurrences_witness :
  queue (enqueue_all [3; 1; 3; 2; 1] idle) = [3; 1; 2] ∧
  waiting (enqueue_all [3; 1; 3; 2; 1] idle) = true ∧
  flush_requests (enqueue_all [3; 1; 3; 2; 1] idle) = 1.
Proof.
  assert (Hm : has_matches_queue idle).
  { intros x. split; [discriminate|]. intros H. by apply elem_of_nil in H. }
  destruct (enqueue_keeps_first_occurrences [3; 1; 3; 2; 1] idle eq_refl Hm)
    as (Hq & _ & _ & _ & Hw & Hr).
  split; [exact Hq|]. split; [exact Hw|exact Hr].
Defined.

(** After the flush that watcher 1 aborted, nothing that is enqueued
    requests a flush. *)
Lemma aborted_flush_blocks_scheduler_witness :
  let r' := loop_state (flushSchedulerQueue no_subjects 5
                          (two_pending (thrower 1 false) (constant 2 7))) in
  flushing (sch r') = true ∧
  ∀ qs, flush_requests (enqueue_all qs (sch r')) = 1.
Proof.
  intros r'.
  assert (H : flushSchedulerQueue no_subjects 5
                (two_pending (thrower 1 false) (constant 2 7))
              = Aborted "boom" r') by (vm_compute; reflexivity).
  destruct (aborted_flush_blocks_scheduler no_subjects 5 _ r' "boom" H eq_refl)
    as (Hf & _ & _ & _ & Hq).
  split; [exact Hf|]. intros qs. exact (proj2 (proj2 (Hq qs))).
Defined.

(** Watchers 3 and 1 are pending, enqueued in that order. *)
Definition unsorted_pending : runtime unit :=
  Runtime
    (State () (QueueState [3; 1] [] {[1 := IsTrue; 3 := IsTrue]} ∅ true false 0 1)
           ∅ [] [] [] [] 3 false ∅)
    {[1 := constant 1 0; 3 := constant 3 7]} [] [].

Lemma constant_quiet i z : quiet (constant i z).
Proof.
  unfold quiet, constant. simpl. split_and!; try done.
  right. split; [|done]. intros _. by eexists.
Qed.

(** The flush runs watcher 1 before watcher 3. *)
Lemma quiet_flush_runs_in_order_witness :
  ∃ r', flushSchedulerQueue no_subjects 2 unsorted_pending = Finished r' ∧
        ran r' = [1; 3].
Proof.
  assert (Hq : all_quiet unsorted_pending).
  { intros x Hx. apply list_elem_of_In in Hx. simpl in Hx.
    destruct Hx as [<-|[<-|[]]]; eexists; (split; [vm_compute; reflexivity|]);
      apply constant_quiet. }
  destruct (quiet_flush_runs_in_order no_subjects 2 unsorted_pending Hq (le_n 2))
    as (r' & Hr & Hran & _).
  exists r'. split; [exact Hr|exact Hran].
Defined.

End examples.
End scheduler.

(** * observer/index.js and observer/array.js *)
Module observer.

(** How a call ends: with a value and a store, with a thrown error and the
    store reached, or without an answer within the recursion depth
    allowed.  A call that uses up every recursion depth is one that never
    completes normally: on an engine it ends when the stack is exhausted,
    with a [RangeError]. *)
Inductive result (S A : Type) : Type :=
| Ok (a : A) (st : S)
| Thrown (e : error) (st : S)
| Diverged.
Arguments Ok {S A} a st.
Arguments Thrown {S A} e st.
Arguments Diverged {S A}.

(** ** Objects *)

(** What [Array.isArray], [isPlainObject] and [instanceof VNode] tell apart. *)
Inductive kind := KPlain | KArray | KVNode | KOther.
Global Instance kind_eq_dec : EqDecision kind.
Proof. solve_decision. Defined.

(** An [Observer] instance; its [value] is the object that carries it. *)
Record Observer := mkObserver { ob_dep : nat; vmCount : nat }.

(** The seven methods of [methodsToPatch]. *)
Inductive method := push | pop | shift | unshift | splice | sort | reverse_.

(** Ghost record of a call [notify()] on the subject [d], with the value
    of [uid] at the call: the number of subjects created before it. *)
Inductive event := Notified (d : nat) (uid : nat).

Section with_world.
Context {World : Type}.

(** The functions found in property descriptors: functions of user code,
    and the [reactiveGetter] and [reactiveSetter] closures of a call of
    [defineReactive], which is identified by the [dep] it created. *)
Inductive getter_fn := UserGetter (g : World → jsvalue) | ReactiveGetter (d : nat).
Inductive setter_fn := UserSetter (s : jsvalue → World → World) | ReactiveSetter (d : nat).

(** An own property: a data property or an accessor pair. *)
Inductive prop :=
| Data (v : jsvalue) (configurable : bool)
| Accessor (get : option getter_fn) (set : option setter_fn) (configurable : bool).

(** The variables closed over by [reactiveGetter] and [reactiveSetter]. *)
Record closure := Closure {
  c_val : jsvalue;
  c_childOb : option nat;
  c_shallow : bool;
  c_getter : option getter_fn;
  c_setter : option setter_fn
}.

(** The accessor pair installed by [defineReactive]. *)
Definition reactive (d : nat) : prop :=
  Accessor (Some (ReactiveGetter d)) (Some (ReactiveSetter d)) true.

Definition prop_configurable (p : prop) : bool :=
  match p with Data _ c | Accessor _ _ c => c end.
Definition prop_get (p : prop) : option getter_fn :=
  match p with Data _ _ => None | Accessor g _ _ => g end.
Definition prop_set (p : prop) : option setter_fn :=
  match p with Data _ _ => None | Accessor _ s _ => s end.

(** An object of the store.  [fields] are its own enumerable properties in
    the order of their creation, which is the order of [Object.keys] as
    long as no key is an integer index (those come first there); [items]
    are the elements of an array, [inherited] the names found through its
    prototype chain below [Object.prototype], [__ob__] and [_isVue] not
    being among them; [__ob__] is the hidden own property of that name when
    it holds an [Observer]; [augmented] tells that the mutating methods are
    those of [arrayMethods]. *)
Record object := mkObject {
  okind : kind;
  extensible : bool;
  _isVue : bool;
  fields : list (string * prop);
  items : list jsvalue;
  inherited : list string;
  __ob__ : option Observer;
  augmented : bool
}.

(** A reference without object in the store denotes a host object the
    model does not describe: it is neither an array nor a plain object. *)
Record store := Store {
  objects : gmap nat object;
  closures : gmap nat closure;
  (** [uid] of dep.js *)
  dep_uid : nat;
  (** [Dep.target] *)
  target : option nat;
  (** ghost: the subjects whose [depend()] reached a target, and those on
      which [notify()] was called *)
  depended : list nat;
  notified : list nat;
  (** ghost: the [notify()] calls in order, each with the [uid] of its time *)
  trace : list event;
  shouldObserve : bool;
  world : World
}.

(** ** A state and error monad *)

Definition M (A : Type) : Type := store → result store A.

Definition ret {A} (a : A) : M A := λ st, Ok a st.
Definition bind {A B} (m : M A) (f : A → M B) : M B :=
  λ st, match m st with
        | Ok a st' => f a st'
        | Thrown e st' => Thrown e st'
        | Diverged => Diverged
        end.
Definition throw {A} (e : error) : M A := λ st, Thrown e st.
Definition diverge {A} : M A := λ _, Diverged.
Definition gets {A} (f : store → A) : M A := λ st, Ok (f st) st.
Definition modify (f : store → store) : M unit := λ st, Ok () (f st).

Notation "'let!' x := m 'in' f" := (bind m (λ x, f))
  (at level 10, x name, m at level 100, f at level 200).
Notation "m ;;; f" := (bind m (λ _, f))
  (at level 100, f at level 200, right associativity).

(** A [for] loop over a list, left to right. *)
Fixpoint for_each {A} (f : A → M unit) (l : list A) : M unit :=
  match l with
  | [] => ret ()
  | x :: l => f x ;;; for_each f l
  end.

Definition type_error : error := "TypeError".

Definition set_objects (m : gmap nat object) (st : store) : store :=
  Store m (closures st) (dep_uid st) (target st) (depended st) (notified st)
        (trace st) (shouldObserve st) (world st).
Definition set_closures (m : gmap nat closure) (st : store) : store :=
  Store (objects st) m (dep_uid st) (target st) (depended st) (notified st)
        (trace st) (shouldObserve st) (world st).
Definition set_world (w : World) (st : store) : store :=
  Store (objects st) (closures st) (dep_uid st) (target st) (depended st)
        (notified st) (trace st) (shouldObserve st) w.

(** [toggleObserving(value)] *)
Definition toggleObserving (b : bool) : M unit :=
  modify (λ st, Store (objects st) (closures st) (dep_uid st) (target st)
                      (depended st) (notified st) (trace st) b (world st)).

Definition get_object (a : nat) : M (option object) :=
  gets (λ st, objects st !! a).
Definition put_object (a : nat) (o : object) : M unit :=
  modify (λ st, set_objects (<[a := o]> (objects st)) st).
Definition get_closure (d : nat) : M (option closure) :=
  gets (λ st, closures st !! d).
Definition put_closure (d : nat) (c : closure) : M unit :=
  modify (λ st, set_closures (<[d := c]> (closures st)) st).

Definition set_fields (fs : list (string * prop)) (o : object) : object :=
  mkObject (okind o) (extensible o) (_isVue o) fs (items o) (inherited o)
           (__ob__ o) (augmented o).
Definition set_items (l : list jsvalue) (o : object) : object :=
  mkObject (okind o) (extensible o) (_isVue o) (fields o) l (inherited o)
           (__ob__ o) (augmented o).
Definition set_ob (ob : Observer) (o : object) : object :=
  mkObject (okind o) (extensible o) (_isVue o) (fields o) (items o) (inherited o)
           (Some ob) (augmented o).
Definition set_augmented (o : object) : object :=
  mkObject (okind o) (extensible o) (_isVue o) (fields o) (items o) (inherited o)
           (__ob__ o) true.

Fixpoint field (key : string) (fs : list (string * prop)) : option prop :=
  match fs with
  | [] => None
  | (k, q) :: fs => if decide (k = key) then Some q else field key fs
  end.

(** Redefine an own property in place, or add it as the one created
    last. *)
Fixpoint define_field (key : string) (p : prop) (fs : list (string * prop))
  : list (string * prop) :=
  match fs with
  | [] => [(key, p)]
  | (k, q) :: fs => if decide (k = key) then (k, p) :: fs
                    else (k, q) :: define_field key p fs
  end.

(** ** The dependency subject (dep.js) *)

(** Modelled from the spec: [new Dep()] (src/core/observer/dep.js) creates
    a subject with the next identifier. *)
Definition newDep : M nat :=
  λ st, Ok (dep_uid st)
           (Store (objects st) (closures st) (S (dep_uid st)) (target st)
                  (depended st) (notified st) (trace st) (shouldObserve st)
                  (world st)).

(** Modelled from the spec: [Dep.depend] (src/core/observer/dep.js) hands
    the subject to the active subscriber, if there is one. *)
Definition depend (d : nat) : M unit :=
  modify (λ st,
    match target st with
    | Some _ => Store (objects st) (closures st) (dep_uid st) (target st)
                      (depended st ++ [d]) (notified st) (trace st)
                      (shouldObserve st)
                      (world st)
    | None => st
    end).

(** Modelled from the spec: [Dep.notify] (src/core/observer/dep.js) asks
    every subscriber of the subject to update; the call is recorded. *)
Definition notify (d : nat) : M unit :=
  modify (λ st, Store (objects st) (closures st) (dep_uid st) (target st)
                      (depended st) (notified st ++ [d])
                      (trace st ++ [Notified d (dep_uid st)]) (shouldObserve st)
                      (world st)).

(** [ob.dep.depend()] for the observer carried by the object at [a] *)
Definition depend_ob (a : nat) : M unit :=
  let! o := get_object a in
  match o ≫= __ob__ with
  | Some ob => depend (ob_dep ob)
  | None => ret ()
  end.

(** ** Reading *)

(** [dependArray(value)] *)
Fixpoint dependArray (fuel : nat) (l : list jsvalue) : M unit :=
  match fuel with
  | 0 => diverge
  | S n =>
      for_each (λ e,
        match e with
        | VObject a =>
            let! o := get_object a in
            match o with
            | Some o =>
                match __ob__ o with
                | Some ob => depend (ob_dep ob)
                | None => ret ()
                end ;;;
                if decide (okind o = KArray) then dependArray n (items o)
                else ret ()
            | None => ret ()
            end
        | _ => ret ()
        end) l
  end.

(** Calling a getter found in a property descriptor; for the closure of
    [defineReactive] this is [reactiveGetter]. *)
Fixpoint call_getter (fuel : nat) (g : getter_fn) : M jsvalue :=
  match fuel with
  | 0 => diverge
  | S n =>
      match g with
      | UserGetter f => gets (λ st, f (world st))
      | ReactiveGetter d =>
          let! c := get_closure d in
          match c with
          | None => throw type_error
          | Some c =>
              let! value :=
                match c_getter c with
                | Some g' => call_getter n g'
                | None => ret (c_val c)
                end in
              let! t := gets target in
              match t with
              | Some _ =>
                  depend d ;;;
                  match c_childOb c with
                  | Some child =>
                      depend_ob child ;;;
                      match value with
                      | VObject a =>
                          let! o := get_object a in
                          match o with
                          | Some o =>
                              if decide (okind o = KArray)
                              then dependArray n (items o) else ret ()
                          | None => ret ()
                          end
                      | _ => ret ()
                      end
                  | None => ret ()
                  end
              | None => ret ()
              end ;;;
              ret value
          end
      end
  end.

(** [obj[key]] for a key that names a property of [fields], or no
    property at all: neither a hidden one, nor an element of an array, nor
    one found through the prototype chain. *)
Definition read_field (fuel : nat) (a : nat) (key : string) : M jsvalue :=
  let! o := get_object a in
  match o ≫= (λ o, field key (fields o)) with
  | Some (Data v _) => ret v
  | Some (Accessor (Some g) _ _) => call_getter fuel g
  | Some (Accessor None _ _) => ret VUndefined
  | None => ret VUndefined
  end.

(** ** Reasoning about monadic code *)

(** [R] holds of the store a call ends with, if it ends. *)
Definition post {A} (R : store → Prop) (r : result store A) : Prop :=
  match r with
  | Ok _ st' | Thrown _ st' => R st'
  | Diverged => True
  end.

Lemma post_bind {A B} (R : relation store) `{!Transitive R}
    (m : M A) (f : A → M B) st :
  post (R st) (m st) →
  (∀ a st1, m st = Ok a st1 → post (R st1) (f a st1)) →
  post (R st) (bind m f st).
Proof.
  intros Hm Hf. unfold bind. destruct (m st) as [a st1| |] eqn:Heq; [|done..].
  specialize (Hf a st1 eq_refl). simpl in Hm.
  destruct (f a st1); simpl in *; try done; by etrans.
Qed.

Lemma post_bind_from {A B} (R : store → Prop) (m : M A) (f : A → M B) st :
  post R (m st) →
  (∀ a st1, m st = Ok a st1 → R st1 → post R (f a st1)) →
  post R (bind m f st).
Proof.
  intros Hm Hf. unfold bind. destruct (m st) as [a st1| |] eqn:Heq; [|done..].
  by apply Hf.
Qed.

Lemma post_trans {A} (R : relation store) `{!Transitive R} st st1 (r : result store A) :
  R st st1 → post (R st1) r → post (R st) r.
Proof. intros H. destruct r; simpl; try done; intros; by etrans. Qed.

Lemma post_mono {A} (R R' : store → Prop) (r : result store A) :
  (∀ st, R st → R' st) → post R r → post R' r.
Proof. intros H. destruct r; simpl; auto. Qed.

Lemma post_for_each {A} (R : relation store) `{!PreOrder R}
    (f : A → M unit) l st :
  (∀ x st1, x ∈ l → post (R st1) (f x st1)) →
  post (R st) (for_each f l st).
Proof.
  revert st. induction l as [|x l IH]; intros st Hf; simpl; [done|].
  apply post_bind; [apply _|apply Hf; left|].
  intros _ st1 _. apply IH. intros y st2 Hy. apply Hf. by right.
Qed.

Lemma bind_Ok {A B} (m : M A) (f : A → M B) st b st' :
  bind m f st = Ok b st' ↔ ∃ a st1, m st = Ok a st1 ∧ f a st1 = Ok b st'.
Proof.
  unfold bind. destruct (m st) as [a st1| |]; split; try naive_solver.
Qed.

(** ** Reading changes nothing but the log of dependencies *)

Definition only_depended (st st' : store) : Prop :=
  ∃ l, st' = Store (objects st) (closures st) (dep_uid st) (target st)
                   (depended st ++ l) (notified st) (trace st) (shouldObserve st)
                   (world st).

Global Instance only_depended_preorder : PreOrder only_depended.
Proof.
  split.
  - intros st. exists []. rewrite app_nil_r. by destruct st.
  - intros st1 st2 st3 [l ->] [l' ->]. exists (l ++ l'). simpl.
    by rewrite app_assoc.
Qed.

Lemma depend_only_depended d st : post (only_depended st) (depend d st).
Proof.
  unfold depend, modify. simpl. destruct (target st) eqn:Ht; [|reflexivity].
  exists [d]. by rewrite Ht.
Qed.

Lemma get_object_Ok a st o st' :
  get_object a st = Ok o st' ↔ st' = st ∧ o = objects st !! a.
Proof. unfold get_object, gets. naive_solver. Qed.

Lemma depend_ob_only_depended a st : post (only_depended st) (depend_ob a st).
Proof.
  unfold depend_ob, bind, get_object, gets.
  destruct (objects st !! a ≫= __ob__); [apply depend_only_depended|].
  simpl. reflexivity.
Qed.

Lemma dependArray_only_depended fuel l st :
  post (only_depended st) (dependArray fuel l st).
Proof.
  revert l st. induction fuel as [|n IH]; intros l st; [done|].
  simpl. apply post_for_each; [apply _|].
  intros e st1 _. destruct e; try (simpl; reflexivity).
  unfold bind at 1, get_object, gets.
  destruct (objects st1 !! a) as [o|]; [|simpl; reflexivity].
  apply post_bind; [apply _| |].
  - destruct (__ob__ o); [apply depend_only_depended|simpl; reflexivity].
  - intros _ st2 _. case_decide; [apply IH|simpl; reflexivity].
Qed.

Lemma call_getter_only_depended fuel g st :
  post (only_depended st) (call_getter fuel g st).
Proof.
  revert g st. induction fuel as [|n IH]; intros g st; [done|].
  simpl. destruct g as [f|d]; [simpl; reflexivity|].
  unfold bind at 1, get_closure, gets.
  destruct (closures st !! d) as [c|]; [|simpl; reflexivity].
  apply post_bind; [apply _| |].
  { destruct (c_getter c); [apply IH|simpl; reflexivity]. }
  intros value st1 _. unfold bind at 1, gets.
  apply post_bind; [apply _| |intros; simpl; reflexivity].
  destruct (target st1); [|simpl; reflexivity].
  apply post_bind; [apply _|apply depend_only_depended|]. intros _ st2 _.
  destruct (c_childOb c); [|simpl; reflexivity].
  apply post_bind; [apply _|apply depend_ob_only_depended|]. intros _ st3 _.
  destruct value; try (simpl; reflexivity).
  unfold bind at 1, get_object, gets.
  destruct (objects st3 !! a) as [o|]; [|simpl; reflexivity].
  case_decide; [apply dependArray_only_depended|simpl; reflexivity].
Qed.

Lemma read_field_only_depended fuel a key st :
  post (only_depended st) (read_field fuel a key st).
Proof.
  unfold read_field, bind, get_object, gets.
  destruct (objects st !! a ≫= _) as [[v c|[g|] s c]|]; try (simpl; reflexivity).
  apply call_getter_only_depended.
Qed.

(** ** What wrapping preserves *)

(** An object after wrapping took place somewhere in the store: only its
    fields, its observer and its array methods can have changed, and an
    observer it carried is still there. *)
Definition obj_le (o o' : object) : Prop :=
  okind o' = okind o ∧ extensible o' = extensible o ∧ _isVue o' = _isVue o ∧
  items o' = items o ∧ inherited o' = inherited o ∧
  (∀ ob, __ob__ o = Some ob → ∃ ob', __ob__ o' = Some ob' ∧ ob_dep ob' = ob_dep ob) ∧
  (augmented o = true → augmented o' = true).

Global Instance obj_le_preorder : PreOrder obj_le.
Proof.
  split.
  - intros o. unfold obj_le. naive_solver.
  - intros o1 o2 o3 (Hk & He & Hv & Hi & Hh & Hob & Ha)
      (Hk' & He' & Hv' & Hi' & Hh' & Hob' & Ha').
    unfold obj_le. rewrite Hk', He', Hv', Hi', Hh'. split_and!; try done.
    + intros ob Hx. destruct (Hob ob Hx) as (ob' & Hx' & Hd).
      destruct (Hob' ob' Hx') as (ob'' & Hx'' & Hd'). exists ob''.
      split; [done|congruence].
    + auto.
Qed.

(** The store after wrapping took place: nothing was notified, the world,
    the target and the switch are the same, the closures that existed are the
    same, and no object appeared or disappeared. *)
Definition grows (st st' : store) : Prop :=
  notified st' = notified st ∧ world st' = world st ∧ target st' = target st ∧
  shouldObserve st' = shouldObserve st ∧
  dep_uid st ≤ dep_uid st' ∧
  (∀ d, d < dep_uid st → closures st' !! d = closures st !! d) ∧
  (∀ a, match objects st !! a with
        | Some o => ∃ o', objects st' !! a = Some o' ∧ obj_le o o'
        | None => objects st' !! a = None
        end).

Global Instance grows_preorder : PreOrder grows.
Proof.
  split.
  - intros st. unfold grows. split_and!; try done.
    intros a. destruct (objects st !! a) as [o|]; [|done]. by exists o.
  - intros st1 st2 st3 (Hn & Hw & Ht & Hs & Hu & Hc & Ho)
      (Hn' & Hw' & Ht' & Hs' & Hu' & Hc' & Ho').
    unfold grows. rewrite Hn', Hw', Ht', Hs'. split_and!; try done; [lia| |].
    + intros d Hd. rewrite Hc' by lia. by apply Hc.
    + intros a. specialize (Ho a). specialize (Ho' a).
      destruct (objects st1 !! a) as [o|].
      * destruct Ho as (o' & Ho2 & Hle). rewrite Ho2 in Ho'.
        destruct Ho' as (o'' & Ho3 & Hle'). exists o''. split; [done|by etrans].
      * by rewrite Ho in Ho'.
Qed.

Lemma only_depended_grows st st' : only_depended st st' → grows st st'.
Proof.
  intros [l ->]. unfold grows. simpl. split_and!; try done.
  intros a. destruct (objects st !! a) as [o|]; [|done]. by exists o.
Qed.

Lemma newDep_grows st : post (grows st) (newDep st).
Proof.
  unfold newDep, grows. simpl. split_and!; try done; [lia|].
  intros a. destruct (objects st !! a) as [o|]; [|done]. by exists o.
Qed.

Lemma newDep_Ok st d st' :
  newDep st = Ok d st' →
  d = dep_uid st ∧ dep_uid st' = S (dep_uid st) ∧ objects st' = objects st ∧
  closures st' = closures st.
Proof. unfold newDep. by intros [= <- <-]. Qed.

(** Replacing an object by one that extends it. *)
Lemma put_object_grows a o o' st :
  objects st !! a = Some o → obj_le o o' → post (grows st) (put_object a o' st).
Proof.
  intros Ha Hle. unfold put_object, modify, grows. simpl. split_and!; try done.
  intros b. destruct (decide (a = b)) as [<-|Hne].
  - rewrite Ha, lookup_insert_eq. by exists o'.
  - rewrite lookup_insert_ne by done.
    destruct (objects st !! b) as [ob|]; [|done]. by exists ob.
Qed.

(** Recording the closure of a subject that was just created. *)
Lemma put_closure_grows d c st :
  dep_uid st ≤ d → post (grows st) (put_closure d c st).
Proof.
  intros Hd. unfold put_closure, modify, grows. simpl. split_and!; try done.
  - intros d' Hd'. rewrite lookup_insert_ne by lia. done.
  - intros a. destruct (objects st !! a) as [o|]; [|done]. by exists o.
Qed.

Lemma set_fields_le fs o : obj_le o (set_fields fs o).
Proof. unfold obj_le. simpl. naive_solver. Qed.

Lemma set_ob_le ob o : __ob__ o = None → obj_le o (set_ob ob o).
Proof. intros H. unfold obj_le. simpl. rewrite H. naive_solver. Qed.

Lemma set_augmented_le o : obj_le o (set_augmented o).
Proof. unfold obj_le. simpl. naive_solver. Qed.

Lemma grows_lookup st st' a o :
  grows st st' → objects st !! a = Some o →
  ∃ o', objects st' !! a = Some o' ∧ obj_le o o'.
Proof. intros (_ & _ & _ & _ & _ & _ & Ho) Ha. specialize (Ho a). by rewrite Ha in Ho. Qed.

(** ** Calls that return *)

(** The computation [F n], given recursion depth [n], returns from [st]
    the same value and store for every [n] that is large enough, and [P]
    holds of them. *)
Definition eventually {A} (F : nat → M A) (st : store) (P : A → store → Prop) : Prop :=
  ∃ n0 a st', P a st' ∧ ∀ n, n0 ≤ n → F n st = Ok a st'.

Lemma eventually_all {A} (F : nat → M A) st a st' (P : A → store → Prop) :
  (∀ n, F n st = Ok a st') → P a st' → eventually F st P.
Proof. intros HF HP. exists 0, a, st'. split; [done|]. intros n _. apply HF. Qed.

Lemma eventually_now {A} (m : M A) st a st' (P : A → store → Prop) :
  m st = Ok a st' → P a st' → eventually (λ _, m) st P.
Proof. intros Hm. by apply eventually_all. Qed.

Lemma eventually_bind {A B} (F : nat → M A) (G : nat → A → M B) st
    (Q : A → store → Prop) (P : B → store → Prop) :
  eventually F st Q →
  (∀ a st1, Q a st1 → eventually (λ n, G n a) st1 P) →
  eventually (λ n, bind (F n) (G n)) st P.
Proof.
  intros (n1 & a & st1 & HQ & HF) HG.
  destruct (HG a st1 HQ) as (n2 & b & st2 & HP & HG').
  exists (n1 `max` n2), b, st2. split; [done|].
  intros n Hn. unfold bind. rewrite HF by lia. apply HG'. lia.
Qed.

Lemma eventually_step {A B} (m : M A) (G : nat → A → M B) st a st1
    (P : B → store → Prop) :
  m st = Ok a st1 →
  eventually (λ n, G n a) st1 P →
  eventually (λ n, bind m (G n)) st P.
Proof.
  intros Hm HG. apply (eventually_bind (λ _, m) G st (λ a' st', a' = a ∧ st' = st1)).
  - by apply (eventually_now m st a st1).
  - by intros ? ? [-> ->].
Qed.

Lemma eventually_mono {A} (F : nat → M A) st (P Q : A → store → Prop) :
  eventually F st P → (∀ a st', P a st' → Q a st') → eventually F st Q.
Proof. intros (n0 & a & st' & HP & HF) HPQ. exists n0, a, st'. auto. Qed.

Lemma eventually_post {A} (F : nat → M A) st (P : A → store → Prop) (R : store → Prop) :
  eventually F st P → (∀ n, post R (F n st)) →
  eventually F st (λ a st', P a st' ∧ R st').
Proof.
  intros (n0 & a & st' & HP & HF) HR. exists n0, a, st'. split; [|done].
  split; [done|]. specialize (HR n0). by rewrite HF in HR.
Qed.

Lemma eventually_S {A} (F : nat → M A) st (P : A → store → Prop) :
  eventually (λ n, F (S n)) st P → eventually F st P.
Proof.
  intros (n0 & a & st' & HP & HF). exists (S n0), a, st'. split; [done|].
  intros [|n] Hn; [lia|]. apply HF. lia.
Qed.

Lemma eventually_for_each {A} (f : nat → A → M unit) (l : list A) st (I : store → Prop) :
  I st →
  (∀ x st1, x ∈ l → I st1 → eventually (λ n, f n x) st1 (λ _ st2, I st2)) →
  eventually (λ n, for_each (f n) l) st (λ _ st', I st').
Proof.
  revert st. induction l as [|x l IH]; intros st HI Hf; simpl.
  - by apply (eventually_now (ret ()) st () st).
  - apply (eventually_bind (λ n, f n x) (λ n _, for_each (f n) l) st (λ _ st2, I st2)).
    + apply Hf; [left|done].
    + intros _ st1 HI1. apply IH; [done|]. intros y st2 Hy. apply Hf. by right.
Qed.

(** ** Well-formed stores *)

(** The [reactiveGetter] and [reactiveSetter] closures found in a store
    belong to calls of [defineReactive] made earlier: their subject has an
    identifier below [bound] and its closure variables are in the store. *)
Definition getter_ok (st : store) (bound : nat) (g : option getter_fn) : Prop :=
  match g with
  | Some (ReactiveGetter d) => d < bound ∧ is_Some (closures st !! d)
  | _ => True
  end.
Definition setter_ok (st : store) (bound : nat) (s : option setter_fn) : Prop :=
  match s with
  | Some (ReactiveSetter d) => d < bound ∧ is_Some (closures st !! d)
  | _ => True
  end.

(** The getter and setter preserved by a call of [defineReactive] are older
    than the call. *)
Definition closure_ok (st : store) (d : nat) (c : closure) : Prop :=
  d < dep_uid st ∧ getter_ok st d (c_getter c) ∧ setter_ok st d (c_setter c).

Definition prop_ok (st : store) (p : prop) : Prop :=
  getter_ok st (dep_uid st) (prop_get p) ∧ setter_ok st (dep_uid st) (prop_set p).

Definition object_ok (st : store) (o : object) : Prop :=
  Forall (λ kp, prop_ok st kp.2) (fields o).

(** A store between two evaluations: no subscriber is active, and every
    closure it mentions is accounted for. *)
Definition wf (st : store) : Prop :=
  target st = None ∧
  map_Forall (closure_ok st) (closures st) ∧
  map_Forall (λ _, object_ok st) (objects st).

Global Instance getter_ok_dec st b g : Decision (getter_ok st b g).
Proof. destruct g as [[f|d]|]; simpl; apply _. Defined.
Global Instance setter_ok_dec st b s : Decision (setter_ok st b s).
Proof. destruct s as [[f|d]|]; simpl; apply _. Defined.
Global Instance closure_ok_dec st d c : Decision (closure_ok st d c).
Proof. unfold closure_ok. apply _. Defined.
Global Instance prop_ok_dec st p : Decision (prop_ok st p).
Proof. unfold prop_ok. apply _. Defined.
Global Instance object_ok_dec st o : Decision (object_ok st o).
Proof. unfold object_ok. apply _. Defined.
Global Instance wf_dec st : Decision (wf st).
Proof. unfold wf. apply _. Defined.

(** [st'] knows the closures of [st] and has not gone back in time. *)
Definition keeps (st st' : store) : Prop :=
  dep_uid st ≤ dep_uid st' ∧
  ∀ d, is_Some (closures st !! d) → is_Some (closures st' !! d).

Lemma getter_ok_keeps st st' b b' g :
  b ≤ b' → keeps st st' → getter_ok st b g → getter_ok st' b' g.
Proof.
  intros Hb [_ Hk]. destruct g as [[f|d]|]; simpl; try done.
  intros [Hd Hc]. split; [lia|auto].
Qed.

Lemma setter_ok_keeps st st' b b' s :
  b ≤ b' → keeps st st' → setter_ok st b s → setter_ok st' b' s.
Proof.
  intros Hb [_ Hk]. destruct s as [[f|d]|]; simpl; try done.
  intros [Hd Hc]. split; [lia|auto].
Qed.

Lemma closure_ok_keeps st st' d c :
  keeps st st' → closure_ok st d c → closure_ok st' d c.
Proof.
  intros Hk (Hd & Hg & Hs). pose proof Hk as [Hu _]. split_and!; [lia| |].
  - by eapply getter_ok_keeps.
  - by eapply setter_ok_keeps.
Qed.

Lemma object_ok_keeps st st' o :
  keeps st st' → object_ok st o → object_ok st' o.
Proof.
  intros Hk Ho. pose proof Hk as [Hu _]. unfold object_ok.
  eapply Forall_impl; [exact Ho|]. intros [k p] [Hg Hs]. split.
  - by eapply getter_ok_keeps.
  - by eapply setter_ok_keeps.
Qed.

Lemma grows_keeps st st' : grows st st' → wf st → keeps st st'.
Proof.
  intros (_ & _ & _ & _ & Hu & Hc & _) (_ & Hcl & _). split; [done|].
  intros d [c Hd]. destruct (Hcl d c Hd) as (Hlt & _).
  rewrite Hc by done. by exists c.
Qed.
Lemma keeps_same st st' :
  dep_uid st' = dep_uid st → closures st' = closures st → keeps st st'.
Proof. intros Hu Hc. unfold keeps. by rewrite Hu, Hc. Qed.

(** A store with the same target is well formed if it knows the closures
    of a well-formed one, and its own closures and objects are in order. *)
Lemma wf_keeps st st' :
  wf st → keeps st st' → target st' = target st →
  (∀ d c, closures st' !! d = Some c →
     closures st !! d = Some c ∨ closure_ok st' d c) →
  (∀ a o, objects st' !! a = Some o →
     objects st !! a = Some o ∨ object_ok st' o) →
  wf st'.
Proof.
  intros (Ht & Hcl & Hob) Hk Ht' Hc Ho. split_and!; [congruence| |].
  - intros d c Hd. destruct (Hc d c Hd) as [Hold|?]; [|done].
    eapply closure_ok_keeps; [done|]. by apply (Hcl d c).
  - intros a o Ha. destruct (Ho a o Ha) as [Hold|?]; [|done].
    eapply object_ok_keeps; [done|]. by apply (Hob a o).
Qed.

Lemma wf_same st st' :
  target st' = target st → closures st' = closures st →
  objects st' = objects st → dep_uid st' = dep_uid st → wf st → wf st'.
Proof.
  intros Ht Hc Ho Hu Hwf.
  apply (wf_keeps st); [done|by apply keeps_same|done| |].
  - intros d c. rewrite Hc. auto.
  - intros a o. rewrite Ho. auto.
Qed.

Lemma wf_newDep st d st' : newDep st = Ok d st' → wf st → wf st'.
Proof.
  unfold newDep. intros [= _ <-] Hwf.
  apply (wf_keeps st); [done| |done| |]; simpl; auto.
  split; simpl; [lia|done].
Qed.

Lemma wf_put_object a o st :
  wf st → object_ok st o → wf (set_objects (<[a := o]> (objects st)) st).
Proof.
  intros Hwf Ho. apply (wf_keeps st); [done|by apply keeps_same|done| |]; simpl.
  - auto.
  - intros b o'. destruct (decide (a = b)) as [<-|Hne].
    + rewrite lookup_insert_eq. intros [= <-]. right.
      eapply object_ok_keeps; [|done]. by apply keeps_same.
    + rewrite lookup_insert_ne by done. auto.
Qed.

Lemma keeps_put_closure d c st :
  keeps st (set_closures (<[d := c]> (closures st)) st).
Proof.
  split; [done|]. simpl. intros d' Hd'.
  destruct (decide (d = d')) as [<-|Hne].
  - by rewrite lookup_insert_eq.
  - by rewrite lookup_insert_ne.
Qed.

Lemma wf_put_closure d c st :
  wf st →
  closure_ok (set_closures (<[d := c]> (closures st)) st) d c →
  wf (set_closures (<[d := c]> (closures st)) st).
Proof.
  intros Hwf Hc. apply (wf_keeps st); [done|apply keeps_put_closure|done| |]; simpl.
  - intros d' c'. destruct (decide (d = d')) as [<-|Hne].
    + rewrite lookup_insert_eq. intros [= <-]. by right.
    + rewrite lookup_insert_ne by done. auto.
  - auto.
Qed.

Lemma keeps_alter_closure f d st :
  keeps st (set_closures (alter f d (closures st)) st).
Proof.
  split; [done|]. simpl. intros d' Hd'.
  destruct (decide (d = d')) as [<-|Hne].
  - rewrite lookup_alter_eq. by apply fmap_is_Some.
  - by rewrite lookup_alter_ne.
Qed.

(** Updating [val] or [childOb] of a closure. *)
Lemma wf_alter_closure f d st :
  (∀ c, c_getter (f c) = c_getter c ∧ c_setter (f c) = c_setter c) →
  wf st → wf (set_closures (alter f d (closures st)) st).
Proof.
  intros Hf Hwf.
  apply (wf_keeps st); [done|apply keeps_alter_closure|done| |]; simpl; [|auto].
  intros d' c'. destruct (decide (d = d')) as [<-|Hne].
  - rewrite lookup_alter_eq. intros (c & Hc & ->)%fmap_Some. right.
    destruct Hwf as (_ & Hcl & _). specialize (Hcl d c Hc).
    apply (closure_ok_keeps _ _ _ _ (keeps_alter_closure f d st)) in Hcl.
    destruct Hcl as (Hd & Hg & Hs). destruct (Hf c) as [Hfg Hfs].
    unfold closure_ok. by rewrite Hfg, Hfs.
  - rewrite lookup_alter_ne by done. auto.
Qed.

Lemma field_elem key (fs : list (string * prop)) p :
  field key fs = Some p → (key, p) ∈ fs.
Proof.
  induction fs as [|[k q] fs IH]; simpl; [done|].
  case_decide as Hk; [intros [= ->]; subst; left|right; auto].
Qed.

Lemma Forall_define_field (P : string * prop → Prop) key p fs :
  P (key, p) → Forall P fs → Forall P (define_field key p fs).
Proof.
  intros Hp. induction 1 as [|[k q] fs Hq Hfs IH]; simpl.
  - by constructor.
  - case_decide as Hk; [subst|]; by constructor.
Qed.

(** ** Reading returns *)

(** Outside of an evaluation a [reactiveGetter] returns, and changes
    nothing. *)
Lemma call_getter_converges st g :
  wf st → getter_ok st (dep_uid st) (Some g) →
  eventually (λ n, call_getter n g) st (λ _ st', st' = st).
Proof.
  intros Hwf. destruct g as [f|d]; simpl.
  { intros _. apply eventually_S. simpl.
    by apply (eventually_now _ st (f (world st)) st). }
  intros [_ Hd]. revert Hd. induction (lt_wf d) as [d _ IH]. intros [c Hc].
  pose proof Hwf as (Ht & Hcl & _). destruct (Hcl d c Hc) as (_ & Hg & _).
  apply eventually_S. simpl.
  eapply eventually_step; [reflexivity|]. cbv beta. rewrite Hc.
  eapply (eventually_bind _ _ st (λ _ st', st' = st)).
  - destruct (c_getter c) as [[f|d']|]; simpl in Hg.
    + apply eventually_S. simpl. by apply (eventually_now _ st (f (world st)) st).
    + destruct Hg as [Hlt Hd']. by apply IH.
    + by apply (eventually_now _ st (c_val c) st).
  - intros value st1 ->.
    apply (eventually_all _ st value st); [|done].
    intros n. unfold bind, gets. by rewrite Ht.
Qed.

Lemma read_field_converges st a key :
  wf st → eventually (λ n, read_field n a key) st (λ _ st', st' = st).
Proof.
  intros Hwf. unfold read_field.
  eapply eventually_step; [reflexivity|]. cbv beta.
  destruct (objects st !! a ≫= λ o, field key (fields o))
    as [[v c|[g|] s c]|] eqn:Hf.
  - by apply (eventually_now _ st v st).
  - apply call_getter_converges; [done|].
    apply bind_Some in Hf as (o & Ho & Hf). apply field_elem in Hf.
    destruct Hwf as (_ & _ & Hob). specialize (Hob a o Ho).
    unfold object_ok in Hob. rewrite Forall_forall in Hob.
    by destruct (Hob _ Hf).
  - by apply (eventually_now _ st VUndefined st).
  - by apply (eventually_now _ st VUndefined st).
Qed.

(** ** Wrapping *)

(** ** Arrays that contain themselves *)

(** Each array of [C] holds an array of [C]. *)
Definition array_cycle (C : gset nat) (st : store) : Prop :=
  ∀ a, a ∈ C →
    ∃ o b, objects st !! a = Some o ∧ okind o = KArray ∧ b ∈ C ∧
           VObject b ∈ items o.

Lemma array_cycle_only_depended C st st' :
  only_depended st st' → array_cycle C st → array_cycle C st'.
Proof. by intros [l ->]. Qed.

Lemma for_each_diverges {A} (f : A → M unit) (I : store → Prop) l x :
  x ∈ l →
  (∀ y st, I st → match f y st with
                  | Ok _ st' => I st'
                  | Thrown _ _ => False
                  | Diverged => True
                  end) →
  (∀ st, I st → f x st = Diverged) →
  ∀ st, I st → for_each f l st = Diverged.
Proof.
  intros Hin Hf Hx. induction l as [|y l IH]; intros st HI.
  { by apply elem_of_nil in Hin. }
  simpl. unfold bind. apply elem_of_cons in Hin as [<-|Hin].
  - by rewrite Hx.
  - specialize (Hf y st HI). destruct (f y st) as [[] st'|e st'|]; [|done..].
    by apply IH.
Qed.

Lemma dependArray_result fuel l st :
  match dependArray fuel l st with
  | Ok _ st' => only_depended st st'
  | Thrown _ _ => False
  | Diverged => True
  end.
Proof.
  revert l st. induction fuel as [|n IH]; intros l st; [done|].
  simpl. induction l as [|e l IHl] in st |- *; simpl; [reflexivity|].
  unfold bind at 1.
  match goal with |- context [match ?m st with _ => _ end] =>
    assert (match m st with
            | Ok _ st' => only_depended st st'
            | Thrown _ _ => False
            | Diverged => True
            end) as He
  end.
  { destruct e; try (simpl; reflexivity).
    unfold bind at 1, get_object, gets.
    destruct (objects st !! a) as [o|]; [|simpl; reflexivity].
    unfold bind.
    assert (∃ st1, (match __ob__ o with
                    | Some ob => depend (ob_dep ob)
                    | None => ret ()
                    end) st = Ok () st1 ∧ only_depended st st1) as (st1 & -> & H1).
    { destruct (__ob__ o) as [ob|].
      - eexists. split; [reflexivity|]. apply (depend_only_depended (ob_dep ob) st).
      - eexists. split; [reflexivity|]. reflexivity. }
    case_decide; [|done]. specialize (IH (items o) st1).
    destruct (dependArray n (items o) st1); try done. by etrans. }
  match goal with |- context [match ?m st with _ => _ end] =>
    destruct (m st) as [[] st1|e' st1|]; try done
  end.
  specialize (IHl st1). destruct (for_each _ l st1); try done. by etrans.
Qed.

(** On an array that contains itself, directly or through other arrays,
    [dependArray] uses up every recursion depth, and so does reading, while
    a subscriber is active, a reactive property that holds such an array
    and has a child wrapper. *)
Lemma dependArray_cycle_exceeds_depth (C : gset nat) (st : store) :
  array_cycle C st →
  (∀ l b fuel, b ∈ C → VObject b ∈ l → dependArray fuel l st = Diverged) ∧
  (∀ d c a fuel,
     closures st !! d = Some c → c_getter c = None → c_val c = VObject a →
     is_Some (c_childOb c) → is_Some (target st) → a ∈ C →
     call_getter fuel (ReactiveGetter d) st = Diverged).
Proof.
  assert (∀ fuel l b s, array_cycle C s → b ∈ C → VObject b ∈ l →
            dependArray fuel l s = Diverged) as Hdep.
  { induction fuel as [|n IH]; intros l b s Hc Hb Hin; [done|].
    simpl. eapply (for_each_diverges _ (array_cycle C)); [exact Hin| | |exact Hc].
    - intros y s1 Hc1.
      pose proof (dependArray_result (S n) [y] s1) as Hr. simpl in Hr.
      unfold bind at 1 in Hr.
      match goal with |- match ?m with _ => _ end =>
        destruct m as [[] s2|e s2|]; simpl in Hr; try done
      end.
      by eapply array_cycle_only_depended.
    - intros s1 Hc1. destruct (Hc1 b Hb) as (o & b' & Ho & Hk & Hb' & Hin').
      unfold bind at 1, get_object, gets. rewrite Ho. unfold bind.
      assert (∃ s2, (match __ob__ o with
                     | Some ob => depend (ob_dep ob)
                     | None => ret ()
                     end) s1 = Ok () s2 ∧ only_depended s1 s2) as (s2 & -> & H2).
      { destruct (__ob__ o) as [ob|].
        - eexists. split; [reflexivity|]. apply (depend_only_depended (ob_dep ob) s1).
        - eexists. split; [reflexivity|]. reflexivity. }
      rewrite decide_True by done. apply (IH _ b'); [|done..].
      by eapply array_cycle_only_depended. }
  intros Hc. split; [intros l b fuel; by apply Hdep|].
  intros d c a fuel Hd Hg Hv [child Hch] [t Ht] Ha.
  destruct fuel as [|n]; [done|]. simpl.
  unfold bind at 1, get_closure, gets. rewrite Hd, Hg.
  unfold bind at 1, ret. unfold bind at 1.
  unfold bind at 1, gets. rewrite Ht.
  unfold bind at 1.
  pose proof (depend_only_depended d st) as H1.
  destruct (depend d st) as [[] s1|e s1|] eqn:Hdp; try done. simpl in H1.
  rewrite Hch. unfold bind at 1.
  assert (∃ s2, depend_ob child s1 = Ok () s2 ∧ only_depended s1 s2)
    as (s2 & -> & H2).
  { unfold depend_ob, bind, get_object, gets.
    destruct (objects s1 !! child ≫= __ob__) as [ob|].
    - eexists. split; [reflexivity|]. apply (depend_only_depended (ob_dep ob) s1).
    - eexists. split; [reflexivity|]. reflexivity. }
  assert (array_cycle C s2) as Hc2.
  { eapply array_cycle_only_depended; [|exact Hc]. by etrans. }
  destruct (Hc2 a Ha) as (o & b & Ho & Hk & Hb & Hin).
  rewrite Hv. unfold bind at 1, get_object, gets. rewrite Ho.
  rewrite decide_True by done. by rewrite (Hdep n (items o) b s2).
Qed.

(** X15.  [dependArray] never completes normally on an array that contains
    itself, directly or through other arrays: no recursion depth is enough
    for it to return (on an engine the recursion ends with the [RangeError]
    of the exhausted stack).  So reading, while a subscriber is active, a
    reactive property that holds such an array and has a child wrapper
    never completes normally either. *)
Theorem dependArray_cycle_never_returns (C : gset nat) (st : store) :
  array_cycle C st →
  (∀ l b fuel v st', b ∈ C → VObject b ∈ l → dependArray fuel l st ≠ Ok v st') ∧
  (∀ d c a fuel v st',
     closures st !! d = Some c → c_getter c = None → c_val c = VObject a →
     is_Some (c_childOb c) → is_Some (target st) → a ∈ C →
     call_getter fuel (ReactiveGetter d) st ≠ Ok v st').
Proof.
  intros Hc. destruct (dependArray_cycle_exceeds_depth C st Hc) as [H1 H2]. split.
  - intros l b fuel v st' Hb Hin. by rewrite (H1 l b fuel Hb Hin).
  - intros d c a fuel v st' Hd Hg Hv Hch Ht Ha.
    by rewrite (H2 d c a fuel Hd Hg Hv Hch Ht Ha).
Qed.

Section with_env.
(** [isServerRendering()] (src/core/util/env.js) *)
Variable isServerRendering : bool.
(** The number a string converts to. *)
Variable string_to_number : string → number.
(** [Array.prototype.sort]: from the arguments and the elements, the
    elements in their new order. *)
Variable native_sort : list jsvalue → list jsvalue → list jsvalue.

(** [defineReactive(obj, key, val, customSetter, shallow)], given the
    function [observe]; [given] is [None] when only [obj] and [key] are
    passed ([arguments.length === 2]). *)
Definition defineReactive_with (observe : jsvalue → M (option nat)) (fuel : nat)
    (a : nat) (key : string) (given : option jsvalue) (shallow : bool) : M unit :=
  let! dep := newDep in
  let! o := get_object a in
  match o with
  | None => throw type_error
  | Some o =>
      let property := field key (fields o) in
      if bool_decide (prop_configurable <$> property = Some false) then ret ()
      else
        let getter := property ≫= prop_get in
        let setter := property ≫= prop_set in
        let! val :=
          match given with
          | Some v => ret v
          | None =>
              match getter, setter with
              | Some _, None => ret VUndefined
              | _, _ => read_field fuel a key
              end
          end in
        let! childOb := if shallow then ret None else observe val in
        put_closure dep (Closure val childOb shallow getter setter) ;;;
        (* Object.defineProperty(obj, key, ...) *)
        let! o' := get_object a in
        match o' with
        | None => throw type_error
        | Some o' =>
            match field key (fields o'), extensible o' with
            | None, false => throw type_error
            | _, _ =>
                put_object a
                  (set_fields (define_field key (reactive dep) (fields o')) o')
            end
        end
  end.

(** [ob.vmCount++] for the observer carried by the object at [a] *)
Definition incr_vmCount (a : nat) : M unit :=
  let! o := get_object a in
  match o with
  | Some o =>
      match __ob__ o with
      | Some ob => put_object a (set_ob (mkObserver (ob_dep ob) (S (vmCount ob))) o)
      | None => ret ()
      end
  | None => ret ()
  end.

(** [observe(value, asRootData)]; the body of [new Observer(value)], with
    [walk] and [observeArray], is inlined where the observer is created. *)
Fixpoint observe (fuel : nat) (asRootData : bool) (v : jsvalue) : M (option nat) :=
  match fuel with
  | 0 => diverge
  | S n =>
      match v with
      | VObject a =>
          let! o := get_object a in
          match o with
          | None => ret None
          | Some o =>
              if decide (okind o = KVNode) then ret None
              else
                let! ob :=
                  match __ob__ o with
                  | Some _ => ret (Some a)
                  | None =>
                      let! so := gets shouldObserve in
                      if so && negb isServerRendering &&
                         (bool_decide (okind o = KArray) ||
                          bool_decide (okind o = KPlain)) &&
                         extensible o && negb (_isVue o)
                      then
                        let! dep := newDep in
                        put_object a (set_ob (mkObserver dep 0) o) ;;;
                        (if decide (okind o = KArray) then
                           (* protoAugment or copyAugment, as [hasProto] tells:
                              either way the mutating methods of the array
                              are now those of arrayMethods; then
                              observeArray *)
                           put_object a (set_augmented (set_ob (mkObserver dep 0) o)) ;;;
                           for_each (λ e, observe n false e ;;; ret ()) (items o)
                         else
                           (* walk *)
                           for_each (λ key, defineReactive_with (observe n false) n
                                              a key None false)
                                    (fst <$> fields o)) ;;;
                        ret (Some a)
                      else ret None
                  end in
                match asRootData, ob with
                | true, Some b => incr_vmCount b
                | _, _ => ret ()
                end ;;;
                ret ob
          end
      | _ => ret None
      end
  end.

(** [Observer.observeArray(items)] *)
Definition observeArray (fuel : nat) (l : list jsvalue) : M unit :=
  for_each (λ e, observe fuel false e ;;; ret ()) l.

(** [defineReactive(obj, key, val, customSetter, shallow)] *)
Definition defineReactive (fuel : nat) (a : nat) (key : string)
    (given : option jsvalue) (shallow : bool) : M unit :=
  defineReactive_with (observe fuel false) fuel a key given shallow.

(** ** Writing *)

(** [newVal === value || (newVal !== newVal && value !== value)] *)
Definition unchanged (newVal value : jsvalue) : bool :=
  strict_equal newVal value ||
  (negb (strict_equal newVal newVal) && negb (strict_equal value value)).

Definition set_val (v : jsvalue) (c : closure) : closure :=
  Closure v (c_childOb c) (c_shallow c) (c_getter c) (c_setter c).
Definition set_childOb (ch : option nat) (c : closure) : closure :=
  Closure (c_val c) ch (c_shallow c) (c_getter c) (c_setter c).

Definition alter_closure (f : closure → closure) (d : nat) : M unit :=
  modify (λ st, set_closures (alter f d (closures st)) st).

(** Calling a setter found in a property descriptor; for the closure of
    [defineReactive] this is [reactiveSetter]. *)
Fixpoint call_setter (fuel : nat) (s : setter_fn) (newVal : jsvalue) : M unit :=
  match fuel with
  | 0 => diverge
  | S n =>
      match s with
      | UserSetter f => modify (λ st, set_world (f newVal (world st)) st)
      | ReactiveSetter d =>
          let! c := get_closure d in
          match c with
          | None => throw type_error
          | Some c =>
              let! value :=
                match c_getter c with
                | Some g => call_getter n g
                | None => ret (c_val c)
                end in
              if unchanged newVal value then ret ()
              else
                match c_getter c, c_setter c with
                | Some _, None => ret ()
                | _, setter =>
                    match setter with
                    | Some s' => call_setter n s' newVal
                    | None => alter_closure (set_val newVal) d
                    end ;;;
                    let! childOb :=
                      if c_shallow c then ret None else observe n false newVal in
                    alter_closure (set_childOb childOb) d ;;;
                    notify d
                end
          end
      end
  end.

(** Modelled from the spec: [hasOwn(obj, key)] (src/shared/util.js) tells
    whether the key is an own property, enumerable or not.  Besides [fields]
    those are the hidden [__ob__] that holds the wrapper and the [length] of
    an array; the elements of an array never get here, their keys being
    valid indices. *)
Definition hasOwn (key : string) (o : object) : bool :=
  bool_decide (is_Some (field key (fields o))) ||
  (bool_decide (key = "__ob__") && bool_decide (is_Some (__ob__ o))) ||
  (bool_decide (okind o = KArray) && bool_decide (key = "length")).

Definition clear_ob (o : object) : object :=
  mkObject (okind o) (extensible o) (_isVue o) (fields o) (items o) (inherited o)
           None (augmented o).

(** [ToNumber(v)] when it is a valid array length.  An object is taken to
    convert to [NaN]. *)
Definition to_length (v : jsvalue) : option nat :=
  let valid (n : number) :=
    match n with
    | Num z => if decide (0 ≤ z < 4294967296)%Z then Some (Z.to_nat z) else None
    | NaN => None
    end in
  match v with
  | VNumber n => valid n
  | VString s => valid (string_to_number s)
  | VBool true => Some 1
  | VBool false | VNull => Some 0
  | VUndefined | VObject _ | VFunction _ => None
  end.

Definition range_error : error := "RangeError".

(** [obj[key] = v] in strict mode, for an own property or a key found
    nowhere on the prototype chain.  Writing the hidden [__ob__] replaces
    the wrapper by a value that is no [Observer]: the object carries none
    from then on.  Writing the [length] of an array truncates it or pads it
    with holes, which read [undefined]. *)
Definition assign (fuel : nat) (a : nat) (key : string) (v : jsvalue) : M unit :=
  let! o := get_object a in
  match o with
  | None => throw type_error
  | Some o =>
      match field key (fields o) with
      | Some (Data _ c) =>
          put_object a (set_fields (define_field key (Data v c) (fields o)) o)
      | Some (Accessor _ (Some s) _) => call_setter fuel s v
      | Some (Accessor _ None _) => throw type_error
      | None =>
          if bool_decide (key = "__ob__") && bool_decide (is_Some (__ob__ o))
          then put_object a (clear_ob o)
          else if bool_decide (okind o = KArray) && bool_decide (key = "length")
          then
            match to_length v with
            | Some n =>
                put_object a
                  (set_items (take n (items o) ++
                              replicate (n - length (items o)) VUndefined) o)
            | None => throw range_error
            end
          else if extensible o
          then put_object a (set_fields (fields o ++ [(key, Data v true)]) o)
          else throw type_error
      end
  end.

(** ** Arrays *)

Definition to_integer (v : jsvalue) : Z :=
  match v with
  | VNumber (Num z) => z
  | VBool true => 1
  | VString s => match string_to_number s with Num z => z | NaN => 0 end
  | _ => 0
  end.

(** Modelled from the spec: [isValidArrayIndex] (src/shared/util.js) tells
    whether the key is a valid index; the index is returned. *)
Definition isValidArrayIndex (key : string) : option nat :=
  match string_to_number key with
  | Num z => if decide (0 ≤ z)%Z then Some (Z.to_nat z) else None
  | NaN => None
  end.

Definition new_array (l : list jsvalue) : M jsvalue :=
  λ st, let a := fresh (dom (objects st)) in
        Ok (VObject a)
           (set_objects (<[a := mkObject KArray true false [] l [] None false]>
                           (objects st)) st).

(** The built-in method [Array.prototype[method]] applied to the array at
    [a].  Adding an element to an array that is not extensible throws. *)
Definition native (m : method) (args : list jsvalue) (a : nat) : M jsvalue :=
  let! o := get_object a in
  match o with
  | None => throw type_error
  | Some o =>
      let l := items o in
      let finish (l' : list jsvalue) (r : M jsvalue) : M jsvalue :=
        if negb (extensible o) && bool_decide (length l < length l')
        then throw type_error
        else put_object a (set_items l' o) ;;; r in
      match m with
      | push =>
          finish (l ++ args) (ret (VNumber (Num (Z.of_nat (length (l ++ args))))))
      | pop => finish (removelast l) (ret (default VUndefined (last l)))
      | shift => finish (tail l) (ret (default VUndefined (head l)))
      | unshift =>
          finish (args ++ l) (ret (VNumber (Num (Z.of_nat (length (args ++ l))))))
      | splice =>
          let len := Z.of_nat (length l) in
          let rs := to_integer (default VUndefined (args !! 0)) in
          let start := Z.to_nat (if decide (rs < 0)%Z then Z.max (len + rs) 0
                                 else Z.min rs len) in
          let dc :=
            match args with
            | [] => 0
            | [_] => length l - start
            | _ :: d :: _ =>
                Z.to_nat (Z.min (Z.max (to_integer d) 0) (len - Z.of_nat start))
            end in
          finish (take start l ++ drop 2 args ++ drop (start + dc) l)
                 (new_array (take dc (drop start l)))
      | sort => finish (native_sort args l) (ret (VObject a))
      | reverse_ => finish (reverse l) (ret (VObject a))
      end
  end.

(** What [mutator] takes as newly inserted elements. *)
Definition inserted (m : method) (args : list jsvalue) : option (list jsvalue) :=
  match m with
  | push | unshift => Some args
  | splice => Some (drop 2 args)
  | _ => None
  end.

(** [mutator(...args)] of array.js, for [method] *)
Definition mutator (fuel : nat) (m : method) (args : list jsvalue) (a : nat)
  : M jsvalue :=
  let! result := native m args a in
  let! o := get_object a in
  match o ≫= __ob__ with
  | None => throw type_error
  | Some ob =>
      match inserted m args with
      | Some l => observeArray fuel l
      | None => ret ()
      end ;;;
      notify (ob_dep ob) ;;;
      ret result
  end.

(** [arr[method](...args)]: the method of [arrayMethods] on an augmented
    array, the built-in one otherwise. *)
Definition call_method (fuel : nat) (m : method) (args : list jsvalue) (a : nat)
  : M jsvalue :=
  let! o := get_object a in
  match o with
  | Some o => if augmented o then mutator fuel m args a else native m args a
  | None => throw type_error
  end.

(** ** [set] *)

(** The names found in [Object.prototype]. *)
Definition Object_prototype : list string :=
  ["constructor"; "__defineGetter__"; "__defineSetter__"; "hasOwnProperty";
   "__lookupGetter__"; "__lookupSetter__"; "isPrototypeOf";
   "propertyIsEnumerable"; "toString"; "valueOf"; "__proto__";
   "toLocaleString"].

(** [key in target]: an own property, or one found through the prototype
    chain. *)
Definition key_in (key : string) (o : object) : bool :=
  hasOwn key o || bool_decide (key ∈ inherited o).

(** [set(target, key, val)] *)
Definition set (fuel : nat) (a : nat) (key : string) (val : jsvalue) : M jsvalue :=
  let! o := get_object a in
  match o with
  | None => throw type_error
  | Some o =>
      match (if decide (okind o = KArray) then isValidArrayIndex key else None) with
      | Some idx =>
          (* target.length = Math.max(target.length, key) *)
          put_object a
            (set_items (items o ++ replicate (idx - length (items o)) VUndefined) o) ;;;
          call_method fuel splice [VString key; VNumber (Num 1); val] a ;;;
          ret val
      | None =>
          if key_in key o && negb (bool_decide (key ∈ Object_prototype)) then
            assign fuel a key val ;;; ret val
          else
            match __ob__ o with
            | Some ob =>
                if _isVue o || negb (bool_decide (vmCount ob = 0)) then ret val
                else
                  defineReactive fuel a key (Some val) false ;;;
                  notify (ob_dep ob) ;;;
                  ret val
            | None =>
                if _isVue o then ret val
                else assign fuel a key val ;;; ret val
            end
      end
  end.

(** ** [del] *)

Definition remove_field (key : string) (fs : list (string * prop))
  : list (string * prop) :=
  filter (λ kp, kp.1 ≠ key) fs.

(** [delete obj[key]] in strict mode, for an own property: one that is not
    configurable, as the [length] of an array, cannot be deleted. *)
Definition delete (a : nat) (key : string) : M unit :=
  let! o := get_object a in
  match o with
  | None => throw type_error
  | Some o =>
      match field key (fields o) with
      | Some p =>
          if prop_configurable p
          then put_object a (set_fields (remove_field key (fields o)) o)
          else throw type_error
      | None =>
          if bool_decide (key = "__ob__") then put_object a (clear_ob o)
          else if bool_decide (okind o = KArray) && bool_decide (key = "length")
               then throw type_error
               else ret ()
      end
  end.

(** [del(target, key)] *)
Definition del (fuel : nat) (a : nat) (key : string) : M unit :=
  let! o := get_object a in
  match o with
  | None => throw type_error
  | Some o =>
      match (if decide (okind o = KArray) then isValidArrayIndex key else None) with
      | Some idx =>
          call_method fuel splice [VString key; VNumber (Num 1)] a ;;; ret ()
      | None =>
          let ob := __ob__ o in
          if _isVue o ||
             match ob with
             | Some ob => negb (bool_decide (vmCount ob = 0))
             | None => false
             end
          then ret ()
          else if negb (hasOwn key o) then ret ()
          else
            delete a key ;;;
            match ob with
            | None => ret ()
            | Some ob => notify (ob_dep ob)
            end
      end
  end.

(** ** Wrapping preserves the store *)

Lemma defineReactive_with_grows obs fuel a key given shallow st :
  (∀ v st1, post (grows st1) (obs v st1)) →
  post (grows st) (defineReactive_with obs fuel a key given shallow st).
Proof.
  intros Hobs. unfold defineReactive_with.
  apply post_bind_from; [apply newDep_grows|].
  intros dep st1 Hdep H1. apply newDep_Ok in Hdep as (-> & Hu & _ & _).
  unfold bind at 1, get_object, gets.
  destruct (objects st1 !! a) as [o|] eqn:Ho; [|done].
  case_bool_decide; [done|].
  apply post_bind_from.
  { eapply post_trans; [apply _|done|]. destruct given; [simpl; reflexivity|].
    eapply post_mono; [apply only_depended_grows|].
    destruct (field key (fields o) ≫= prop_get),
      (field key (fields o) ≫= prop_set); simpl;
      try apply read_field_only_depended; reflexivity. }
  intros val st2 _ H2. apply post_bind_from.
  { eapply post_trans; [apply _|done|].
    destruct shallow; [simpl; reflexivity|apply Hobs]. }
  intros childOb st3 _ H3. apply post_bind_from.
  { unfold put_closure, modify. simpl.
    destruct H3 as (Hn & Hw & Ht & Hs & Hle & Hc & Hob).
    unfold grows. simpl. split_and!; try done.
    intros d Hd. rewrite lookup_insert_ne by lia. by apply Hc. }
  intros _ st4 _ H4. unfold bind at 1, get_object, gets.
  destruct (objects st4 !! a) as [o'|] eqn:Ho'; [|done].
  eapply post_trans; [apply _|done|].
  destruct (field key (fields o')), (extensible o'); simpl;
    try reflexivity; by apply (put_object_grows a o'), set_fields_le.
Qed.

Lemma incr_vmCount_grows a st : post (grows st) (incr_vmCount a st).
Proof.
  unfold incr_vmCount, bind, get_object, gets.
  destruct (objects st !! a) as [o|] eqn:Ho; [|simpl; reflexivity].
  destruct (__ob__ o) as [ob|] eqn:Hob; [|simpl; reflexivity].
  apply (put_object_grows a o); [done|].
  unfold obj_le. simpl. split_and!; try done.
  intros ob' Hob'. rewrite Hob in Hob'. injection Hob' as <-. by eexists.
Qed.

Lemma observe_grows fuel asRootData v st :
  post (grows st) (observe fuel asRootData v st).
Proof.
  revert asRootData v st. induction fuel as [|n IH]; intros r v st; [done|].
  simpl. destruct v; try (simpl; reflexivity).
  unfold bind at 1, get_object, gets.
  destruct (objects st !! a) as [o|] eqn:Ho; [|simpl; reflexivity].
  case_decide; [simpl; reflexivity|].
  apply post_bind; [apply _| |].
  2: { intros ob st1 _. apply post_bind; [apply _| |intros; simpl; reflexivity].
       destruct r, ob; try (simpl; reflexivity). apply incr_vmCount_grows. }
  destruct (__ob__ o) as [ob|] eqn:Hob; [simpl; reflexivity|].
  unfold bind at 1, gets. destruct (_ && _); [|simpl; reflexivity].
  apply post_bind_from; [apply newDep_grows|].
  intros dep st1 Hdep H1. apply newDep_Ok in Hdep as (-> & Hu & Hobj & _).
  apply post_bind_from.
  { eapply post_trans; [apply _|done|].
    apply (put_object_grows a o); [by rewrite Hobj|by apply set_ob_le]. }
  intros [] st2 Hput H2.
  assert (objects st2 !! a = Some (set_ob (mkObserver (dep_uid st) 0) o)) as Ho2.
  { unfold put_object, modify in Hput. injection Hput as Heq.
    rewrite <- Heq. simpl. by rewrite lookup_insert_eq. }
  eapply post_trans; [apply _|done|].
  apply post_bind; [apply _| |intros; simpl; reflexivity].
  case_decide.
  - apply post_bind; [apply _| |].
    + apply (put_object_grows a _ _ _ Ho2), set_augmented_le.
    + intros _ st3 _. apply post_for_each; [apply _|].
      intros e st4 _. apply post_bind; [apply _|apply IH|intros; simpl; reflexivity].
  - apply post_for_each; [apply _|].
    intros key st3 _. apply defineReactive_with_grows. intros; apply IH.
Qed.

Lemma observeArray_grows fuel l st : post (grows st) (observeArray fuel l st).
Proof.
  apply post_for_each; [apply _|]. intros e st1 _.
  apply post_bind; [apply _|apply observe_grows|intros; simpl; reflexivity].
Qed.

Lemma defineReactive_grows fuel a key given shallow st :
  post (grows st) (defineReactive fuel a key given shallow st).
Proof. apply defineReactive_with_grows. intros. apply observe_grows. Qed.

(** ** Wrapping notifies nobody *)

(** No [notify()] was called between the two stores. *)
Definition same_trace (st st' : store) : Prop := trace st' = trace st.

Global Instance same_trace_preorder : PreOrder same_trace.
Proof.
  split; [done|]. intros s1 s2 s3 H1 H2. unfold same_trace in *. congruence.
Qed.

Lemma only_depended_same_trace st st' : only_depended st st' → same_trace st st'.
Proof. by intros [l ->]. Qed.

Lemma defineReactive_with_same_trace obs fuel a key given shallow st :
  (∀ v st1, post (same_trace st1) (obs v st1)) →
  post (same_trace st) (defineReactive_with obs fuel a key given shallow st).
Proof.
  intros Hobs. unfold defineReactive_with.
  apply post_bind; [apply _|done|].
  intros dep st1 _. unfold bind at 1, get_object, gets.
  destruct (objects st1 !! a) as [o|]; [|done].
  case_bool_decide; [done|].
  apply post_bind; [apply _| |].
  { destruct given; [done|].
    eapply post_mono; [apply only_depended_same_trace|].
    destruct (field key (fields o) ≫= prop_get),
      (field key (fields o) ≫= prop_set); simpl;
      try apply read_field_only_depended; reflexivity. }
  intros val st2 _. apply post_bind; [apply _| |].
  { destruct shallow; [done|apply Hobs]. }
  intros childOb st3 _. apply post_bind; [apply _|done|].
  intros _ st4 _. unfold bind at 1, get_object, gets.
  destruct (objects st4 !! a) as [o'|]; [|done].
  by destruct (field key (fields o')), (extensible o').
Qed.

Lemma observe_same_trace fuel asRootData v st :
  post (same_trace st) (observe fuel asRootData v st).
Proof.
  revert asRootData v st. induction fuel as [|n IH]; intros r v st; [done|].
  simpl. destruct v; try done.
  unfold bind at 1, get_object, gets.
  destruct (objects st !! a) as [o|]; [|done].
  case_decide; [done|].
  apply post_bind; [apply _| |].
  2: { intros ob st1 _. apply post_bind; [apply _| |done].
       destruct r, ob; try done.
       unfold incr_vmCount, bind, get_object, gets.
       destruct (objects st1 !! n0) as [o1|]; [|done]. by destruct (__ob__ o1). }
  destruct (__ob__ o) as [ob|]; [done|].
  unfold bind at 1, gets. destruct (_ && _); [|done].
  apply post_bind; [apply _|done|].
  intros dep st1 _. apply post_bind; [apply _|done|].
  intros [] st2 _. apply post_bind; [apply _| |done].
  case_decide.
  - apply post_bind; [apply _|done|].
    intros _ st3 _. apply post_for_each; [apply _|].
    intros e st4 _. apply post_bind; [apply _|apply IH|done].
  - apply post_for_each; [apply _|].
    intros key st3 _. apply defineReactive_with_same_trace. intros; apply IH.
Qed.

Lemma observeArray_same_trace fuel l st :
  post (same_trace st) (observeArray fuel l st).
Proof.
  apply post_for_each; [apply _|]. intros e st1 _.
  apply post_bind; [apply _|apply observe_same_trace|done].
Qed.

(** ** Wrapping returns *)

Lemma keeps_trans st1 st2 st3 : keeps st1 st2 → keeps st2 st3 → keeps st1 st3.
Proof. intros [Hu Hc] [Hu' Hc']. split; [lia|auto]. Qed.

(** Every object without wrapper is one of [W]. *)
Definition unwrapped_in (W : gset nat) (st : store) : Prop :=
  ∀ a o, objects st !! a = Some o → __ob__ o = None → a ∈ W.

Lemma unwrapped_in_grows W st st' :
  grows st st' → unwrapped_in W st → unwrapped_in W st'.
Proof.
  intros (_ & _ & _ & _ & _ & _ & Ho) HW a o' Ha Hob. specialize (Ho a).
  destruct (objects st !! a) as [o|] eqn:Hoa; [|congruence].
  destruct Ho as (o'' & Ha' & Hle). rewrite Ha in Ha'. injection Ha' as <-.
  apply (HW a o Hoa). destruct (__ob__ o) as [ob|] eqn:Hobo; [|done].
  destruct Hle as (_ & _ & _ & _ & _ & Hkeep & _).
  destruct (Hkeep ob Hobo) as (ob' & Hob' & _). congruence.
Qed.

Lemma unwrapped_in_dom st : unwrapped_in (dom (objects st)) st.
Proof. intros a o Ha _. apply elem_of_dom. by exists o. Qed.

Lemma incr_vmCount_converges b st :
  wf st → ∃ st', incr_vmCount b st = Ok () st' ∧ wf st'.
Proof.
  intros Hwf. unfold incr_vmCount, bind, get_object, gets.
  destruct (objects st !! b) as [o|] eqn:Ho; [|by eexists].
  destruct (__ob__ o) as [ob|]; [|by eexists].
  eexists. split; [reflexivity|]. apply wf_put_object; [done|].
  destruct Hwf as (_ & _ & Hob). apply (Hob b o Ho).
Qed.

(** [defineReactive] on an extensible object returns when [observe]
    does. *)
Lemma defineReactive_with_converges (obs : nat → jsvalue → M (option nat))
    (W : gset nat) st a key given shallow :
  (∀ v st1, wf st1 → unwrapped_in W st1 →
     eventually (λ n, obs n v) st1 (λ _ st', wf st')) →
  (∀ n v st1, post (grows st1) (obs n v st1)) →
  wf st → unwrapped_in W st →
  (∃ o, objects st !! a = Some o ∧ extensible o = true) →
  eventually (λ n, defineReactive_with (obs n) n a key given shallow) st
    (λ _ st', wf st').
Proof.
  intros Hobs Hgrow Hwf HW (o & Ho & Hext). unfold defineReactive_with.
  eapply eventually_step; [reflexivity|]. cbv beta.
  match goal with |- eventually _ ?s _ => set (st1 := s) end.
  assert (wf st1) as Hwf1 by (by apply (wf_newDep st (dep_uid st))).
  assert (keeps st st1) as Hk1 by (split; simpl; [lia|done]).
  eapply eventually_step; [reflexivity|]. cbv beta.
  change (objects st1 !! a) with (objects st !! a). rewrite Ho.
  case_bool_decide as Hconf; [by apply (eventually_now _ st1 () st1)|].
  eapply (eventually_bind _ _ st1 (λ _ st', st' = st1)).
  { destruct given as [v|]; [by apply (eventually_now _ st1 v st1)|].
    destruct (field key (fields o) ≫= prop_get), (field key (fields o) ≫= prop_set);
      first [by apply (eventually_now _ st1 VUndefined st1)
            |by apply read_field_converges]. }
  intros val st2 ->.
  eapply (eventually_bind _ _ st1 (λ _ st3, wf st3 ∧ grows st1 st3)).
  { destruct shallow.
    - apply (eventually_now _ st1 None st1); [done|]. split; [done|reflexivity].
    - apply eventually_post; [by apply Hobs|intros n; apply Hgrow]. }
  intros childOb st3 [Hwf3 H13].
  eapply eventually_step; [reflexivity|]. cbv beta.
  match goal with |- eventually _ ?s _ => set (st4 := s) end.
  assert (keeps st st4) as Hk4.
  { eapply keeps_trans; [exact Hk1|]. eapply keeps_trans; [by apply grows_keeps|].
    apply keeps_put_closure. }
  assert (dep_uid st < dep_uid st4) as Hu4.
  { destruct H13 as (_ & _ & _ & _ & Hu & _). simpl in *. lia. }
  assert (wf st4) as Hwf4.
  { apply wf_put_closure; [done|]. fold st4. unfold closure_ok. simpl c_getter.
    simpl c_setter. split; [done|].
    destruct (field key (fields o)) as [p|] eqn:Hp; [|done].
    apply field_elem in Hp. destruct Hwf as (_ & _ & Hob).
    specialize (Hob a o Ho). unfold object_ok in Hob. rewrite Forall_forall in Hob.
    destruct (Hob _ Hp) as [Hg Hs]. simpl. split.
    - by eapply getter_ok_keeps; [|exact Hk4|exact Hg].
    - by eapply setter_ok_keeps; [|exact Hk4|exact Hs]. }
  destruct (grows_lookup _ _ _ _ H13 Ho) as (o3 & Ho3 & Hle).
  assert (extensible o3 = true) as Hext3.
  { destruct Hle as (_ & -> & _). done. }
  eapply eventually_step; [reflexivity|]. cbv beta.
  change (objects st4 !! a) with (objects st3 !! a). rewrite Ho3, Hext3.
  assert (wf (set_objects
    (<[a := set_fields (define_field key (reactive (dep_uid st)) (fields o3)) o3]>
       (objects st4)) st4)) as Hwf5.
  { apply wf_put_object; [done|]. unfold object_ok. simpl.
    apply Forall_define_field.
    - split; simpl; (split; [done|]); unfold st4; simpl;
        by rewrite lookup_insert_eq.
    - destruct Hwf4 as (_ & _ & Hob). apply (Hob a o3). exact Ho3. }
  destruct (field key (fields o3)); by eapply eventually_now.
Qed.

(** On a well-formed store [observe] returns: each object of the store is
    wrapped at most once, and the getters it reads return. *)
Lemma observe_converges_in (W : gset nat) st r v :
  wf st → unwrapped_in W st →
  eventually (λ n, observe n r v) st (λ _ st', wf st').
Proof.
  revert st r v. induction (set_wf W) as [W _ IH]. intros st r v Hwf HW.
  apply eventually_S. simpl.
  destruct v; try (by apply (eventually_now _ st None st)).
  eapply eventually_step; [reflexivity|]. cbv beta.
  destruct (objects st !! a) as [o|] eqn:Ho; [|by apply (eventually_now _ st None st)].
  case_decide as Hk; [by apply (eventually_now _ st None st)|].
  eapply (eventually_bind _ _ st (λ _ st1, wf st1)).
  2: { intros ob st1 Hwf1. destruct r, ob as [b|];
         try (by eapply eventually_now).
       destruct (incr_vmCount_converges b st1 Hwf1) as (st2 & Hi & Hwf2).
       eapply eventually_now; [|exact Hwf2]. unfold bind. by rewrite Hi. }
  destruct (__ob__ o) as [ob|] eqn:Hob; [by eapply eventually_now|].
  eapply eventually_step; [reflexivity|]. cbv beta.
  destruct (_ && _) eqn:Hcond; [|by eapply eventually_now].
  assert (extensible o = true) as Hext.
  { by apply andb_true_iff in Hcond as [[_ ?]%andb_true_iff _]. }
  eapply eventually_step; [reflexivity|]. cbv beta.
  match goal with |- eventually _ ?s _ => set (st1 := s) end.
  assert (wf st1) as Hwf1 by (by apply (wf_newDep st (dep_uid st))).
  eapply eventually_step; [reflexivity|]. cbv beta.
  match goal with |- eventually _ ?s _ => set (st2 := s) end.
  assert (objects st2 !! a = Some (set_ob (mkObserver (dep_uid st) 0) o)) as Ho2.
  { unfold st2. simpl. by rewrite lookup_insert_eq. }
  assert (wf st2) as Hwf2.
  { apply wf_put_object; [done|]. destruct Hwf1 as (_ & _ & Hobj).
    apply (Hobj a o). exact Ho. }
  set (W' := W ∖ {[a]}).
  assert (W' ⊂ W) as Hsub.
  { pose proof (HW a o Ho Hob). unfold W'. set_solver. }
  assert (unwrapped_in W' st2) as HW2.
  { intros b o' Hb Hnone. unfold st2 in Hb. simpl in Hb.
    destruct (decide (a = b)) as [<-|Hne].
    - rewrite lookup_insert_eq in Hb. by injection Hb as <-.
    - rewrite lookup_insert_ne in Hb by done.
      pose proof (HW b o' Hb Hnone). unfold W'. set_solver. }
  eapply (eventually_bind _ _ st2 (λ _ st', wf st'));
    [|intros; by eapply eventually_now].
  case_decide as Harr.
  - eapply eventually_step; [reflexivity|]. cbv beta.
    match goal with |- eventually _ ?s _ => set (st3 := s) end.
    assert (grows st2 st3) as H23.
    { apply (put_object_grows a _ _ _ Ho2), set_augmented_le. }
    assert (wf st3) as Hwf3.
    { apply wf_put_object; [done|]. destruct Hwf2 as (_ & _ & Hobj).
      apply (Hobj a _ Ho2). }
    eapply eventually_mono;
      [apply (eventually_for_each _ _ st3 (λ s, wf s ∧ grows st2 s))|
       by intros ? ? [? ?]]; [done|].
    intros e s _ [Hwfs Hgs].
    eapply (eventually_bind _ _ s (λ _ s', wf s' ∧ grows s s')).
    + apply eventually_post; [|intros n; apply observe_grows].
      apply (IH W'); [done|done|by eapply unwrapped_in_grows].
    + intros _ s' [Hwf' Hg']. eapply eventually_now; [reflexivity|].
      split; [done|by etrans].
  - eapply eventually_mono;
      [apply (eventually_for_each _ _ st2 (λ s, wf s ∧ grows st2 s))|
       by intros ? ? [? ?]]; [done|].
    intros key s _ [Hwfs Hgs].
    eapply eventually_mono.
    + apply eventually_post;
        [apply (defineReactive_with_converges (λ n, observe n false) W')|
         intros n; apply defineReactive_with_grows; intros; apply observe_grows].
      * intros v s1 Hwf' HW'. by apply (IH W').
      * intros n v s1. apply observe_grows.
      * done.
      * by eapply unwrapped_in_grows.
      * destruct (grows_lookup _ _ _ _ Hgs Ho2) as (o' & Ho' & Hle).
        exists o'. split; [done|]. destruct Hle as (_ & -> & _). done.
    + intros _ s' [Hwf' Hg']. split; [done|by etrans].
Qed.

Lemma observe_converges st r v :
  wf st → eventually (λ n, observe n r v) st (λ _ st', wf st').
Proof.
  intros Hwf. apply (observe_converges_in (dom (objects st))); [done|].
  apply unwrapped_in_dom.
Qed.

Lemma observeArray_converges l st :
  wf st → eventually (λ n, observeArray n l) st (λ _ st', wf st').
Proof.
  intros Hwf. unfold observeArray. apply eventually_for_each; [done|].
  intros e s _ Hwfs.
  eapply (eventually_bind _ _ s (λ _ s', wf s')); [by apply observe_converges|].
  intros; by eapply eventually_now.
Qed.

(** ** Wrapping is idempotent *)

Lemma post_Ok {A} (R : store → Prop) (m : M A) st a st' :
  post R (m st) → m st = Ok a st' → R st'.
Proof. intros H Heq. by rewrite Heq in H. Qed.

Lemma grows_wrapped st st' a o :
  grows st st' → objects st !! a = Some o → is_Some (__ob__ o) →
  ∃ o', objects st' !! a = Some o' ∧ is_Some (__ob__ o') ∧ okind o' = okind o.
Proof.
  intros Hg Ho [ob Hob]. destruct (grows_lookup _ _ _ _ Hg Ho) as (o' & Ho' & Hle).
  destruct Hle as (Hk & _ & _ & _ & _ & Hkeep & _).
  destruct (Hkeep ob Hob) as (ob' & Hob' & _). exists o'. by rewrite Hob'.
Qed.

Lemma observe_wrapped n a o ob st :
  objects st !! a = Some o → okind o ≠ KVNode → __ob__ o = Some ob →
  observe (S n) false (VObject a) st = Ok (Some a) st.
Proof.
  intros Ho Hk Hob. simpl. unfold bind, get_object, gets. rewrite Ho.
  rewrite decide_False by done. by rewrite Hob.
Qed.

Lemma observe_wrapped_root n a o ob st :
  objects st !! a = Some o → okind o ≠ KVNode → __ob__ o = Some ob →
  observe (S n) true (VObject a) st =
    Ok (Some a)
       (set_objects
          (<[a := set_ob (mkObserver (ob_dep ob) (S (vmCount ob))) o]> (objects st))
          st).
Proof.
  intros Ho Hk Hob. simpl. unfold bind, get_object, gets. rewrite Ho.
  rewrite decide_False by done. rewrite Hob. simpl.
  unfold incr_vmCount, bind, get_object, gets. rewrite Ho, Hob. done.
Qed.

(** The wrapper returned by [observe] is carried by the value observed. *)
Lemma observe_Some fuel r v b st st' :
  observe fuel r v st = Ok (Some b) st' →
  v = VObject b ∧
  ∃ o', objects st' !! b = Some o' ∧ is_Some (__ob__ o') ∧ okind o' ≠ KVNode.
Proof.
  destruct fuel as [|n]; [done|]. simpl. destruct v; try done.
  unfold bind at 1, get_object, gets.
  destruct (objects st !! a) as [o|] eqn:Ho; [|done].
  case_decide as Hk; [done|].
  intros (ob & st1 & Hob & Hrest)%bind_Ok.
  apply bind_Ok in Hrest as ([] & st2 & Hincr & [= -> <-]).
  assert (grows st1 st2) as H12.
  { destruct r; [|by injection Hincr as ->].
    eapply post_Ok; [apply incr_vmCount_grows|done]. }
  assert (b = a ∧ ∃ o1, objects st1 !! a = Some o1 ∧ is_Some (__ob__ o1) ∧
                         okind o1 = okind o) as [-> (o1 & Ho1 & Hob1 & Hk1)].
  { destruct (__ob__ o) as [ob|] eqn:Hobo.
    - injection Hob as -> <-. split; [done|]. exists o. by rewrite Hobo.
    - unfold bind at 1, gets in Hob. destruct (_ && _); [|done].
      apply bind_Ok in Hob as (dep & st3 & Hdep & Hob).
      apply newDep_Ok in Hdep as (-> & _ & Hobj & _).
      apply bind_Ok in Hob as ([] & st4 & Hput & Hob).
      apply bind_Ok in Hob as ([] & st5 & Hwalk & [= -> <-]).
      split; [done|].
      assert (objects st4 !! b = Some (set_ob (mkObserver (dep_uid st) 0) o)) as Ho4.
      { unfold put_object, modify in Hput. injection Hput as Heq.
        rewrite <- Heq. simpl. by rewrite lookup_insert_eq. }
      assert (grows st4 st5) as H45.
      { eapply post_Ok; [|exact Hwalk]. case_decide.
        - apply post_bind; [apply _| |].
          + apply (put_object_grows b _ _ _ Ho4), set_augmented_le.
          + intros _ st6 _. apply observeArray_grows.
        - apply post_for_each; [apply _|].
          intros key st6 _. apply defineReactive_with_grows.
          intros; apply observe_grows. }
      by apply (grows_wrapped _ _ _ _ H45 Ho4). }
  split; [done|].
  destruct (grows_wrapped _ _ _ _ H12 Ho1 Hob1) as (o2 & Ho2 & Hob2 & Hk2).
  exists o2. split_and!; [done|done|congruence].
Qed.

(** C8.  [observe] returns the wrapper a value already carries, creating
    nothing (with [asRootData] it only counts one more root use); the
    wrapper it returns is carried by the value from then on, so that
    observing again returns the same wrapper and leaves the store as it is;
    and it returns nothing, leaving the store as it is, for a value that is
    not an object, for a [VNode], and for a value without wrapper that is
    not extensible, is a Vue instance, is neither an array nor a plain
    object, or is observed while observation is switched off or during
    server rendering.  On a well-formed store [observe] does return, the
    same result for every recursion depth that is large enough. *)
Theorem observe_idempotent :
  (∀ n st a o ob,
     objects st !! a = Some o → okind o ≠ KVNode → __ob__ o = Some ob →
     observe (S n) false (VObject a) st = Ok (Some a) st ∧
     observe (S n) true (VObject a) st =
       Ok (Some a)
          (set_objects
             (<[a := set_ob (mkObserver (ob_dep ob) (S (vmCount ob))) o]>
                (objects st)) st)) ∧
  (∀ fuel r v st b st',
     observe fuel r v st = Ok (Some b) st' →
     v = VObject b ∧ ∀ n, observe (S n) false v st' = Ok (Some b) st') ∧
  (∀ n r v st, (∀ a, v ≠ VObject a) → observe (S n) r v st = Ok None st) ∧
  (∀ n r a o st,
     objects st !! a = Some o → okind o = KVNode →
     observe (S n) r (VObject a) st = Ok None st) ∧
  (∀ n r a o st,
     objects st !! a = Some o → __ob__ o = None →
     extensible o = false ∨ _isVue o = true ∨ shouldObserve st = false ∨
     isServerRendering = true ∨ (okind o ≠ KArray ∧ okind o ≠ KPlain) →
     observe (S n) r (VObject a) st = Ok None st) ∧
  (∀ r v st, wf st →
     ∃ n0 res st', wf st' ∧ ∀ n, n0 ≤ n → observe n r v st = Ok res st').
Proof.
  split_and!.
  - intros n st a o ob Ho Hk Hob. split.
    + by eapply observe_wrapped.
    + by eapply observe_wrapped_root.
  - intros fuel r v st b st' Hobs.
    destruct (observe_Some _ _ _ _ _ _ Hobs) as (-> & o' & Ho' & [ob Hob] & Hk).
    split; [done|]. intros n. by eapply observe_wrapped.
  - intros n r v st Hv. simpl. destruct v; try done. by destruct (Hv a).
  - intros n r a o st Ho Hk. simpl. unfold bind, get_object, gets.
    rewrite Ho. by rewrite decide_True.
  - intros n r a o st Ho Hob Hcond. simpl. unfold bind, get_object, gets.
    rewrite Ho. case_decide; [done|]. rewrite Hob. simpl.
    assert (shouldObserve st && negb isServerRendering &&
            (bool_decide (okind o = KArray) || bool_decide (okind o = KPlain)) &&
            extensible o && negb (_isVue o) = false) as ->.
    { destruct Hcond as [->|[->|[->|[->|[H1 H2]]]]].
      - by rewrite andb_false_r.
      - by rewrite andb_false_r.
      - done.
      - by rewrite andb_false_r.
      - rewrite !bool_decide_false by done. by rewrite !andb_false_r. }
    by destruct r.
  - intros r v st Hwf.
    destruct (observe_converges st r v Hwf) as (n0 & res & st' & Hwf' & H).
    by exists n0, res, st'.
Qed.

(** ** [set] on a target that is not tracked, or that is a root *)



(** ** The intercepted write *)

Lemma is_NaN_iff (a : jsvalue) : is_NaN a = true ↔ a = VNumber NaN.
Proof using Type.
  destruct a as [| | |[|?]| | |]; simpl; split; intros H;
    first [discriminate H|reflexivity].
Qed.

(** With [NaN] the only value that differs from itself, the test of
    [reactiveSetter] holds exactly of identical values. *)
Lemma unchanged_iff (a b : jsvalue) : unchanged a b = true ↔ a = b.
Proof using Type.
  unfold unchanged, strict_equal.
  destruct (is_NaN a) eqn:Ha, (is_NaN b) eqn:Hb; simpl.
  - apply is_NaN_iff in Ha, Hb. by subst.
  - rewrite (bool_decide_true (b = b)) by done. simpl.
    split; [done|]. intros ->. congruence.
  - rewrite (bool_decide_true (a = a)) by done. simpl.
    split; [done|]. intros ->. congruence.
  - rewrite (bool_decide_true (a = a)) by done. simpl. rewrite orb_false_r.
    apply bool_decide_eq_true.
Qed.

(** [st'] is [st] after some notifications. *)
Definition appends (st st' : store) : Prop :=
  ∃ evs, notified st' = notified st ++ evs.

Global Instance appends_preorder : PreOrder appends.
Proof.
  split.
  - intros st. exists []. by rewrite app_nil_r.
  - intros st1 st2 st3 [l H1] [l' H2]. exists (l ++ l').
    by rewrite H2, H1, app_assoc.
Qed.

Lemma appends_same st st' : notified st' = notified st → appends st st'.
Proof. intros H. exists []. by rewrite app_nil_r. Qed.

Lemma grows_appends st st' : grows st st' → appends st st'.
Proof. intros (Hn & _). by apply appends_same. Qed.

Lemma only_depended_appends st st' : only_depended st st' → appends st st'.
Proof. intros H. by apply grows_appends, only_depended_grows. Qed.

Lemma call_setter_appends fuel s v st :
  post (appends st) (call_setter fuel s v st).
Proof.
  revert s st. induction fuel as [|n IH]; intros s st; [done|].
  simpl. destruct s as [f|d].
  { by apply appends_same. }
  unfold bind at 1, get_closure, gets.
  destruct (closures st !! d) as [c|]; [|simpl; reflexivity].
  apply post_bind; [apply _| |].
  { eapply post_mono; [apply only_depended_appends|].
    destruct (c_getter c); [apply call_getter_only_depended|simpl; reflexivity]. }
  intros value st1 _. destruct (unchanged v value); [simpl; reflexivity|].
  assert (post (appends st1)
    ((match c_setter c with
      | Some s' => call_setter n s' v
      | None => alter_closure (set_val v) d
      end;;;
      let! childOb := if c_shallow c then ret None else observe n false v
      in alter_closure (set_childOb childOb) d;;; notify d) st1)) as Hrest.
  { apply post_bind; [apply _| |].
    { destruct (c_setter c); [apply IH|]. by apply appends_same. }
    intros _ st2 _. apply post_bind; [apply _| |].
    { eapply post_mono; [apply grows_appends|].
      destruct (c_shallow c); [simpl; reflexivity|apply observe_grows]. }
    intros ch st3 _. apply post_bind; [apply _| |].
    { by apply appends_same. }
    intros _ st4 _. unfold notify, modify. simpl. by exists [d]. }
  destruct (c_getter c), (c_setter c); try done. simpl. reflexivity.
Qed.

(** On a well-formed store a setter returns, and leaves the store well
    formed. *)
Lemma call_setter_converges st s v :
  wf st → setter_ok st (dep_uid st) (Some s) →
  eventually (λ n, call_setter n s v) st (λ _ st', wf st').
Proof.
  intros Hwf. destruct s as [f|d]; simpl.
  { intros _. apply eventually_S. simpl. eapply eventually_now; [reflexivity|].
    by apply (wf_same st). }
  intros [_ Hd]. revert st v Hwf Hd.
  induction (lt_wf d) as [d _ IH]. intros st v Hwf [c Hc].
  pose proof Hwf as (Ht & Hcl & _). destruct (Hcl d c Hc) as (Hlt & Hg & Hs).
  apply eventually_S. simpl.
  eapply eventually_step; [reflexivity|]. cbv beta. rewrite Hc.
  eapply (eventually_bind _ _ st (λ _ st', st' = st)).
  { destruct (c_getter c) as [g|]; [|by eapply eventually_now].
    apply call_getter_converges; [done|].
    eapply getter_ok_keeps; [|by apply keeps_same|exact Hg]. lia. }
  intros value st1 ->.
  destruct (unchanged v value); [by eapply eventually_now|].
  assert (∀ F : nat → M unit,
    eventually F st (λ _ st', wf st') →
    eventually (λ n, F n ;;;
      let! childOb := if c_shallow c then ret None else observe n false v in
      alter_closure (set_childOb childOb) d ;;; notify d) st (λ _ st', wf st'))
    as Htail.
  { intros F HF. eapply (eventually_bind _ _ st (λ _ st', wf st')); [exact HF|].
    intros _ st2 Hwf2. eapply (eventually_bind _ _ st2 (λ _ st', wf st')).
    { destruct (c_shallow c); [by eapply eventually_now|by apply observe_converges]. }
    intros ch st3 Hwf3. eapply eventually_now; [reflexivity|].
    eapply (wf_same (set_closures (alter (set_childOb ch) d (closures st3)) st3));
      try done.
    by apply wf_alter_closure. }
  assert (eventually (λ n, alter_closure (set_val v) d) st (λ _ st', wf st'))
    as Hval.
  { eapply eventually_now; [reflexivity|]. by apply wf_alter_closure. }
  assert (∀ s', c_setter c = Some s' →
    eventually (λ n, call_setter n s' v) st (λ _ st', wf st')) as Hset.
  { intros [f|d'] Hs'; rewrite Hs' in Hs; simpl in Hs.
    - apply eventually_S. simpl. eapply eventually_now; [reflexivity|].
      by apply (wf_same st).
    - destruct Hs as [Hlt' Hd']. by apply IH. }
  destruct (c_getter c) as [g|], (c_setter c) as [s'|].
  - apply (Htail (λ n, call_setter n s' v)). by apply Hset.
  - by eapply eventually_now.
  - apply (Htail (λ n, call_setter n s' v)). by apply Hset.
  - by apply (Htail (λ n, alter_closure (set_val v) d)).
Qed.

(** The value [reactiveSetter] compares the new value with: what the
    preserved getter returns, or [val]. *)
Definition current_value (fuel : nat) (c : closure) : M jsvalue :=
  match c_getter c with
  | Some g => call_getter fuel g
  | None => ret (c_val c)
  end.

(** [getter && !setter] *)
Definition getter_only (c : closure) : bool :=
  match c_getter c, c_setter c with
  | Some _, None => true
  | _, _ => false
  end.

Lemma current_value_only_depended fuel c st :
  post (only_depended st) (current_value fuel c st).
Proof.
  unfold current_value.
  destruct (c_getter c); [apply call_getter_only_depended|simpl; reflexivity].
Qed.

(** C7.  Let [d] be the subject of a reactive field and [value] what its
    getter, or else its [val], currently yields.  Writing that very value
    (under strict equality extended to [NaN], which holds exactly of
    identical values), or writing anything when the field has a getter and
    no setter, returns at once: nothing is notified and neither the
    closures, the objects nor the world change.  Any other write, when it
    returns, has called [notify()] on [d] once, as its last act, after the
    notifications of the preserved setter if that one is reactive too;
    without a preserved setter [val] holds the new value, and with a
    preserved user setter that one received it.  On a well-formed store
    the write does return, for every recursion depth that is large
    enough. *)
Theorem reactiveSetter_notifies (fuel d : nat) (c : closure) (newVal value : jsvalue)
    (st st1 : store) :
  closures st !! d = Some c →
  d < dep_uid st →
  current_value fuel c st = Ok value st1 →
  (unchanged newVal value = true ↔ newVal = value) ∧
  (newVal = value ∨ getter_only c = true →
     call_setter (S fuel) (ReactiveSetter d) newVal st = Ok () st1 ∧
     notified st1 = notified st ∧ closures st1 = closures st ∧
     objects st1 = objects st ∧ world st1 = world st) ∧
  (newVal ≠ value → getter_only c = false →
     ∀ st', call_setter (S fuel) (ReactiveSetter d) newVal st = Ok () st' →
       ∃ evs, notified st' = notified st ++ evs ++ [d] ∧
         (c_setter c = None →
            evs = [] ∧ world st' = world st ∧
            c_val <$> closures st' !! d = Some newVal) ∧
         (∀ f, c_setter c = Some (UserSetter f) →
            evs = [] ∧ world st' = f newVal (world st))) ∧
  (wf st →
   ∃ n0 st', ∀ n, n0 ≤ n →
     call_setter n (ReactiveSetter d) newVal st = Ok () st').
Proof.
  intros Hc Hd Hcur.
  assert (wf st →
    ∃ n0 st', ∀ n, n0 ≤ n →
      call_setter n (ReactiveSetter d) newVal st = Ok () st') as Hreturns.
  { intros Hwf.
    destruct (call_setter_converges st (ReactiveSetter d) newVal Hwf)
      as (n0 & [] & st' & _ & H); [|by exists n0, st'].
    simpl. split; [done|by exists c]. }
  pose proof (post_Ok _ _ _ _ _ (current_value_only_depended fuel c st) Hcur)
    as [l Hst1].
  assert (call_setter (S fuel) (ReactiveSetter d) newVal st =
    (if unchanged newVal value then ret ()
     else if getter_only c then ret ()
     else
       match c_setter c with
       | Some s' => call_setter fuel s' newVal
       | None => alter_closure (set_val newVal) d
       end;;;
       let! childOb :=
         if c_shallow c then ret None else observe fuel false newVal in
       alter_closure (set_childOb childOb) d;;; notify d) st1) as Hcall.
  { simpl. unfold bind at 1, get_closure, gets. rewrite Hc.
    unfold current_value in Hcur. unfold bind at 1. rewrite Hcur.
    destruct (unchanged newVal value); [done|].
    unfold getter_only. by destruct (c_getter c), (c_setter c). }
  rewrite Hcall. split_and!; [| | |exact Hreturns].
  - apply unchanged_iff.
  - intros Hnoop. split_and!; try (by rewrite Hst1).
    destruct Hnoop as [->%unchanged_iff| ->]; [done|].
    by destruct (unchanged newVal value).
  - intros Hne Hgo st'. rewrite Hgo.
    assert (unchanged newVal value = false) as ->.
    { apply not_true_is_false. by rewrite unchanged_iff. }
    intros ([] & st2 & Hset & Hrest)%bind_Ok.
    apply bind_Ok in Hrest as (ch & st3 & Hobs & Hrest).
    apply bind_Ok in Hrest as ([] & st4 & Halter & Hnotify).
    assert (grows st2 st3) as H23.
    { destruct (c_shallow c); [injection Hobs as _ <-; reflexivity|].
      eapply post_Ok; [apply observe_grows|done]. }
    destruct H23 as (Hn23 & Hw23 & _ & _ & _ & Hc23 & _).
    unfold alter_closure, modify in Halter. injection Halter as <-.
    unfold notify, modify in Hnotify. injection Hnotify as <-. simpl.
    rewrite Hn23, Hw23.
    assert (appends st1 st2) as [evs Hevs].
    { eapply post_Ok; [|exact Hset].
      destruct (c_setter c); [apply call_setter_appends|by apply appends_same]. }
    exists evs. rewrite Hevs, Hst1. simpl. rewrite <- app_assoc.
    split_and!; [done| |].
    + intros Hs. rewrite Hs in Hset.
      unfold alter_closure, modify in Hset. injection Hset as <-.
      simpl in *. split_and!.
      * rewrite Hst1 in Hevs. simpl in Hevs.
        by apply (inj (app (notified st))); rewrite app_nil_r.
      * by rewrite Hst1.
      * rewrite lookup_alter_eq, Hc23 by (rewrite Hst1; simpl; lia).
        rewrite lookup_alter_eq, Hst1. simpl. by rewrite Hc.
    + intros f Hs. rewrite Hs in Hset. destruct fuel as [|n]; [done|].
      simpl in Hset. unfold modify in Hset. injection Hset as <-.
      simpl in *. split.
      * rewrite Hst1 in Hevs. simpl in Hevs.
        by apply (inj (app (notified st))); rewrite app_nil_r.
      * by rewrite Hst1.
Qed.

(** ** The intercepted array methods *)

(** What makes [observe] create a wrapper for a value that has none. *)
Definition observable (st : store) (o : object) : Prop :=
  shouldObserve st = true ∧ isServerRendering = false ∧
  (okind o = KArray ∨ okind o = KPlain) ∧ extensible o = true ∧ _isVue o = false.

Lemma observe_result fuel b o st r st' :
  objects st !! b = Some o → okind o ≠ KVNode →
  is_Some (__ob__ o) ∨ observable st o →
  observe fuel false (VObject b) st = Ok r st' → r = Some b.
Proof.
  intros Ho Hk Hcase. destruct fuel as [|n]; [done|]. simpl.
  unfold bind at 1, get_object, gets. rewrite Ho.
  rewrite decide_False by done.
  intros (ob & st1 & Hob & Hrest)%bind_Ok. simpl in Hrest.
  injection Hrest as -> _.
  destruct (__ob__ o) as [x|] eqn:Hx; [by injection Hob as ->|].
  destruct Hcase as [[? ?]|(Hs & Hsr & Hkind & He & Hv)]; [done|].
  unfold bind at 1, gets in Hob. rewrite Hs, Hsr, He, Hv in Hob.
  assert (bool_decide (okind o = KArray) || bool_decide (okind o = KPlain) = true)
    as Hb.
  { destruct Hkind as [H|H]; rewrite (bool_decide_true _ H); by rewrite ?orb_true_r. }
  rewrite Hb in Hob. simpl in Hob.
  apply bind_Ok in Hob as (dep & st2 & _ & Hob).
  apply bind_Ok in Hob as ([] & st3 & _ & Hob).
  apply bind_Ok in Hob as ([] & st4 & _ & Hob).
  by injection Hob as ->.
Qed.

Lemma observeArray_wraps fuel l st st' :
  observeArray fuel l st = Ok () st' →
  grows st st' ∧
  ∀ b o, VObject b ∈ l → objects st !! b = Some o → okind o ≠ KVNode →
         is_Some (__ob__ o) ∨ observable st o →
         ∃ o', objects st' !! b = Some o' ∧ is_Some (__ob__ o').
Proof.
  intros Hobs. split.
  { eapply post_Ok; [apply observeArray_grows|done]. }
  revert st Hobs. induction l as [|e l IH]; intros st Hobs b o Hin Ho Hk Hcase.
  { by apply elem_of_nil in Hin. }
  unfold observeArray in Hobs. simpl in Hobs.
  apply bind_Ok in Hobs as ([] & st1 & He & Hl).
  apply bind_Ok in He as (r & st0 & He & [= <-]).
  pose proof (post_Ok _ _ _ _ _ (observe_grows fuel false e st) He) as H01.
  destruct (grows_lookup _ _ _ _ H01 Ho) as (o1 & Ho1 & Hle).
  assert (is_Some (__ob__ o1) ∨ observable st0 o1) as Hcase1.
  { destruct Hle as (Hk1 & He1 & Hv1 & _ & _ & Hkeep & _).
    destruct Hcase as [[x Hx]|Hobsv].
    - left. destruct (Hkeep x Hx) as (x' & -> & _). done.
    - right. unfold observable in *. rewrite Hk1, He1, Hv1.
      by destruct H01 as (_ & _ & _ & -> & _). }
  apply elem_of_cons in Hin as [<-|Hin].
  - pose proof (observe_result _ _ _ _ _ _ Ho Hk Hcase He) as ->.
    apply observe_Some in He as (_ & o2 & Ho2 & Hob2 & _).
    assert (grows st0 st') as H0'.
    { eapply post_Ok; [apply (observeArray_grows fuel l)|done]. }
    destruct (grows_wrapped _ _ _ _ H0' Ho2 Hob2) as (o3 & ? & ? & _). eauto.
  - eapply (IH st0); try done.
    destruct Hle as (-> & _). done.
Qed.

Lemma native_Ok m args a o st r st1 :
  objects st !! a = Some o →
  native m args a st = Ok r st1 →
  (∃ l', objects st1 !! a = Some (set_items l' o)) ∧
  notified st1 = notified st ∧ closures st1 = closures st ∧
  dep_uid st1 = dep_uid st ∧ world st1 = world st ∧
  shouldObserve st1 = shouldObserve st ∧
  ∀ b ob, b ≠ a → objects st !! b = Some ob → objects st1 !! b = Some ob.
Proof.
  intros Ho. unfold native, bind at 1, get_object, gets. rewrite Ho.
  assert (∀ l' (k : M jsvalue),
    (∀ st2 st3 x, k st2 = Ok x st3 →
       objects st2 !! a = Some (set_items l' o) →
       (∀ b, is_Some (objects st !! b) → is_Some (objects st2 !! b)) →
       objects st3 !! a = Some (set_items l' o) ∧
       notified st3 = notified st2 ∧ closures st3 = closures st2 ∧
       dep_uid st3 = dep_uid st2 ∧ world st3 = world st2 ∧
       shouldObserve st3 = shouldObserve st2 ∧
       ∀ b ob, is_Some (objects st !! b) → objects st2 !! b = Some ob →
               objects st3 !! b = Some ob) →
    (if negb (extensible o) && bool_decide (length (items o) < length l')
     then throw type_error else put_object a (set_items l' o);;; k) st = Ok r st1 →
    (∃ l', objects st1 !! a = Some (set_items l' o)) ∧
    notified st1 = notified st ∧ closures st1 = closures st ∧
    dep_uid st1 = dep_uid st ∧ world st1 = world st ∧
    shouldObserve st1 = shouldObserve st ∧
    ∀ b ob, b ≠ a → objects st !! b = Some ob → objects st1 !! b = Some ob)
    as Hfinish.
  { intros l' k Hk. destruct (_ && _); [done|].
    intros ([] & st2 & Hput & Hrest)%bind_Ok.
    unfold put_object, modify in Hput. injection Hput as <-.
    destruct (Hk _ _ _ Hrest) as (Ha & Hn & Hc & Hu & Hw & Hs & Hother).
    { simpl. by rewrite lookup_insert_eq. }
    { intros b Hb. simpl. destruct (decide (a = b)) as [<-|Hne].
      - by rewrite lookup_insert_eq.
      - by rewrite lookup_insert_ne. }
    split_and!; try done; [by eexists|].
    intros b ob Hne Hb. apply Hother; [by rewrite Hb|].
    simpl. by rewrite lookup_insert_ne. }
  assert (∀ (x : jsvalue) st2 st3 y l', ret x st2 = Ok y st3 →
    objects st2 !! a = Some (set_items l' o) →
    (∀ b, is_Some (objects st !! b) → is_Some (objects st2 !! b)) →
    objects st3 !! a = Some (set_items l' o) ∧
       notified st3 = notified st2 ∧ closures st3 = closures st2 ∧
       dep_uid st3 = dep_uid st2 ∧ world st3 = world st2 ∧
       shouldObserve st3 = shouldObserve st2 ∧
       ∀ b ob, is_Some (objects st !! b) → objects st2 !! b = Some ob →
               objects st3 !! b = Some ob) as Hret.
  { intros x st2 st3 y l' [= _ <-] Ha _. done. }
  destruct m; try (apply Hfinish; intros; by eapply Hret).
  apply Hfinish. intros st2 st3 x Hnew Ha Hdom.
  unfold new_array in Hnew. injection Hnew as _ <-. simpl.
  assert (∀ b, is_Some (objects st2 !! b) → fresh (dom (objects st2)) ≠ b) as Hfresh.
  { intros b Hb%elem_of_dom Heq. rewrite <- Heq in Hb. by apply is_fresh in Hb. }
  split_and!; try done.
  - rewrite lookup_insert_ne; [done|]. apply Hfresh. by rewrite Ha.
  - intros b ob Hb Hb2. rewrite lookup_insert_ne; [done|].
    apply Hfresh. by rewrite Hb2.
Qed.

(** The built-in methods leave a well-formed store well formed. *)
Lemma native_wf m args a st r st1 :
  wf st → native m args a st = Ok r st1 → wf st1.
Proof.
  intros Hwf. unfold native, bind at 1, get_object, gets.
  destruct (objects st !! a) as [o|] eqn:Ho; [|done].
  assert (object_ok st o) as Hobj.
  { destruct Hwf as (_ & _ & Hob). by apply (Hob a o). }
  assert (∀ l' (k : M jsvalue),
    (∀ st2 st3 x, wf st2 → k st2 = Ok x st3 → wf st3) →
    (if negb (extensible o) && bool_decide (length (items o) < length l')
     then throw type_error else put_object a (set_items l' o);;; k) st = Ok r st1 →
    wf st1) as Hfinish.
  { intros l' k Hk. destruct (_ && _); [done|].
    intros ([] & st2 & Hput & Hrest)%bind_Ok.
    unfold put_object, modify in Hput. injection Hput as <-.
    eapply Hk; [|exact Hrest]. by apply wf_put_object. }
  destruct m; apply Hfinish; try (by intros st2 st3 x Hwf2 [= _ <-]).
  intros st2 st3 x Hwf2. unfold new_array. intros [= _ <-].
  apply wf_put_object; [done|]. unfold object_ok. simpl. constructor.
Qed.

(** The built-in method calls [notify()] on nobody. *)
Lemma native_same_trace m args a st :
  post (same_trace st) (native m args a st).
Proof.
  unfold native, bind at 1, get_object, gets.
  destruct (objects st !! a) as [o|]; [|done].
  assert (∀ l' (k : M jsvalue),
    (∀ st2, post (same_trace st2) (k st2)) →
    post (same_trace st)
      ((if negb (extensible o) && bool_decide (length (items o) < length l')
        then throw type_error else put_object a (set_items l' o);;; k) st))
    as Hfinish.
  { intros l' k Hk. destruct (_ && _); [done|].
    apply post_bind; [apply _|done|]. intros _ st2 _. apply Hk. }
  destruct m; apply Hfinish; intros st2; done.
Qed.

(** C6.  Let the array carry a wrapper and let the built-in method, which
    is run first, return [result] and leave the store [st1].  The
    intercepted method then goes on from [st1]: it wraps the inserted
    elements (the arguments of [push] and [unshift], the arguments of
    [splice] after the first two, none for the other methods), then calls
    [notify()] on the subject of the array's wrapper, then returns
    [result].  When it returns, it returns [result]; [notify()] was called
    once during the whole call, on that subject and after all wrapping was
    done: every subject of the final store existed by then; the array holds
    what the built-in method left; every inserted element that can be
    wrapped carries a wrapper; wrapping has otherwise only added to the
    store; and when nothing was inserted the objects, closures and subjects
    are those the built-in method left.  On a well-formed store the
    intercepted method does return, with [result], for every recursion
    depth that is large enough. *)
Theorem mutator_spec (fuel : nat) (m : method) (args : list jsvalue) (a : nat)
    (o : object) (ob : Observer) (st st1 : store) (result : jsvalue) :
  objects st !! a = Some o →
  __ob__ o = Some ob →
  native m args a st = Ok result st1 →
  inserted m args =
    match m with
    | push | unshift => Some args
    | splice => Some (drop 2 args)
    | pop | shift | sort | reverse_ => None
    end ∧
  mutator fuel m args a st =
    (observeArray fuel (default [] (inserted m args)) ;;;
     notify (ob_dep ob) ;;;
     ret result) st1 ∧
  (∀ r' st', mutator fuel m args a st = Ok r' st' →
    r' = result ∧
    notified st' = notified st ++ [ob_dep ob] ∧
    trace st' = trace st ++ [Notified (ob_dep ob) (dep_uid st')] ∧
    items <$> objects st' !! a = items <$> objects st1 !! a ∧
    (∀ b o1, VObject b ∈ default [] (inserted m args) →
       objects st1 !! b = Some o1 → okind o1 ≠ KVNode →
       is_Some (__ob__ o1) ∨ observable st1 o1 →
       ∃ o2, objects st' !! b = Some o2 ∧ is_Some (__ob__ o2)) ∧
    (∀ b o1, objects st1 !! b = Some o1 →
       ∃ o2, objects st' !! b = Some o2 ∧ obj_le o1 o2) ∧
    (default [] (inserted m args) = [] →
       objects st' = objects st1 ∧ closures st' = closures st1 ∧
       dep_uid st' = dep_uid st1)) ∧
  (wf st →
   ∃ n0 st', ∀ n, n0 ≤ n → mutator n m args a st = Ok result st').
Proof.
  intros Ho Hob Hnative. split; [by destruct m|].
  destruct (native_Ok _ _ _ _ _ _ _ Ho Hnative)
    as ([l' Ha1] & Hn1 & Hc1 & Hu1 & Hw1 & Hs1 & Hother).
  assert (∀ n, mutator n m args a st =
    (match inserted m args with
     | Some l => observeArray n l
     | None => ret ()
     end ;;; notify (ob_dep ob) ;;; ret result) st1) as Hgo.
  { intros n. unfold mutator, bind at 1. rewrite Hnative.
    unfold bind at 1, get_object, gets. rewrite Ha1. simpl. by rewrite Hob. }
  split; cycle 1.
  split; cycle 1.
  { intros Hwf. pose proof (native_wf _ _ _ _ _ _ Hwf Hnative) as Hwf1.
    assert (eventually
      (λ n, match inserted m args with
            | Some l => observeArray n l
            | None => ret ()
            end ;;; notify (ob_dep ob) ;;; ret result) st1
      (λ r _, r = result)) as (n0 & r' & st' & -> & H).
    { eapply (eventually_bind _ _ st1 (λ _ s, wf s)).
      - destruct (inserted m args);
          [by apply observeArray_converges|by eapply eventually_now].
      - intros _ s Hs. by eapply eventually_now. }
    exists n0, st'. intros n Hn. by rewrite <- (H n Hn). }
  2: { rewrite Hgo. by destruct (inserted m args). }
  intros r' st'. rewrite Hgo.
  intros ([] & st2 & Hins & Hrest)%bind_Ok.
  apply bind_Ok in Hrest as ([] & st3 & Hnotify & [= <- <-]).
  unfold notify, modify in Hnotify. injection Hnotify as <-. simpl.
  assert (grows st1 st2 ∧ same_trace st1 st2 ∧
          ∀ b o1, VObject b ∈ default [] (inserted m args) →
            objects st1 !! b = Some o1 → okind o1 ≠ KVNode →
            is_Some (__ob__ o1) ∨ observable st1 o1 →
            ∃ o2, objects st2 !! b = Some o2 ∧ is_Some (__ob__ o2))
    as (H12 & Ht12 & Hwr).
  { destruct (inserted m args) as [l|]; simpl.
    - destruct (observeArray_wraps fuel l st1 st2 Hins) as [Hg Hw].
      split; [done|]. split; [|done].
      pose proof (observeArray_same_trace fuel l st1) as Ht. by rewrite Hins in Ht.
    - injection Hins as <-. split; [reflexivity|]. split; [reflexivity|].
      intros b o1 Hin. by apply elem_of_nil in Hin. }
  assert (trace st1 = trace st) as Ht1.
  { pose proof (native_same_trace m args a st) as Ht. by rewrite Hnative in Ht. }
  split_and!; try done.
  - destruct H12 as (-> & _). by rewrite Hn1.
  - unfold same_trace in Ht12. by rewrite Ht12, Ht1.
  - destruct (grows_lookup _ _ _ _ H12 Ha1) as (o2 & -> & Hle).
    rewrite Ha1. simpl. by destruct Hle as (_ & _ & _ & -> & _).
  - intros b o1 Hb. by apply (grows_lookup _ _ _ _ H12).
  - intros Hnil. destruct (inserted m args) as [l|]; simpl in *.
    + subst l. by injection Hins as <-.
    + by injection Hins as <-.
Qed.

(** ** Intercepted methods on an empty array *)

(** X16.  [pop] and [shift] on an empty array that carries a wrapper
    return [undefined] and leave the array empty and the store as it was,
    and still notify the subject of the wrapper, once. *)
Theorem mutator_empty_array_notifies (fuel : nat) (m : method) (args : list jsvalue)
    (a : nat) (o : object) (ob : Observer) (st : store) :
  objects st !! a = Some o →
  __ob__ o = Some ob →
  items o = [] →
  m = pop ∨ m = shift →
  mutator fuel m args a st =
    Ok VUndefined
       (Store (objects st) (closures st) (dep_uid st) (target st) (depended st)
              (notified st ++ [ob_dep ob])
              (trace st ++ [Notified (ob_dep ob) (dep_uid st)])
              (shouldObserve st) (world st)).
Proof using Type.
  intros Ho Hob Hit Hm.
  assert (set_items [] o = o) as Hsame.
  { destruct o. simpl in Hit. by rewrite Hit. }
  assert (native m args a st = Ok VUndefined st) as Hnat.
  { unfold native, bind at 1, get_object, gets. rewrite Ho, Hit.
    destruct Hm as [-> | ->]; simpl; rewrite andb_false_r;
      unfold bind, put_object, modify, ret; rewrite Hsame, insert_id by done;
      by destruct st. }
  unfold mutator, bind at 1. rewrite Hnat.
  unfold bind at 1, get_object, gets. rewrite Ho. simpl. rewrite Hob.
  by destruct Hm as [-> | ->].
Qed.

(** ** Writing and reading a reactive property *)

(** X17.  A reactive property without accessors of its own reads back what
    was written: on a well-formed store [reactiveSetter] returns, and
    [reactiveGetter] then returns the value written and leaves the store as
    it is. *)
Theorem reactive_property_reads_back (d : nat) (c : closure) (v : jsvalue)
    (st : store) :
  wf st →
  closures st !! d = Some c →
  c_getter c = None →
  c_setter c = None →
  eventually (λ n, call_setter n (ReactiveSetter d) v) st
    (λ _ st', wf st' ∧
              ∀ n, call_getter (S n) (ReactiveGetter d) st' = Ok v st').
Proof using Type.
  intros Hwf Hc Hg Hs.
  assert (∀ s c', wf s → closures s !! d = Some c' → c_getter c' = None →
            c_val c' = v →
            ∀ n, call_getter (S n) (ReactiveGetter d) s = Ok v s) as Hread.
  { intros s c' (Ht & _) Hc' Hg' Hv' n. simpl.
    unfold bind, get_closure, gets. rewrite Hc', Hg'. unfold ret.
    by rewrite Ht, Hv'. }
  pose proof Hwf as (Ht & Hcl & _). destruct (Hcl d c Hc) as (Hlt & _).
  apply eventually_S. simpl.
  eapply eventually_step; [reflexivity|]. cbv beta. rewrite Hc, Hg.
  eapply eventually_step; [reflexivity|]. cbv beta.
  destruct (unchanged v (c_val c)) eqn:Hu.
  { eapply eventually_now; [reflexivity|]. split; [done|].
    apply unchanged_iff in Hu. by apply (Hread st c). }
  rewrite Hs.
  eapply eventually_step; [reflexivity|]. cbv beta.
  match goal with |- eventually _ ?s _ => set (st1 := s) end.
  assert (wf st1) as Hwf1 by (by apply wf_alter_closure).
  assert (closures st1 !! d = Some (set_val v c)) as Hc1.
  { unfold st1. simpl. by rewrite lookup_alter_eq, Hc. }
  eapply (eventually_bind _ _ st1 (λ _ s, wf s ∧ grows st1 s)).
  { destruct (c_shallow c).
    - eapply eventually_now; [reflexivity|]. split; [done|reflexivity].
    - apply eventually_post; [by apply observe_converges|].
      intros n. apply observe_grows. }
  intros ch st2 [Hwf2 H12].
  assert (closures st2 !! d = Some (set_val v c)) as Hc2.
  { destruct H12 as (_ & _ & _ & _ & _ & Hkeep & _). by rewrite Hkeep. }
  eapply eventually_now; [reflexivity|].
  match goal with |- _ ∧ ∀ n, _ = Ok v ?s => set (st3 := s) end.
  assert (wf st3) as Hwf3.
  { eapply (wf_same (set_closures (alter (set_childOb ch) d (closures st2)) st2));
      try done. by apply wf_alter_closure. }
  split; [done|]. apply (Hread st3 (set_childOb ch (set_val v c))); try done.
  unfold st3. simpl. by rewrite lookup_alter_eq, Hc2.
Qed.

(** ** [set] on an array index *)



(** ** Wrapping leaves wrapped objects alone *)

(** The objects that carry a wrapper in [st], the one at [x] apart, are the
    same in [st']. *)
Definition wrapped_kept_but (x : option nat) (st st' : store) : Prop :=
  ∀ b o, Some b ≠ x → objects st !! b = Some o → is_Some (__ob__ o) →
         objects st' !! b = Some o.

Global Instance wrapped_kept_but_preorder x : PreOrder (wrapped_kept_but x).
Proof using Type.
  split.
  - by intros st b o _ Hb _.
  - intros st1 st2 st3 H12 H23 b o Hx Hb Hob. apply H23; [done| |done].
    by apply H12.
Qed.

Lemma wrapped_kept_same x st st' :
  objects st' = objects st → wrapped_kept_but x st st'.
Proof using Type. intros Heq b o _ Hb _. by rewrite Heq. Qed.

Lemma wrapped_kept_weaken x st st' :
  wrapped_kept_but None st st' → wrapped_kept_but x st st'.
Proof using Type. intros H b o _. by apply H. Qed.

Lemma wrapped_kept_put a o x st :
  x = Some a ∨ (∀ o', objects st !! a = Some o' → __ob__ o' = None) →
  wrapped_kept_but x st (set_objects (<[a := o]> (objects st)) st).
Proof using Type.
  intros Hx b o' Hb Ho' Hob. simpl. destruct (decide (a = b)) as [<-|Hne].
  - destruct Hx as [->|Hx]; [done|]. rewrite (Hx o' Ho') in Hob.
    by destruct Hob.
  - by rewrite lookup_insert_ne.
Qed.

Lemma only_depended_kept x st st' :
  only_depended st st' → wrapped_kept_but x st st'.
Proof using Type. intros [l ->]. by apply wrapped_kept_same. Qed.

Lemma defineReactive_with_kept obs fuel a key given shallow st :
  (∀ v st1, post (wrapped_kept_but None st1) (obs v st1)) →
  post (wrapped_kept_but (Some a) st)
       (defineReactive_with obs fuel a key given shallow st).
Proof using Type.
  intros Hobs. unfold defineReactive_with.
  apply post_bind; [apply _|by apply wrapped_kept_same|].
  intros dep st1 _. unfold bind at 1, get_object, gets.
  destruct (objects st1 !! a) as [o|] eqn:Ho; [|simpl; reflexivity].
  case_bool_decide; [simpl; reflexivity|].
  apply post_bind; [apply _| |].
  { destruct given; [simpl; reflexivity|].
    eapply post_mono; [apply only_depended_kept|].
    destruct (field key (fields o) ≫= prop_get),
      (field key (fields o) ≫= prop_set); simpl;
      try apply read_field_only_depended; reflexivity. }
  intros val st2 _. apply post_bind; [apply _| |].
  { destruct shallow; [simpl; reflexivity|].
    eapply post_mono; [apply wrapped_kept_weaken|apply Hobs]. }
  intros childOb st3 _. apply post_bind; [apply _|by apply wrapped_kept_same|].
  intros _ st4 _. unfold bind at 1, get_object, gets.
  destruct (objects st4 !! a) as [o'|] eqn:Ho'; [|simpl; reflexivity].
  destruct (field key (fields o')), (extensible o'); simpl;
    try reflexivity; apply wrapped_kept_put; by left.
Qed.

Lemma observe_kept fuel v st :
  post (wrapped_kept_but None st) (observe fuel false v st).
Proof using Type.
  revert v st. induction fuel as [|n IH]; intros v st; [done|].
  simpl. destruct v; try (simpl; reflexivity).
  unfold bind at 1, get_object, gets.
  destruct (objects st !! a) as [o|] eqn:Ho; [|simpl; reflexivity].
  case_decide; [simpl; reflexivity|].
  apply post_bind; [apply _| |intros; simpl; reflexivity].
  destruct (__ob__ o) as [ob|] eqn:Hob; [simpl; reflexivity|].
  unfold bind at 1, gets. destruct (_ && _); [|simpl; reflexivity].
  unfold bind at 1, newDep. unfold bind at 1, put_object, modify.
  match goal with |- post _ (_ ?s) => set (st2 := s) end.
  assert (wrapped_kept_but None st st2) as H02.
  { intros b o' _ Hb Hwr. unfold st2. simpl.
    rewrite lookup_insert_ne; [done|]. intros <-. rewrite Ho in Hb.
    injection Hb as <-. rewrite Hob in Hwr. by destruct Hwr. }
  eapply post_mono with (R := wrapped_kept_but (Some a) st2).
  { intros s Hs b o' _ Hb Hwr. apply Hs; [|by apply H02|done].
    intros [= <-]. rewrite Ho in Hb. injection Hb as <-. rewrite Hob in Hwr.
    by destruct Hwr. }
  apply post_bind; [apply _| |intros; simpl; reflexivity].
  case_decide.
  - apply post_bind; [apply _|apply wrapped_kept_put; by left|].
    intros _ st3 _. apply post_for_each; [apply _|].
    intros e st4 _. apply post_bind; [apply _| |intros; simpl; reflexivity].
    eapply post_mono; [apply wrapped_kept_weaken|apply IH].
  - apply post_for_each; [apply _|].
    intros key st3 _. apply defineReactive_with_kept. intros; apply IH.
Qed.

(** ** [set] adds a reactive property *)

Lemma eventually_and {A} (F : nat → M A) st (P Q : A → store → Prop) :
  eventually F st P → eventually F st Q →
  eventually F st (λ a st', P a st' ∧ Q a st').
Proof using Type.
  intros (n1 & a1 & s1 & HP & H1) (n2 & a2 & s2 & HQ & H2).
  exists n1, a1, s1. split; [|done]. split; [done|].
  pose proof (H1 (n1 `max` n2) ltac:(lia)) as E1.
  pose proof (H2 (n1 `max` n2) ltac:(lia)) as E2.
  rewrite E1 in E2. by injection E2 as -> ->.
Qed.

Lemma define_field_new key (p : prop) fs :
  field key fs = None → define_field key p fs = fs ++ [(key, p)].
Proof using Type.
  induction fs as [|[k q] fs IH]; simpl; [done|].
  case_decide; [done|]. intros Hf. by rewrite IH.
Qed.

Lemma field_app key (p : prop) fs k :
  field k (fs ++ [(key, p)]) =
    match field k fs with
    | Some q => Some q
    | None => if decide (key = k) then Some p else None
    end.
Proof using Type.
  induction fs as [|[k' q] fs IH]; simpl.
  - by destruct (decide (key = k)).
  - destruct (decide (k' = k)); [done|apply IH].
Qed.

Lemma hasOwn_false key (o : object) :
  hasOwn key o = false →
  field key (fields o) = None ∧
  (key = "__ob__" → __ob__ o = None) ∧
  (okind o = KArray → key ≠ "length").
Proof using Type.
  unfold hasOwn. intros H.
  apply orb_false_iff in H as [H Hlen]. apply orb_false_iff in H as [Hf Hob].
  apply bool_decide_eq_false in Hf. split_and!.
  - destruct (field key (fields o)); [|done]. destruct Hf. by eexists.
  - intros ->. rewrite bool_decide_true in Hob by done. simpl in Hob.
    apply bool_decide_eq_false in Hob. destruct (__ob__ o); [|done].
    destruct Hob. by eexists.
  - intros Hk ->. rewrite !bool_decide_true in Hlen by done. done.
Qed.

Lemma set_new_key (a : nat) (key : string) (val : jsvalue)
    (o : object) (ob : Observer) (st : store) :
  wf st →
  objects st !! a = Some o →
  (okind o = KArray → isValidArrayIndex key = None) →
  hasOwn key o = false →
  (key ∈ inherited o → key ∈ Object_prototype) →
  __ob__ o = Some ob → vmCount ob = 0 → _isVue o = false →
  extensible o = true →
  eventually (λ n, set n a key val) st
    (λ r st',
       r = val ∧ wf st' ∧
       notified st' = notified st ++ [ob_dep ob] ∧
       objects st' !! a =
         Some (set_fields (fields o ++ [(key, reactive (dep_uid st))]) o) ∧
       (∀ n, read_field (S n) a key st' = Ok val st') ∧
       (∀ b o', b ≠ a → objects st !! b = Some o' → is_Some (__ob__ o') →
                objects st' !! b = Some o') ∧
       (∀ d, d < dep_uid st → closures st' !! d = closures st !! d)).
Proof using Type.
  intros Hwf Ho Hidx Hown Hinh Hob Hvm Hvue Hext. unfold set.
  destruct (hasOwn_false key o Hown) as (Hnew & _ & _).
  eapply eventually_step; [reflexivity|]. cbv beta. rewrite Ho.
  assert ((if decide (okind o = KArray) then isValidArrayIndex key else None) = None)
    as -> by (case_decide; auto).
  assert (key_in key o && negb (bool_decide (key ∈ Object_prototype)) = false) as ->.
  { unfold key_in. rewrite Hown. simpl.
    destruct (decide (key ∈ inherited o)) as [Hin|Hnin].
    - rewrite (bool_decide_true _ (Hinh Hin)). by rewrite andb_false_r.
    - by rewrite (bool_decide_false _ Hnin). }
  rewrite Hob, Hvue, Hvm. simpl.
  set (d := dep_uid st).
  assert (eventually (λ n, defineReactive n a key (Some val) false) st
    (λ _ s, (notified s = notified st ∧
             objects s !! a = Some (set_fields (fields o ++ [(key, reactive d)]) o) ∧
             (∃ ch, closures s !! d = Some (Closure val ch false None None)) ∧
             (∀ b o', b ≠ a → objects st !! b = Some o' → is_Some (__ob__ o') →
                      objects s !! b = Some o') ∧
             (∀ d', d' < d → closures s !! d' = closures st !! d')) ∧
            wf s)) as Hdef.
  { apply eventually_and.
    2: { apply (defineReactive_with_converges (λ n, observe n false)
                  (dom (objects st))); try done.
         - intros v s Hs _. by apply observe_converges.
         - intros n v s. apply observe_grows.
         - apply unwrapped_in_dom.
         - by exists o. }
    unfold defineReactive, defineReactive_with.
    eapply eventually_step; [reflexivity|]. cbv beta.
    match goal with |- eventually _ ?s _ => set (st1 := s) end.
    assert (wf st1) as Hwf1 by (by apply (wf_newDep st (dep_uid st))).
    eapply eventually_step; [reflexivity|]. cbv beta.
    change (objects st1 !! a) with (objects st !! a). rewrite Ho, Hnew. simpl.
    eapply eventually_step; [reflexivity|]. cbv beta.
    eapply (eventually_bind _ _ st1
      (λ _ s, (wf s ∧ grows st1 s) ∧ wrapped_kept_but None st1 s)).
    { apply eventually_post; [|intros n; apply observe_kept].
      apply eventually_post; [by apply observe_converges|].
      intros n; apply observe_grows. }
    intros ch st2 [[Hwf2 H12] Hk12].
    assert (∀ b o', objects st !! b = Some o' → is_Some (__ob__ o') →
                    objects st2 !! b = Some o') as Hkept.
    { intros b o' Hb Hwr. by apply (Hk12 b o'). }
    eapply eventually_step; [reflexivity|]. cbv beta.
    eapply eventually_step; [reflexivity|]. cbv beta. simpl.
    rewrite (Hkept a o Ho) by (by rewrite Hob).
    rewrite Hnew, Hext, define_field_new by done.
    eapply eventually_now; [reflexivity|]. simpl.
    destruct H12 as (Hn & _ & _ & _ & _ & Hcl & _).
    split_and!.
    - by rewrite Hn.
    - by rewrite lookup_insert_eq.
    - exists ch. by rewrite lookup_insert_eq.
    - intros b o' Hne Hb Hwr. rewrite lookup_insert_ne by done. by apply Hkept.
    - intros d' Hd'. rewrite lookup_insert_ne by (unfold d in *; lia).
      rewrite Hcl; [done|]. simpl. unfold d in Hd'. lia. }
  eapply (eventually_bind _ _ st _ _ Hdef).
  intros _ s ((Hn & Hoa & (ch & Hch) & Hoth & Hcl) & Hwfs).
  eapply eventually_now; [reflexivity|]. simpl.
  match goal with |- _ ∧ wf ?s' ∧ _ => set (s1 := s') end.
  assert (wf s1) as Hwf1 by (by apply (wf_same s)).
  split_and!; try done.
  - by rewrite Hn.
  - intros n. unfold read_field, bind, get_object, gets. simpl.
    rewrite Hoa. simpl. rewrite field_app, Hnew, decide_True by done.
    unfold reactive. unfold bind, get_closure, gets. simpl. rewrite Hch. simpl.
    destruct Hwfs as (Ht & _). unfold ret. by rewrite Ht.
Qed.

(** X19.  Let an extensible object carry a wrapper and be neither a Vue
    instance nor root data, and let the key be no own property of it, of
    those that are hidden neither, and be found on its prototype chain in
    [Object.prototype] at most.  On a well-formed store [set] returns the
    value; the object then has the own property [key] with the accessors
    of [defineReactive], its other own properties being what they were;
    reading [key] returns the value; the subject of the wrapper was
    notified once; and the other wrapped objects and the closures of the
    older subjects are untouched. *)
Theorem set_adds_reactive_property (a : nat) (key : string) (val : jsvalue)
    (o : object) (ob : Observer) (st : store) :
  wf st →
  objects st !! a = Some o →
  (okind o = KArray → isValidArrayIndex key = None) →
  hasOwn key o = false →
  (key ∈ inherited o → key ∈ Object_prototype) →
  __ob__ o = Some ob → vmCount ob = 0 → _isVue o = false →
  extensible o = true →
  eventually (λ n, set n a key val) st
    (λ r st',
       r = val ∧ wf st' ∧
       notified st' = notified st ++ [ob_dep ob] ∧
       (∃ fs, objects st' !! a = Some (set_fields fs o) ∧
              field key fs = Some (reactive (dep_uid st)) ∧
              ∀ k, k ≠ key → field k fs = field k (fields o)) ∧
       (∀ n, read_field (S n) a key st' = Ok val st') ∧
       (∀ b o', b ≠ a → objects st !! b = Some o' → is_Some (__ob__ o') →
                objects st' !! b = Some o') ∧
       (∀ d, d < dep_uid st → closures st' !! d = closures st !! d)).
Proof using Type.
  intros Hwf Ho Hidx Hown Hinh Hob Hvm Hvue Hext.
  destruct (hasOwn_false key o Hown) as (Hnew & _ & _).
  eapply eventually_mono; [by eapply set_new_key|].
  intros r st' (Hr & Hwf' & Hn & Hoa & Hread & Hoth & Hcl).
  split_and!; try done.
  eexists. split; [exact Hoa|]. split.
  - by rewrite field_app, Hnew, decide_True.
  - intros k Hk. rewrite field_app. destruct (field k (fields o)); [done|].
    by rewrite decide_False.
Qed.

(** ** [del] removes a property *)


Lemma field_remove_field key k fs :
  field k (remove_field key fs) = if decide (k = key) then None else field k fs.
Proof using Type.
  unfold remove_field. induction fs as [|[k' q] fs IH]; simpl.
  - by case_decide.
  - destruct (decide (k' = key)) as [->|Hne].
    + rewrite filter_cons_False by (simpl; auto). rewrite IH.
      destruct (decide (k = key)) as [->|Hk]; [done|].
      by rewrite decide_False by done.
    + rewrite filter_cons_True by done. simpl.
      destruct (decide (k' = k)) as [->|Hk]; [|done].
      by rewrite decide_False by done.
Qed.

(** X20.  Let the key not be an index of an array.  [del] does nothing,
    and notifies nobody, on a Vue instance, on root data, and for a key that
    is not an own property.  Otherwise, for a configurable property of the
    object, it removes the property and keeps the others: reading the key
    then yields [undefined], provided the key is not found on the prototype
    chain; the subject of the object's wrapper, if it has one, is notified
    once, and nothing else in the store changes.  A property that is not
    configurable makes it throw. *)
Theorem del_removes_property (fuel : nat) (a : nat) (key : string) (o : object)
    (st : store) :
  objects st !! a = Some o →
  (okind o = KArray → isValidArrayIndex key = None) →
  (_isVue o = true ∨ (∃ ob, __ob__ o = Some ob ∧ vmCount ob ≠ 0) ∨
   hasOwn key o = false →
   del fuel a key st = Ok () st) ∧
  (_isVue o = false →
   (∀ ob, __ob__ o = Some ob → vmCount ob = 0) →
   ∀ p, field key (fields o) = Some p →
     if prop_configurable p then
       ∃ st',
         del fuel a key st = Ok () st' ∧
         objects st' !! a = Some (set_fields (remove_field key (fields o)) o) ∧
         (∀ k, field k (remove_field key (fields o)) =
               if decide (k = key) then None else field k (fields o)) ∧
         (key ∉ inherited o → key ∉ Object_prototype →
          ∀ n, read_field n a key st' = Ok VUndefined st') ∧
         notified st' =
           notified st ++ match __ob__ o with Some ob => [ob_dep ob] | None => [] end ∧
         (∀ b, b ≠ a → objects st' !! b = objects st !! b) ∧
         closures st' = closures st ∧ depended st' = depended st ∧
         world st' = world st
     else del fuel a key st = Thrown type_error st).
Proof using Type.
  intros Ho Hidx.
  assert ((if decide (okind o = KArray) then isValidArrayIndex key else None) = None)
    as Hnone by (case_decide; auto).
  split.
  - intros Hcase. unfold del, bind at 1, get_object, gets. rewrite Ho, Hnone.
    destruct Hcase as [-> | [(ob & -> & Hvm) | Hown]]; [done| |].
    + rewrite (bool_decide_false _ Hvm). by rewrite orb_true_r.
    + rewrite Hown. simpl. by destruct (_ || _).
  - intros Hvue Hvm p Hp.
    assert (del fuel a key st =
            (delete a key ;;;
             match __ob__ o with
             | None => ret ()
             | Some ob => notify (ob_dep ob)
             end) st) as ->.
    { unfold del, bind at 1, get_object, gets. rewrite Ho, Hnone, Hvue.
      assert (match __ob__ o with
              | Some ob => negb (bool_decide (vmCount ob = 0))
              | None => false
              end = false) as ->.
      { destruct (__ob__ o) as [ob|] eqn:Hob; [|done].
        by rewrite (bool_decide_true _ (Hvm ob eq_refl)). }
      unfold hasOwn. rewrite Hp.
      by rewrite (bool_decide_true (is_Some (Some p))) by (by eexists). }
    assert (delete a key st =
            if prop_configurable p
            then Ok () (set_objects
                          (<[a := set_fields (remove_field key (fields o)) o]>
                             (objects st)) st)
            else Thrown type_error st) as Hdel.
    { unfold delete, bind at 1, get_object, gets. rewrite Ho, Hp.
      by destruct (prop_configurable p). }
    destruct (prop_configurable p) eqn:Hconf; unfold bind at 1; rewrite Hdel;
      [|done].
    set (st1 := set_objects _ st).
    assert (∀ s, objects s = objects st1 →
                 ∀ n, read_field n a key s = Ok VUndefined s) as Hread.
    { intros s Hs n. unfold read_field, bind, get_object, gets. rewrite Hs.
      unfold st1. simpl. rewrite lookup_insert_eq. simpl.
      rewrite field_remove_field. by rewrite decide_True. }
    destruct (__ob__ o) as [ob|].
    + eexists. split; [reflexivity|]. simpl. split_and!; try done.
      * by rewrite lookup_insert_eq.
      * intros k. apply field_remove_field.
      * intros _ _. by apply Hread.
      * intros b Hb. by rewrite lookup_insert_ne.
    + eexists. split; [reflexivity|]. simpl. split_and!; try done.
      * by rewrite lookup_insert_eq.
      * intros k. apply field_remove_field.
      * intros _ _. by apply Hread.
      * by rewrite app_nil_r.
      * intros b Hb. by rewrite lookup_insert_ne.
Qed.


(** ** Wrapping is transparent to reads *)

(** Reading [obj[key]] returns [v], and leaves the store as it is. *)
Definition reads (st : store) (a : nat) (key : string) (v : jsvalue) : Prop :=
  eventually (λ n, read_field n a key) st (λ v' s, v' = v ∧ s = st).

(** What could be read in [st] reads the same in [st']. *)
Definition transparent (st st' : store) : Prop :=
  ∀ a key v, reads st a key v → reads st' a key v.

Global Instance transparent_preorder : PreOrder transparent.
Proof using Type.
  split.
  - by intros st a key v.
  - intros st1 st2 st3 H12 H23 a key v Hr. by apply H23, H12.
Qed.












End with_env.

End with_world.
Arguments prop : clear implicits.
Arguments closure : clear implicits.
Arguments object : clear implicits.
Arguments store : clear implicits.
Arguments getter_fn : clear implicits.
Arguments setter_fn : clear implicits.

(** ** Concrete stores *)
Module examples.

Definition to_number (s : string) : number :=
  if decide (s = "0") then Num 0
  else if decide (s = "1") then Num 1
  else if decide (s = "2") then Num 2
  else NaN.

Definition keep_order (args l : list jsvalue) : list jsvalue := l.

Definition plain (fs : list (string * prop unit)) : object unit :=
  mkObject KPlain true false fs [] [] None false.
Definition array (l : list jsvalue) : object unit :=
  mkObject KArray true false [] l [] None false.

(** [{ a: 1, list: [1, {x: null}] }] at 1, the array at 2, its element at
    3, and [{}] at 4. *)
Definition fresh_store : store unit :=
  Store
    {[ 1 := plain [("a", Data (VNumber (Num 1)) true);
                   ("list", Data (VObject 2) true)];
       2 := array [VNumber (Num 1); VObject 3];
       3 := plain [("x", Data VNull true)];
       4 := plain [] ]}
    ∅ 0 None [] [] [] true ().

Definition store_of {A} (r : result (store unit) A) : store unit :=
  match r with
  | Ok _ st | Thrown _ st => st
  | Diverged => fresh_store
  end.

(** The store after [observe(data)], and after [observe(data, true)]. *)
Definition wrapped_store : store unit :=
  store_of (observe false 5 false (VObject 1) fresh_store).
Definition root_store : store unit :=
  store_of (observe false 5 true (VObject 1) fresh_store).

Lemma wrapped_store_wrappers :
  observe false 5 false (VObject 1) fresh_store = Ok (Some 1) wrapped_store ∧
  (__ob__ <$> objects wrapped_store !! 1) = Some (Some (mkObserver 0 0)) ∧
  (__ob__ <$> objects wrapped_store !! 2) = Some (Some (mkObserver 3 0)) ∧
  (__ob__ <$> objects wrapped_store !! 3) = Some (Some (mkObserver 4 0)) ∧
  (__ob__ <$> objects wrapped_store !! 4) = Some None ∧
  (__ob__ <$> objects root_store !! 1) = Some (Some (mkObserver 0 1)).
Proof. by vm_compute. Qed.

(** These stores are well formed. *)
Lemma stores_wf : wf fresh_store ∧ wf wrapped_store ∧ wf root_store.
Proof. split_and!; apply (bool_decide_unpack _); by vm_compute. Qed.


(** With observation switched off, [observe] still returns the wrapper of
    a value that carries one. *)
Definition switched_off : store unit :=
  store_of (toggleObserving false wrapped_store).

Lemma observe_switched_off_returns_wrapper :
  shouldObserve switched_off = false ∧
  observe false 5 false (VObject 1) switched_off = Ok (Some 1) switched_off ∧
  observe false 5 false (VObject 4) switched_off = Ok None switched_off.
Proof. by vm_compute. Qed.


(** [list.push({})] on the wrapped array notifies its subject once and
    wraps the new element. *)
Lemma mutator_spec_witness :
  ∃ o ob st1,
    objects wrapped_store !! 2 = Some o ∧
    __ob__ o = Some ob ∧
    native to_number keep_order push [VObject 4] 2 wrapped_store
      = Ok (VNumber (Num 3)) st1 ∧
    (∃ st', mutator false to_number keep_order 5 push [VObject 4] 2 wrapped_store
              = Ok (VNumber (Num 3)) st') ∧
    ∀ r' st',
      mutator false to_number keep_order 5 push [VObject 4] 2 wrapped_store
        = Ok r' st' →
      r' = VNumber (Num 3) ∧ notified st' = notified wrapped_store ++ [ob_dep ob].
Proof.
  eexists _, _, _.
  assert (H1 : objects wrapped_store !! 2 =
               Some (mkObject KArray true false [] [VNumber (Num 1); VObject 3] []
                       (Some (mkObserver 3 0)) true)) by (vm_compute; reflexivity).
  split; [exact H1|]. split; [reflexivity|].
  split; [vm_compute; reflexivity|].
  split; [eexists; vm_compute; reflexivity|].
  intros r' st' H.
  destruct (mutator_spec false to_number keep_order 5 push [VObject 4] 2 _ _
              wrapped_store _ (VNumber (Num 3)) H1 eq_refl eq_refl)
    as (_ & _ & Hspec & _).
  destruct (Hspec r' st' H) as (Hr & Hn & _). split; assumption.
Defined.

(** Writing 1 over 1 to the reactive field [a] returns without a
    notification. *)
Lemma reactiveSetter_notifies_witness :
  closures wrapped_store !! 1 = Some (Closure (VNumber (Num 1)) None false None None) ∧
  1 < dep_uid wrapped_store ∧
  current_value 3 (Closure (VNumber (Num 1)) None false None None) wrapped_store
    = Ok (VNumber (Num 1)) wrapped_store ∧
  call_setter false 4 (ReactiveSetter 1) (VNumber (Num 1)) wrapped_store
    = Ok () wrapped_store.
Proof.
  assert (H1 : closures wrapped_store !! 1 =
               Some (Closure (World:=unit) (VNumber (Num 1)) None false None None))
    by (vm_compute; reflexivity).
  assert (H2 : 1 < dep_uid wrapped_store) by (vm_compute; lia).
  assert (H3 : current_value (World:=unit) 3
                 (Closure (VNumber (Num 1)) None false None None) wrapped_store
               = Ok (VNumber (Num 1)) wrapped_store) by reflexivity.
  split; [exact H1|]. split; [exact H2|]. split; [exact H3|].
  destruct (reactiveSetter_notifies false 3 1 _ (VNumber (Num 1)) _ _ _ H1 H2 H3)
    as (_ & Hnoop & _).
  destruct Hnoop as (Hcall & _); [left; reflexivity|]. exact Hcall.
Defined.

(** Writing 2 over 1 notifies the subject of the field once. *)
Lemma reactive_write_notifies :
  ∃ st', call_setter false 4 (ReactiveSetter 1) (VNumber (Num 2)) wrapped_store
           = Ok () st' ∧
         notified st' = [1] ∧
         (c_val <$> closures st' !! 1) = Some (VNumber (Num 2)).
Proof. eexists. split; [vm_compute; reflexivity|]. by vm_compute. Qed.

(** Writing [NaN] over [NaN] does not notify. *)
Lemma reactive_write_NaN :
  ∃ st1 st2,
    call_setter false 4 (ReactiveSetter 1) (VNumber NaN) wrapped_store = Ok () st1 ∧
    notified st1 = [1] ∧
    call_setter false 4 (ReactiveSetter 1) (VNumber NaN) st1 = Ok () st2 ∧
    notified st2 = [1].
Proof.
  eexists _, _. split; [vm_compute; reflexivity|]. split; [by vm_compute|].
  split; [vm_compute; reflexivity|]. by vm_compute.
Qed.

(** The object at [a]. *)
Definition obj_at (a : nat) (st : store unit) : object unit :=
  default (plain []) (objects st !! a).

(** [const arr = []; arr.push(arr)] at 1. *)
Definition cyclic_store : store unit :=
  Store {[ 1 := array [VObject 1] ]} ∅ 0 (Some 7) [] [] [] true ().

(** [dependArray] never returns on the array that contains itself. *)
Lemma dependArray_cycle_never_returns_witness :
  array_cycle {[1]} cyclic_store ∧
  ∀ fuel v st', dependArray fuel [VObject 1] cyclic_store ≠ Ok v st'.
Proof.
  assert (Hc : array_cycle {[1]} cyclic_store).
  { intros a Ha. apply elem_of_singleton in Ha. rewrite Ha.
    exists (array [VObject 1]), 1. split; [reflexivity|]. split; [reflexivity|].
    split; [by apply elem_of_singleton|]. apply list_elem_of_here. }
  split; [exact Hc|]. intros fuel v st'.
  apply (proj1 (dependArray_cycle_never_returns {[1]} cyclic_store Hc)
           [VObject 1] 1 fuel v st').
  - by apply elem_of_singleton.
  - apply list_elem_of_here.
Defined.

(** An empty array, wrapped. *)
Definition empty_list_store : store unit :=
  store_of (observe false 5 false (VObject 1)
              (Store {[ 1 := array [] ]} ∅ 0 None [] [] [] true ())).

(** [pop] on the empty array notifies its subject. *)
Lemma mutator_empty_array_notifies_witness :
  ∃ st', mutator false to_number keep_order 0 pop [] 1 empty_list_store
           = Ok VUndefined st' ∧
         notified st' = [0] ∧ objects st' = objects empty_list_store.
Proof.
  assert (H1 : objects empty_list_store !! 1 = Some (obj_at 1 empty_list_store))
    by (vm_compute; reflexivity).
  eexists. split.
  - apply (mutator_empty_array_notifies false to_number keep_order 0 pop [] 1
             (obj_at 1 empty_list_store) (mkObserver 0 0) empty_list_store H1);
      [vm_compute; reflexivity|vm_compute; reflexivity|left; reflexivity].
  - split; reflexivity.
Defined.

Lemma wrapped_store_wf : wf wrapped_store.
Proof. apply (bool_decide_unpack _). vm_compute. reflexivity. Defined.

(** Writing 2 to the reactive field [a], then reading it. *)
Lemma reactive_property_reads_back_witness :
  eventually (λ n, call_setter false n (ReactiveSetter 1) (VNumber (Num 2)))
    wrapped_store
    (λ _ st', ∀ n, call_getter (S n) (ReactiveGetter 1) st'
                   = Ok (VNumber (Num 2)) st').
Proof.
  assert (H1 : closures wrapped_store !! 1 =
               Some (Closure (World:=unit) (VNumber (Num 1)) None false None None))
    by (vm_compute; reflexivity).
  eapply eventually_mono.
  - apply (reactive_property_reads_back false 1 _ (VNumber (Num 2)) wrapped_store
             wrapped_store_wf H1 eq_refl eq_refl).
  - intros _ st' [_ H]. exact H.
Defined.


(** [set(obj, 'y', 5)] on the wrapped object [{x: null}], and the same
    followed by [del(obj, 'y')]. *)
Lemma set_adds_reactive_property_witness :
  eventually (λ n, set false to_number keep_order n 3 "y" (VNumber (Num 5)))
    wrapped_store
    (λ r st', r = VNumber (Num 5) ∧ notified st' = [4] ∧
              ∀ n, read_field (S n) 3 "y" st' = Ok (VNumber (Num 5)) st').
Proof.
  assert (H1 : objects wrapped_store !! 3 = Some (obj_at 3 wrapped_store))
    by (vm_compute; reflexivity).
  eapply eventually_mono.
  - apply (set_adds_reactive_property false to_number keep_order 3 "y"
             (VNumber (Num 5)) (obj_at 3 wrapped_store) (mkObserver 4 0)
             wrapped_store wrapped_store_wf H1).
    + intros H. vm_compute in H. discriminate H.
    + vm_compute; reflexivity.
    + intros H. vm_compute in H. inversion H.
    + vm_compute; reflexivity.
    + reflexivity.
    + vm_compute; reflexivity.
    + vm_compute; reflexivity.
  - intros r st' (Hr & _ & Hn & _ & Hread & _). split; [exact Hr|].
    split; [exact Hn|exact Hread].
Defined.


(** [del(obj, 'x')] on the wrapped object [{x: null}]. *)
Lemma del_removes_property_witness :
  ∃ st', del false to_number keep_order 0 3 "x" wrapped_store = Ok () st' ∧
         notified st' = [4] ∧
         ∀ n, read_field n 3 "x" st' = Ok VUndefined st'.
Proof.
  assert (H1 : objects wrapped_store !! 3 = Some (obj_at 3 wrapped_store))
    by (vm_compute; reflexivity).
  assert (H2 : okind (obj_at 3 wrapped_store) = KArray →
               isValidArrayIndex to_number "x" = None)
    by (intros _; reflexivity).
  assert (H3 : ∀ ob, __ob__ (obj_at 3 wrapped_store) = Some ob → vmCount ob = 0).
  { intros ob H. vm_compute in H. injection H as <-. reflexivity. }
  assert (H4 : field "x" (fields (obj_at 3 wrapped_store)) =
               Some (reactive (World:=unit) 5)) by (vm_compute; reflexivity).
  pose proof (proj2 (del_removes_property false to_number keep_order 0 3 "x"
                       (obj_at 3 wrapped_store) wrapped_store H1 H2)
                eq_refl H3 (reactive 5) H4) as H.
  change (prop_configurable (reactive (World:=unit) 5)) with true in H.
  cbv iota in H. destruct H as (st' & Hd & _ & _ & Hread & Hn & _).
  assert (H5 : "x" ∉ inherited (obj_at 3 wrapped_store))
    by (apply (bool_decide_unpack _); vm_compute; reflexivity).
  assert (H6 : "x" ∉ Object_prototype)
    by (apply (bool_decide_unpack _); vm_compute; reflexivity).
  exists st'. split; [exact Hd|]. split; [exact Hn|exact (Hread H5 H6)].
Defined.


End examples.
End observer.
